(** * toil.cwl.cwltoil: dataflow resolution and workflow unrolling

    A shallow embedding of the CWL-to-Toil bridge [src/toil/cwl/cwltoil.py]:
    the [SkipNull] filter, the [Conditional] gate, [ResolveSource]
    (linkMerge / pickValue), [DefaultWithSource], [resolve_indirect],
    [CWLJob.run], [CWLScatter] and the unrolling loop of [CWLWorkflow.run].

    Python objects are JSON-like values; a [dict] is an association list in
    insertion order.  Code that can raise runs in a small monad that also
    collects, in order, the warnings logged and the jobs added.  The
    collaborators that live in cwltool ([shortname], the expression
    evaluator [do_eval], [fill_in_defaults], the job executor) are section
    variables. *)

From Stdlib Require Import ZArith Ascii String.
From stdpp Require Import gmap strings list.

Set Warnings "-register-all".

(** ** Values *)

(** The values that flow between steps.  [VSkipNull] is an instance of the
    sentinel class [SkipNull]; floats do not occur in this development. *)
Inductive value : Type :=
| VNone
| VSkipNull
| VBool (b : bool)
| VInt (n : Z)
| VStr (s : string)
| VList (l : list value)
| VDict (d : list (string * value)).

(** Python [dict] with string keys, in insertion order.  Keys are unique in
    every dict the code builds. *)
Abbreviation adict V := (list (string * V)).
Abbreviation dict := (adict value).

Fixpoint dict_get {V} (k : string) (d : adict V) : option V :=
  match d with
  | [] => None
  | (k', v) :: r => if decide (k = k') then Some v else dict_get k r
  end.

(** [d[k] = v]: overwrite in place, or append a new key. *)
Fixpoint dict_set {V} (k : string) (v : V) (d : adict V) : adict V :=
  match d with
  | [] => [(k, v)]
  | (k', v') :: r =>
      if decide (k = k') then (k, v) :: r else (k', v') :: dict_set k v r
  end.

Definition dict_setdefault {V} (k : string) (v : V) (d : adict V) : adict V :=
  match dict_get k d with
  | Some _ => d
  | None => dict_set k v d
  end.

(** [d.pop(k)] for a key that is present. *)
Fixpoint dict_pop {V} (k : string) (d : adict V) : adict V :=
  match d with
  | [] => []
  | (k', v) :: r => if decide (k = k') then r else (k', v) :: dict_pop k r
  end.

Definition dict_keys {V} (d : adict V) : list string := d.*1.

(** Python truth value ([if result:]).  A [SkipNull] instance is a plain
    object and therefore true. *)
Definition truthy (v : value) : bool :=
  match v with
  | VNone => false
  | VSkipNull => true
  | VBool b => b
  | VInt n => negb (n =? 0)%Z
  | VStr s => negb (bool_decide (s = ""))
  | VList l => negb (bool_decide (l = []))
  | VDict d => negb (bool_decide (d = []))
  end.

(** Truth value of [d.get(key)] for an optional string field. *)
Definition truthy_str (o : option string) : bool :=
  match o with
  | Some s => negb (bool_decide (s = ""))
  | None => false
  end.

(** Does a [SkipNull] occur in the value, at any depth of lists and dict
    values? *)
Fixpoint has_skip (v : value) : bool :=
  match v with
  | VSkipNull => true
  | VList l => existsb has_skip l
  | VDict d => existsb (fun kv => has_skip kv.2) d
  | _ => false
  end.

(** The value with every [SkipNull] replaced by [None]. *)
Fixpoint skip_to_none (v : value) : value :=
  match v with
  | VSkipNull => VNone
  | VList l => VList (map skip_to_none l)
  | VDict d => VDict (map (fun kv => (kv.1, skip_to_none kv.2)) d)
  | _ => v
  end.

(** ** Exceptions, the log and the job graph *)

Inductive exn : Type :=
| ValidationException (msg : string)   (* schema_salad.validate *)
| WorkflowException (msg : string)     (* cwltool.errors *)
| KeyError (k : string)
| IndexError
| TypeError
| ExpressionError.                     (* raised inside cwltool's evaluator *)

(** The Toil job classes [makeJob] and [CWLWorkflow.run] instantiate. *)
Inductive job_class : Type :=
| CWLJob | CWLJobWrapper | CWLWorkflow | CWLScatter.

Inductive event : Type :=
| Warning (msg : string)                       (* cwllogger.warning *)
| AddChild (cls : job_class) (cwljob : dict)   (* self.addChild(subjob) *)
| Execute (cwljob : dict).                     (* SingleJobExecutor.execute *)

Inductive outcome (A : Type) : Type :=
| Ok (a : A)
| Raise (e : exn)
| OutOfFuel.
Arguments Ok {A} a.
Arguments Raise {A} e.
Arguments OutOfFuel {A}.

(** A computation: the events it emitted, in order, and how it ended. *)
Definition M (A : Type) : Type := list event * outcome A.

#[global] Instance M_ret : MRet M := fun A a => ([], Ok a).
#[global] Instance M_bind : MBind M := fun A B f m =>
  match m.2 with
  | Ok a => (m.1 ++ (f a).1, (f a).2)
  | Raise e => (m.1, Raise e)
  | OutOfFuel => (m.1, OutOfFuel)
  end.

Definition raise {A} (e : exn) : M A := ([], Raise e).
Definition emit (e : event) : M unit := ([e], Ok tt).

Fixpoint mapM_ {A B} (f : A -> M B) (l : list A) : M (list B) :=
  match l with
  | [] => mret []
  | x :: r => y ← f x; ys ← mapM_ f r; mret (y :: ys)
  end.

Fixpoint foldM {A B} (f : B -> A -> M B) (acc : B) (l : list A) : M B :=
  match l with
  | [] => mret acc
  | x :: r => acc' ← f acc x; foldM f acc' r
  end.

(** [d[k]] *)
Definition dict_getitem {V} (k : string) (d : adict V) : M V :=
  match dict_get k d with
  | Some v => mret v
  | None => raise (KeyError k)
  end.

(** [len(v)] *)
Definition py_len (v : value) : M nat :=
  match v with
  | VList l => mret (length l)
  | VStr s => mret (String.length s)
  | VDict d => mret (length d)
  | _ => raise TypeError
  end.

(** [v[i]] for an index [i] produced by [range(0, len(...))]. *)
Definition py_index (v : value) (i : nat) : M value :=
  match v with
  | VList l =>
      match l !! i with Some x => mret x | None => raise IndexError end
  | VStr s =>
      match String.get i s with
      | Some c => mret (VStr (String c ""))
      | None => raise IndexError
      end
  | VDict _ => raise (KeyError "")
  | _ => raise TypeError
  end.

(** ** Workflow descriptions *)

(** A field that holds a string or a list of strings, and cwltool's
    [aslist]. *)
Inductive str_or_list : Type :=
| One (s : string)
| Many (l : list string).

Definition aslist (x : str_or_list) : list string :=
  match x with
  | One s => [s]
  | Many l => l
  end.

(** [aslist(inp.get("source", []))] *)
Definition sources_of (o : option str_or_list) : list string :=
  match o with
  | Some x => aslist x
  | None => []
  end.

(** The [requirements] handed to the expression evaluator. *)
Definition Requirements : Type := list value.

(** A step input or a workflow output: the mapping [inp] / [out] with its
    optional keys. *)
Record port : Type := Port {
  port_id : string;
  port_source : option str_or_list;
  port_outputSource : option str_or_list;
  port_linkMerge : option string;
  port_pickValue : option string;
  port_default : option value;
  port_valueFrom : option string
}.

Inductive source_key : Type := KSource | KOutputSource.

Definition source_key_name (k : source_key) : string :=
  match k with
  | KSource => "source"
  | KOutputSource => "outputSource"
  end.

(** [input.get(key)] for the two source keys. *)
Definition port_get (input : port) (k : source_key) : option str_or_list :=
  match k with
  | KSource => port_source input
  | KOutputSource => port_outputSource input
  end.

(** An entry of [step.tool["out"]]: a mapping with an [id], or a string. *)
Inductive out_decl : Type :=
| OutMapping (id : string)
| OutString (s : string).

(** What [makeJob] reads of [step.embedded_tool]: its class, and whether
    its ResourceRequirement holds an expression. *)
Record embedded : Type := Embedded {
  emb_class : string;
  emb_dynamic_resources : bool
}.

Record step : Type := Step {
  step_id : string;
  step_inputs : list port;
  step_out : list out_decl;
  step_outputs : list port;
  step_scatter : option str_or_list;
  step_scatterMethod : option string;
  step_when : option string;
  step_requirements : Requirements;
  step_embedded_tool : embedded
}.

Record workflow : Type := Workflow {
  wf_inputs : list port;
  wf_outputs : list port;
  wf_steps : list step;
  wf_requirements : Requirements
}.

Record Conditional : Type := MkConditional {
  cond_expression : option string;
  cond_outputs : list out_decl;
  cond_requirements : Requirements
}.

(** ** Deferred values *)

(** [ResolveSource]: [promise_tuples] is a list of (short name, promise)
    or, for one source without linkMerge, a single tuple.  [P] is what a
    promise is at the time: a reference to the producing job while the
    graph is unrolled, the producer's returned dict when [resolve] runs. *)
Inductive promise_tuples (P : Type) : Type :=
| TupleList (l : list (string * P))
| OneTuple (t : string * P).
Arguments TupleList {P} l.
Arguments OneTuple {P} t.

Record ResolveSource (P : Type) : Type := MkResolveSource {
  rs_name : string;
  rs_input : port;
  rs_source_key : source_key;
  rs_promise_tuples : promise_tuples P
}.
Arguments MkResolveSource {P}.
Arguments rs_name {P}.
Arguments rs_input {P}.
Arguments rs_source_key {P}.
Arguments rs_promise_tuples {P}.

(** The objects with a [resolve] method that an [IndirectDict] holds. *)
Inductive indirect (P : Type) : Type :=
| IResolveSource (rs : ResolveSource P)
| IDefaultWithSource (default : value) (source : option (indirect P))
| IStepValueFrom (expr : string) (source : indirect P) (req : Requirements)
| IJustAValue (val : value).
Arguments IResolveSource {P} rs.
Arguments IDefaultWithSource {P} default source.
Arguments IStepValueFrom {P} expr source req.
Arguments IJustAValue {P} val.

(** A job object: a plain dict, or an [IndirectDict]. *)
Inductive pdict (P : Type) : Type :=
| PlainDict (d : dict)
| IndirectDict (d : adict (indirect P)).
Arguments PlainDict {P} d.
Arguments IndirectDict {P} d.

(** What [promises] maps a parameter id to: the [SelfJob] wrapper of the
    workflow's own inputs, or the follow-on job of a step. *)
Inductive producer : Type :=
| SelfJob
| FollowOn (step : string).

(** The unit built for a step: the job class of [wfjob], its job object and
    its conditional.  The source enters the step's follow-on under the
    step's id, which is [wfjob] itself for a tool, the gather behind a
    scatter and the [ResolveIndirect] behind a nested workflow; the loop
    reads of [jobs] only whether the id is in it. *)
Record unit_of_work : Type := MkUnit {
  unit_class : job_class;
  unit_cwljob : adict (indirect producer);
  unit_conditional : Conditional
}.

(** The two tables of [CWLWorkflow.run]. *)
Record tables : Type := MkTables {
  promises : gmap string producer;
  jobs : gmap string unit_of_work
}.

(** The promises a scatter returns: [followOn.rv()] of the sub-job that got
    the job object [jo], or (nested cross product) a list of such. *)
Inductive outputs_tree : Type :=
| RvOf (jo : dict)
| Nested (l : list outputs_tree).

(** What [CWLJob.run] reads of the job. *)
Record CWLJob_state : Type := MkCWLJob {
  job_cwljob : pdict dict;
  job_step_inputs : list port;
  (** the field names of [cwltool.inputs_record_schema] *)
  job_fields : list string;
  job_conditional : Conditional
}.

Definition nl : string := String (Ascii.ascii_of_nat 10) "".

Definition skip_warning (name : string) : string :=
  "In " +:+ name +:+ ", SkipNull result found and cast to None. " +:+ nl +:+
  "You had a conditional step that did not run, " +:+
  "but you did not use pickValue to handle the skipped input.".

(** ** filter_skip_null *)

(** [_filter_skip_null(name, value, err_flag)]: the one-cell list
    [err_flag] is threaded through as a boolean. *)
Fixpoint _filter_skip_null (name : string) (v : value) (err_flag : bool)
  : value * bool :=
  match v with
  | VSkipNull => (VNone, true)
  | VList l =>
      let r :=
        (fix go (l : list value) (flag : bool) : list value * bool :=
           match l with
           | [] => ([], flag)
           | x :: xs =>
               let a := _filter_skip_null name x flag in
               let b := go xs a.2 in
               (a.1 :: b.1, b.2)
           end) l err_flag in
      (VList r.1, r.2)
  | VDict d =>
      let r :=
        (fix go (d : dict) (flag : bool) : dict * bool :=
           match d with
           | [] => ([], flag)
           | kv :: xs =>
               let a := _filter_skip_null name kv.2 flag in
               let b := go xs a.2 in
               ((kv.1, a.1) :: b.1, b.2)
           end) d err_flag in
      (VDict r.1, r.2)
  | _ => (v, err_flag)
  end.

Definition filter_skip_null (name : string) (v : value) : M value :=
  let r := _filter_skip_null name v false in
  if r.2 then _ ← emit (Warning (skip_warning name)); mret r.1
  else mret r.1.

(** ** CWLGather *)

(** [CWLGather.extract]: the values under [k], in the nesting the scatter
    returned; a job's output dict answers with [obj.get(k)]. *)
Fixpoint extract (obj : value) (k : string) : value :=
  match obj with
  | VDict d => default VNone (dict_get k d)
  | VList l => VList (map (fun l => extract l k) l)
  | _ => VList []
  end.

(** [CWLGather.allkeys]: the set [keys] is updated in place. *)
Fixpoint allkeys (obj : value) (keys : gset string) : gset string :=
  match obj with
  | VDict d => foldl (fun keys k => keys ∪ {[k]}) keys (dict_keys d)
  | VList l => foldl (fun keys l => allkeys l keys) keys l
  | _ => keys
  end.

(** ** Helpers on documents *)

(** [obj.get("class") in ("File", "Directory")] *)
Definition is_dir_entry (obj : dict) : bool :=
  match dict_get "class" obj with
  | Some (VStr c) => bool_decide (c = "File") || bool_decide (c = "Directory")
  | _ => false
  end.

(** [_collectDirEntries] of [toilStageFiles]: the objects the generator
    yields, in order. *)
Fixpoint _collectDirEntries (obj : value) : list dict :=
  match obj with
  | VDict d =>
      if is_dir_entry d then [d]
      else concat (map (fun kv => _collectDirEntries kv.2) d)
  | VList l => concat (map _collectDirEntries l)
  | _ => []
  end.

(** [path_to_loc] of [main]; [obj] is updated in place. *)
Definition path_to_loc (obj : dict) : dict :=
  match dict_get "location" obj, dict_get "path" obj with
  | None, Some p => dict_pop "path" (dict_set "location" p obj)
  | _, _ => obj
  end.

(** [remove_at_id] of [main]; [doc] is updated in place.  The loop over the
    entries of a list tests [value], the list itself, for being a mapping,
    so its body never runs. *)
Fixpoint remove_at_id (doc : value) : value :=
  match doc with
  | VDict d =>
      VDict ((fix keys (d : dict) : dict :=
                match d with
                | [] => []
                | (key, v) :: r =>
                    if decide (key = "@id") then keys r
                    else
                      (key, match v with
                            | VDict _ => remove_at_id v
                            | _ => v
                            end) :: keys r
                end) d)
  | _ => doc
  end.

(** [x.startswith(p)] and [x[n:]] *)
Definition startswith (p x : string) : bool := String.prefix p x.

Fixpoint slice_from (n : nat) (x : string) : string :=
  match n, x with
  | O, _ => x
  | S n', String _ r => slice_from n' r
  | S _, EmptyString => EmptyString
  end.

(** ** The file index *)

(** The dicts [index] and [existing] that [toil_get_file], [write_file]
    and [uploadFile] share, the store that [writeFunc] and the file store
    work on, and the messages given to [cwllogger.error]: the exception
    and the path. *)
Record files (Store : Type) : Type := MkFiles {
  index : gmap string string;
  existing : gmap string string;
  store : Store;
  errors : list (exn * string)
}.
Arguments MkFiles {Store}.
Arguments index {Store}.
Arguments existing {Store}.
Arguments store {Store}.
Arguments errors {Store}.

(** What [uploadFile] reads of a File object: the strings under
    [location] and [path], when the keys are there. *)
Record file_object : Type := MkFile {
  file_location : option string;
  file_path : option string
}.


(** ** Concrete collaborators and example data *)

(** An instance of cwltool's [shortname]: the part of the fragment (or of
    the whole identifier when it has none) after the last slash. *)
Fixpoint has_char (c : Ascii.ascii) (s : string) : bool :=
  match s with
  | EmptyString => false
  | String a r => if Ascii.eqb a c then true else has_char c r
  end.

Fixpoint fragment (s : string) : string :=
  match s with
  | EmptyString => EmptyString
  | String a r => if Ascii.eqb a "#"%char then r else fragment r
  end.

Fixpoint last_segment (s : string) : string :=
  match s with
  | EmptyString => EmptyString
  | String a r =>
      if has_char "/"%char r then last_segment r
      else if Ascii.eqb a "/"%char then r else s
  end.

Definition shortname_impl (inputid : string) : string :=
  if bool_decide (fragment inputid = "") then last_segment inputid
  else last_segment (fragment inputid).

(** An evaluator for the parameter references [$(self)], [$(null)],
    [$(true)], [$(false)] and [$(inputs.NAME)]; anything else fails. *)
Fixpoint strip_prefix (p s : string) : option string :=
  match p, s with
  | EmptyString, _ => Some s
  | String a p', String b s' =>
      if Ascii.eqb a b then strip_prefix p' s' else None
  | _, _ => None
  end.

Definition param_eval (expr : string) (inputs : dict) (req : Requirements)
    (context : value) : option value :=
  if bool_decide (expr = "$(self)") then Some context
  else if bool_decide (expr = "$(null)") then Some VNone
  else if bool_decide (expr = "$(true)") then Some (VBool true)
  else if bool_decide (expr = "$(false)") then Some (VBool false)
  else
    match strip_prefix "$(inputs." expr with
    | Some rest =>
        let n := String.length rest in
        if bool_decide (String.get (n - 1) rest = Some ")"%char) then
          Some (default VNone (dict_get (substring 0 (n - 1) rest) inputs))
        else None
    | None => None
    end.

Definition no_defaults (inputs : list port) (job : dict) : exn + dict :=
  inr job.

Definition echo_executor (cwljob : dict) : dict * string :=
  (cwljob, "success").

Definition plain_port (id : string) : port :=
  Port id None None None None None None.

Definition sourced_port (id : string) (src : str_or_list) : port :=
  Port id (Some src) None None None None None.

(** A workflow with a cycle: step A reads B's output and step B reads A's. *)
Definition a_tool : embedded := Embedded "CommandLineTool" false.

Definition step_A : step :=
  Step "#main/A" [sourced_port "#main/A/x" (One "#main/B/out")]
       [OutString "#main/A/out"] [plain_port "#main/A/out"]
       None None None [] a_tool.

Definition step_B : step :=
  Step "#main/B" [sourced_port "#main/B/x" (One "#main/A/out")]
       [OutString "#main/B/out"] [plain_port "#main/B/out"]
       None None None [] a_tool.

Definition cyclic_workflow : workflow :=
  Workflow []
           [Port "#main/result" None (Some (One "#main/B/out"))
                 None None None None]
           [step_A; step_B] [].

Definition empty_tables : tables := MkTables ∅ ∅.

Definition no_condition : Conditional := MkConditional None [] [].

(** A tool step guarded by [when: $(inputs.flag)], run with [flag] false. *)
Definition flag_gate : Conditional :=
  MkConditional (Some "$(inputs.flag)")
                [OutString "#main/step/out"; OutMapping "#main/step/log"] [].


(** An input [x] fed by the output [n] of a job that returned [n = 0]. *)
Definition zero_source : ResolveSource dict :=
  MkResolveSource "#main/step/x"
                  (sourced_port "#main/step/x" (One "#main/count/n")) KSource
                  (OneTuple ("n", [("n", VInt 0)])).

(** An input with one source and [pickValue: first_non_null]; the job
    behind the source returned the array [[null, 5]] under [out]. *)
Definition picky_port : port :=
  Port "#main/t/x" (Some (One "#main/s/out")) None None
       (Some "first_non_null") None None.

Definition array_result : gmap string dict :=
  {[ "#main/s/out" := [("out", VList [VNone; VInt 5])] ]}.

(** The same source read without pickValue, from a step that was skipped. *)
Definition skipped_result : gmap string dict :=
  {[ "#main/s/out" := [("out", VSkipNull)] ]}.

(** Two sources merged under the default policy. *)
Definition two_sources_port : port :=
  sourced_port "#main/t/x" (Many ["#main/s/out"; "#main/u/out"]).

Definition two_results : gmap string dict :=
  {[ "#main/s/out" := [("out", VInt 1)]; "#main/u/out" := [("out", VInt 2)] ]}.

(** A step that scatters over [ports] with the given scatterMethod. *)
Definition scatter_step (ports : str_or_list) (method : option string)
    (inputs : list port) : step :=
  Step "#main/step" inputs [OutString "#main/step/out"]
       [plain_port "#main/step/out"] (Some ports) method None [] a_tool.

Definition xy_inputs : list port :=
  [plain_port "#main/step/x"; plain_port "#main/step/y"].

Definition xy_job : dict :=
  [("x", VList [VInt 1; VInt 2]); ("y", VList [VInt 7; VInt 8; VInt 9])].







(** An input that flattens its sources. *)
Definition flattening_port : port :=
  Port "#main/t/x" (Some (Many ["#main/s/out"; "#main/u/out"])) None
       (Some "merge_flattened") None None None.

(** Two steps in a row, the last one listed first: [second] reads the
    output of [first], [first] reads the workflow input. *)
Definition first_step : step :=
  Step "#main/first" [sourced_port "#main/first/x" (One "#main/in")]
       [OutString "#main/first/out"] [plain_port "#main/first/out"]
       None None None [] a_tool.

Definition second_step : step :=
  Step "#main/second" [sourced_port "#main/second/x" (One "#main/first/out")]
       [OutString "#main/second/out"] [plain_port "#main/second/out"]
       None None None [] a_tool.

Definition chain_workflow : workflow :=
  Workflow [plain_port "#main/in"]
           [Port "#main/result" None (Some (One "#main/second/out"))
                 None None None None]
           [second_step; first_step] [].

Definition chain_tables : tables := MkTables {[ "#main/in" := SelfJob ]} ∅.

(** A step with an input whose [source] is the empty list. *)
Definition unnamed_step : step :=
  Step "#main/s" [Port "#main/s/x" (Some (Many [])) None None None None None]
       [] [] None None None [] a_tool.

(** A source whose producer was skipped. *)
Definition skipped_source : ResolveSource dict :=
  MkResolveSource "#main/t/x" (sourced_port "#main/t/x" (One "#main/s/out"))
                  KSource (OneTuple ("out", [("out", VSkipNull)])).

(** A job object with a valueFrom on [y] that reads the input [x]. *)
Definition valueFrom_jobobj : adict (indirect dict) :=
  [("x", IJustAValue (VInt 1));
   ("y", IStepValueFrom "$(inputs.x)" (IJustAValue (VInt 2)) [])].

(** A tool job whose job object has a key that is no field of the tool's
    input schema. *)
Definition undeclared_job : CWLJob_state :=
  MkCWLJob (PlainDict [("n", VInt 3); ("extra", VInt 9)])
           [plain_port "#main/step/n"] ["n"] no_condition.

(** What two sub-jobs of [scatter_step] returned: the second one was
    skipped. *)
Definition second_skipped (jo : dict) : bool :=
  match dict_get "x" jo with
  | Some (VInt 2) => true
  | _ => false
  end.

Definition sub_job_outputs (jo : dict) : dict :=
  if second_skipped jo then [("out", VSkipNull)]
  else [("out", default VNone (dict_get "x" jo)); ("extra", VInt 0)].

Definition two_promises : list outputs_tree :=
  [RvOf [("x", VInt 1)]; RvOf [("x", VInt 2)]].

(** A document with an [@id] at the top, in a mapping and in a mapping
    inside a list. *)
Definition provenance_doc : dict :=
  [("@id", VStr "a");
   ("file", VDict [("@id", VStr "b"); ("class", VStr "File")]);
   ("files", VList [VDict [("@id", VStr "c"); ("class", VStr "File")]])].

(** A job store that keeps the paths written to it, in order, and names a
    file by its path; a file system with one file; paths without
    scheme. *)
Definition keep_paths (s : list string) (path : string)
  : (exn + string) * list string :=
  (inr path, s ++ [path]).

Definition no_scheme (x : string) : string := "".

Definition same_path (x : string) : string := x.

Definition one_file (path : string) : bool :=
  bool_decide (path = "/data/a.txt").

Definition plain_file_uri (path : string) : string := "file://" +:+ path.

Definition read_to_tmp (s : list string) (packed : string)
  : (exn + string) * list string :=
  (inr ("/tmp/" +:+ packed), s).

Definition public_url (s : list string) (uri : string)
  : (exn + string) * list string :=
  (inr uri, s).

Definition no_files : files (list string) := MkFiles ∅ ∅ [] [].






(** ** The bridge, over cwltool's collaborators *)

Section Cwltoil.

(** [cwltool.process.shortname] *)
Context (shortname : string -> string).
(** [cwltool.expression.do_eval(expr, inputs, requirements, None, None, {},
    context=context)]; [None] when the evaluator raises. *)
Context (do_eval : string -> dict -> Requirements -> value -> option value).
(** [cwltool.process.fill_in_defaults(inputs, job, fsaccess)], which
    updates [job] in place or raises. *)
Context (fill_in_defaults : list port -> dict -> exn + dict).
(** [SingleJobExecutor().execute(tool, cwljob, runtime_context, logger)]:
    the output object and the status. *)
Context (execute : dict -> dict * string).

Definition eval (expr : string) (inputs : dict) (req : Requirements)
    (context : value) : M value :=
  match do_eval expr inputs req context with
  | Some v => mret v
  | None => raise ExpressionError
  end.

(** [{shortname(k): v for k, v in d.items()}] *)
Definition short_keys (d : dict) : dict :=
  foldl (fun acc kv => dict_set (shortname kv.1) kv.2 acc) [] d.

(** *** ResolveSource *)

(** [self.input[self.source_key]] *)
Definition port_getitem (input : port) (k : source_key) : M str_or_list :=
  match port_get input k with
  | Some s => mret s
  | None => raise (KeyError (source_key_name k))
  end.

Definition promises_getitem {P} (promises : gmap string P) (s : string)
  : M P :=
  match promises !! s with
  | Some p => mret p
  | None => raise (KeyError s)
  end.

(** [ResolveSource.__init__] *)
Definition ResolveSource_init {P} (name : string) (input : port)
    (key : source_key) (promises : gmap string P) : M (ResolveSource P) :=
  src ← port_getitem input key;
  let source_names := aslist src in
  if truthy_str (port_linkMerge input) || (1 <? length source_names) then
    l ← mapM_ (fun s => p ← promises_getitem promises s;
                        mret (shortname s, p)) source_names;
    mret (MkResolveSource name input key (TupleList l))
  else
    match source_names with
    | [] => raise IndexError
    | s :: _ =>
        p ← promises_getitem promises s;
        mret (MkResolveSource name input key (OneTuple (shortname s, p)))
    end.

(** [ResolveSource.link_merge] *)
Definition link_merge (input : port) (name : string) (values : list value)
  : M value :=
  let link_merge_type := default "merge_nested" (port_linkMerge input) in
  if decide (link_merge_type = "merge_nested") then
    mret (VList values)
  else if decide (link_merge_type = "merge_flattened") then
    mret (VList (foldl (fun result v =>
                          match v with
                          | VList l => result ++ l
                          | _ => result ++ [v]
                          end) [] values))
  else
    raise (ValidationException
             ("Unsupported linkMerge '" +:+ link_merge_type +:+ "' on " +:+
              name +:+ ".")).

(** [v for v in values if not isinstance(v, SkipNull) and v is not None] *)
Definition non_null (v : value) : bool :=
  match v with
  | VSkipNull | VNone => false
  | _ => true
  end.

(** [ResolveSource.pick_value] *)
Definition pick_value (input : port) (name : string) (values : value)
  : M value :=
  match port_pickValue input with
  | None => mret values
  | Some pick_value_type =>
      match values with
      | VList l =>
          let result := List.filter non_null l in
          if decide (pick_value_type = "first_non_null") then
            match result with
            | [] => raise (WorkflowException
                  (name +:+ ": first_non_null operator found no non-null values"))
            | x :: _ => mret x
            end
          else if decide (pick_value_type = "only_non_null") then
            match result with
            | [] => raise (WorkflowException
                  (name +:+ ": only_non_null operator found no non-null values"))
            | [x] => mret x
            | _ :: _ :: _ => raise (WorkflowException
                  (name +:+
                   ": only_non_null operator found more than one non-null values"))
            end
          else if decide (pick_value_type = "all_non_null") then
            mret (VList result)
          else
            raise (WorkflowException
                     ("Unsupported pickValue '" +:+ pick_value_type +:+
                      "' on " +:+ name))
      | _ =>
          _ ← emit (Warning ("pickValue used but input " +:+ name +:+
                             " is not a list."));
          mret values
      end
  end.

(** [ResolveSource.resolve], once every promise holds the dict its job
    returned. *)
Definition ResolveSource_resolve (self : ResolveSource dict) : M value :=
  result ← match rs_promise_tuples self with
           | TupleList l =>
               vs ← mapM_ (fun v => dict_getitem v.1 v.2) l;
               link_merge (rs_input self) (rs_name self) vs
           | OneTuple v => mret (default VNone (dict_get v.1 v.2))
           end;
  result ← pick_value (rs_input self) (rs_name self) result;
  filter_skip_null (rs_name self) result.

(** *** DefaultWithSource, StepValueFrom, JustAValue *)

(** The [resolve] method of each class.  [StepValueFrom.resolve] also keeps
    its result as [self.context]; [resolve_indirect] below reads it back
    from the first pass. *)
Fixpoint resolve (x : indirect dict) : M value :=
  match x with
  | IResolveSource rs => ResolveSource_resolve rs
  | IDefaultWithSource dflt source =>
      match source with
      | Some src =>
          result ← resolve src;
          if truthy result then mret result else mret dflt
      | None => mret dflt
      end
  | IStepValueFrom _ source _ => resolve source
  | IJustAValue val => mret val
  end.

(** [resolve_indirect]: the second pass walks the same items; for a
    [StepValueFrom] the context is what its own [resolve] returned. *)
Definition resolve_indirect (p : pdict dict) : M dict :=
  match p with
  | PlainDict d => mret d
  | IndirectDict d =>
      first_pass_results ← mapM_ (fun kv => r ← resolve kv.2;
                                            mret (kv.1, r)) d;
      mapM_ (fun '(kv, first) =>
               match kv.2 with
               | IStepValueFrom expr _ req =>
                   r ← eval expr first_pass_results req first.2;
                   mret (kv.1, r)
               | _ =>
                   r ← dict_getitem kv.1 first_pass_results;
                   mret (kv.1, r)
               end) (zip d first_pass_results)
  end.

(** *** Conditional *)

(** [Conditional.is_false] *)
Definition is_false (self : Conditional) (job : dict) : M bool :=
  match cond_expression self with
  | None => mret false
  | Some expression =>
      resolved ← resolve_indirect (PlainDict job);
      expr_is_true ← eval expression (short_keys resolved)
                          (cond_requirements self) VNone;
      match expr_is_true with
      | VBool b => mret (negb b)
      | _ => raise (WorkflowException
                      ("'" +:+ expression +:+
                       "' evaluated to a non-boolean value"))
      end
  end.

Definition sn (n : out_decl) : string :=
  match n with
  | OutMapping id => shortname id
  | OutString s => shortname s
  end.

(** [Conditional.skipped_outputs] *)
Definition skipped_outputs (self : Conditional) : dict :=
  foldl (fun outobj k => dict_set k VSkipNull outobj) []
        (map sn (cond_outputs self)).

(** *** CWLJob *)

(** [CWLJob.run], up to the executor's output (the staging of output files
    that follows does not change whether the tool ran). *)
Definition CWLJob_run (self : CWLJob_state) : M dict :=
  cwljob ← resolve_indirect (job_cwljob self);
  cwljob ← match fill_in_defaults (job_step_inputs self) cwljob with
           | inr d => mret d
           | inl e => raise e
           end;
  skip ← is_false (job_conditional self) cwljob;
  if skip : bool then mret (skipped_outputs (job_conditional self))
  else
    let cwljob :=
      foldl (fun job inp_id =>
               if bool_decide (inp_id ∈ job_fields self) then job
               else dict_pop inp_id job) cwljob (dict_keys cwljob) in
    _ ← emit (Execute cwljob);
    let r := execute cwljob in
    if decide (r.2 = "success") then mret r.1
    else raise (WorkflowException r.2).

(** *** CWLScatter *)

(** [makeJob]: the class of the job it builds for the embedded tool. *)
Definition makeJob (tool : embedded) : job_class :=
  if decide (emb_class tool = "Workflow") then CWLWorkflow
  else if emb_dynamic_resources tool then CWLJobWrapper
  else CWLJob.

(** [{shortname(i["id"]): i["valueFrom"] for i in inputs if "valueFrom" in i}] *)
Definition valueFrom_of (inputs : list port) : adict string :=
  foldl (fun acc i =>
           match port_valueFrom i with
           | Some e => dict_set (shortname (port_id i)) e acc
           | None => acc
           end) [] inputs.

(** [postScatterEval] of [CWLScatter.run] *)
Definition postScatterEval (self : step) (io : dict) : M dict :=
  let valueFrom := valueFrom_of (step_inputs self) in
  let shortio := short_keys io in
  let io := foldl (fun io k => dict_setdefault k VNone io) io
                  (dict_keys valueFrom) in
  mapM_ (fun kv =>
           match dict_get kv.1 valueFrom with
           | Some expr =>
               r ← eval expr shortio (step_requirements self) kv.2;
               mret (kv.1, r)
           | None => mret kv
           end) io.

(** The body shared by the three scatter loops: evaluate, make the job, add
    it as a child, and hand back [followOn.rv()]. *)
Definition submit (self : step) (jo : dict) : M outputs_tree :=
  jo ← postScatterEval self jo;
  _ ← emit (AddChild (makeJob (step_embedded_tool self)) jo);
  mret (RvOf jo).

(** [CWLScatter.flat_crossproduct_scatter]; the result is what the call
    appends to [outputs]. *)
Fixpoint flat_crossproduct_scatter (self : step) (joborder : dict)
    (scatter_keys : list string) : M (list outputs_tree) :=
  match scatter_keys with
  | [] => raise IndexError
  | k :: rest =>
      let scatter_key := shortname k in
      arr ← dict_getitem scatter_key joborder;
      len ← py_len arr;
      foldM (fun outputs n =>
               x ← py_index arr n;
               let jo := dict_set scatter_key x joborder in
               match rest with
               | [] => o ← submit self jo; mret (outputs ++ [o])
               | _ :: _ =>
                   os ← flat_crossproduct_scatter self jo rest;
                   mret (outputs ++ os)
               end) [] (seq 0 len)
  end.

(** [CWLScatter.nested_crossproduct_scatter] *)
Fixpoint nested_crossproduct_scatter (self : step) (joborder : dict)
    (scatter_keys : list string) : M (list outputs_tree) :=
  match scatter_keys with
  | [] => raise IndexError
  | k :: rest =>
      let scatter_key := shortname k in
      arr ← dict_getitem scatter_key joborder;
      len ← py_len arr;
      foldM (fun outputs n =>
               x ← py_index arr n;
               let jo := dict_set scatter_key x joborder in
               match rest with
               | [] => o ← submit self jo; mret (outputs ++ [o])
               | _ :: _ =>
                   os ← nested_crossproduct_scatter self jo rest;
                   mret (outputs ++ [Nested os])
               end) [] (seq 0 len)
  end.

(** The dotproduct loop of [CWLScatter.run]. *)
Definition dotproduct_scatter (self : step) (cwljob : dict)
    (scatter : list string) : M (list outputs_tree) :=
  first ← match scatter with
          | [] => raise IndexError
          | x :: _ => mret x
          end;
  arr ← dict_getitem (shortname first) cwljob;
  len ← py_len arr;
  foldM (fun outputs i =>
           copyjob ← foldM (fun copyjob sc =>
                              a ← dict_getitem sc cwljob;
                              x ← py_index a i;
                              mret (dict_set sc x copyjob))
                           cwljob (map shortname scatter);
           o ← submit self copyjob;
           mret (outputs ++ [o])) [] (seq 0 len).

(** [CWLScatter.run] *)
Definition CWLScatter_run (self : step) (cwljob : pdict dict)
  : M (list outputs_tree) :=
  cwljob ← resolve_indirect cwljob;
  field ← match step_scatter self with
          | Some s => mret s
          | None => raise (KeyError "scatter")
          end;
  let scatter := aslist field in
  let scatterMethod :=
    if decide (length scatter = 1) then Some "dotproduct"
    else step_scatterMethod self in
  if decide (scatterMethod = Some "dotproduct") then
    dotproduct_scatter self cwljob scatter
  else if decide (scatterMethod = Some "nested_crossproduct") then
    nested_crossproduct_scatter self cwljob scatter
  else if decide (scatterMethod = Some "flat_crossproduct") then
    flat_crossproduct_scatter self cwljob scatter
  else if truthy_str scatterMethod then
    raise (ValidationException
             ("Unsupported complex scatter type '" +:+
              default "" scatterMethod +:+ "'"))
  else
    raise (ValidationException
             "Must provide scatterMethod to scatter over multiple inputs.").

(** *** CWLWorkflow *)

(** [stepinputs_fufilled]: every source of every input is a key of
    [promises]. *)
Definition stepinputs_fufilled (promises : gmap string producer)
    (inputs : list port) : bool :=
  foldl (fun ok inp =>
           match port_source inp with
           | Some src =>
               foldl (fun ok s =>
                        match promises !! s with
                        | Some _ => ok
                        | None => false
                        end) ok (aslist src)
           | None => ok
           end) true inputs.

(** The job object [jobobj] of a step that is ready. *)
Definition build_jobobj (wf : workflow) (st : step)
    (promises : gmap string producer) : M (adict (indirect producer)) :=
  foldM (fun jobobj inp =>
           let key := shortname (port_id inp) in
           jobobj ← match port_source inp with
                    | Some _ =>
                        rs ← ResolveSource_init
                               (step_id st +:+ "/" +:+ key) inp KSource
                               promises;
                        mret (dict_set key (IResolveSource rs) jobobj)
                    | None => mret jobobj
                    end;
           let jobobj :=
             match port_default inp with
             | Some d =>
                 dict_set key (IDefaultWithSource d (dict_get key jobobj))
                          jobobj
             | None => jobobj
             end in
           let jobobj :=
             match port_valueFrom inp, step_scatter st with
             | Some expr, None =>
                 dict_set key
                   (IStepValueFrom expr
                      (default (IJustAValue VNone) (dict_get key jobobj))
                      (wf_requirements wf)) jobobj
             | _, _ => jobobj
             end in
           mret jobobj) [] (step_inputs st).

(** A ready step is turned into a job (a scatter/gather pair, or what
    [makeJob] builds), entered in [jobs], and its follow-on is registered
    under each output id.  The dependency edges added between Toil jobs
    (addChild / addFollowOn) do not feed back into the two tables and are
    left out. *)
Definition schedule (wf : workflow) (t : tables) (st : step) : M tables :=
  jobobj ← build_jobobj wf st (promises t);
  let conditional :=
    MkConditional (step_when st) (step_out st) (wf_requirements wf) in
  let cls :=
    match step_scatter st with
    | Some _ => CWLScatter
    | None => makeJob (step_embedded_tool st)
    end in
  mret (MkTables
          (foldl (fun p out => <[port_id out := FollowOn (step_id st)]> p)
                 (promises t) (step_outputs st))
          (<[step_id st := MkUnit cls jobobj conditional]> (jobs t))).

(** One iteration of [for step in self.cwlwf.steps]. *)
Definition visit_step (wf : workflow) (acc : tables * bool) (st : step)
  : M (tables * bool) :=
  t ← match jobs acc.1 !! step_id st with
      | Some _ => mret acc.1
      | None =>
          if stepinputs_fufilled (promises acc.1) (step_inputs st)
          then schedule wf acc.1 st
          else mret acc.1
      end;
  mret (t,
        foldl (fun ok inp =>
                 foldl (fun ok source =>
                          match promises t !! source with
                          | Some _ => ok
                          | None => false
                          end) ok (sources_of (port_source inp)))
              acc.2 (step_inputs st)).

(** [for out in self.cwlwf.tool["outputs"]]: a list under ["source"] is
    not hashable. *)
Definition check_outputs (wf : workflow) (t : tables) (ok : bool) : M bool :=
  foldM (fun ok out =>
           match port_source out with
           | Some (One s) =>
               mret (match promises t !! s with
                     | Some _ => ok
                     | None => false
                     end)
           | Some (Many _) => raise TypeError
           | None => mret ok
           end) ok (wf_outputs wf).

(** The body of [while not all_outputs_fulfilled]: the tables after the
    pass and the flag. *)
Definition pass (wf : workflow) (t : tables) : M (tables * bool) :=
  r ← foldM (visit_step wf) (t, true) (wf_steps wf);
  ok ← check_outputs wf r.1 r.2;
  mret (r.1, ok).

(** The while loop, run for at most [fuel] passes. *)
Fixpoint unroll (fuel : nat) (wf : workflow) (t : tables) : M tables :=
  match fuel with
  | O => ([], OutOfFuel)
  | S fuel' =>
      r ← pass wf t;
      if r.2 : bool then mret r.1 else unroll fuel' wf r.1
  end.

(** [CWLWorkflow.run] *)
Definition CWLWorkflow_run (fuel : nat) (wf : workflow)
    (cwljob : pdict dict) (conditional : Conditional)
  : M (pdict producer) :=
  cwljob ← resolve_indirect cwljob;
  skip ← is_false conditional cwljob;
  if skip : bool then mret (PlainDict (skipped_outputs conditional))
  else
    let promises0 :=
      foldl (fun p inp => <[port_id inp := SelfJob]> p) ∅ (wf_inputs wf) in
    t ← unroll fuel wf (MkTables promises0 ∅);
    outobj ← foldM (fun outobj out =>
                      let key := shortname (port_id out) in
                      rs ← ResolveSource_init
                             ("Workflow output '" +:+ key +:+ "'") out
                             KOutputSource (promises t);
                      mret (dict_set key (IResolveSource rs) outobj))
                   [] (wf_outputs wf);
    mret (IndirectDict outobj).

(** *** CWLGather and CWLJobWrapper *)

(** [CWLGather.run]: [outputs] is what the scatter returned, every promise
    replaced by the value its job returned. *)
Definition CWLGather_run (self : step) (outputs : value) : dict :=
  foldl (fun outobj k => dict_set k (extract outputs k) outobj) []
        (map sn (step_out self)).


(** *** The file index *)

Context {Store : Type}.
(** [urlparse.urlparse(x).scheme] *)
Context (scheme : string -> string).
(** [os.path.realpath] and [os.path.isfile], on the file system as it is
    during the call. *)
Context (realpath : string -> string) (isfile : string -> bool).
(** [schema_salad.ref_resolver.file_uri] *)
Context (file_uri : string -> string).
(** [file_store.readGlobalFile(FileID.unpack(packed))]: the local path, or
    the exception raised. *)
Context (readGlobalFile : Store -> string -> (exn + string) * Store).
(** [jobStore.getPublicUrl(jobStore.importFile(uri))] *)
Context (getPublicUrl : Store -> string -> (exn + string) * Store).

Definition with_store (st : files Store) (s : Store) : files Store :=
  MkFiles (index st) (existing st) s (errors st).

(** [toil_get_file] *)
Definition toil_get_file (st : files Store) (file_store_id : string)
  : outcome string * files Store :=
  if negb (startswith "toilfs:" file_store_id) then
    let r := getPublicUrl (store st) file_store_id in
    (match r.1 with inr url => Ok url | inl e => Raise e end,
     with_store st r.2)
  else
    let r := readGlobalFile (store st) (slice_from 7 file_store_id) in
    match r.1 with
    | inr src_path =>
        (Ok (file_uri src_path),
         MkFiles (<[src_path := file_store_id]> (index st))
                 (<[file_store_id := src_path]> (existing st))
                 r.2 (errors st))
    | inl e => (Raise e, with_store st r.2)
    end.

(** [write_file]; [writeFunc(rp).pack()] is the packed id [writeFunc]
    answers with. *)
Definition write_file (writeFunc : Store -> string -> (exn + string) * Store)
    (st : files Store) (x : string) : outcome string * files Store :=
  if startswith "toilfs:" x then (Ok x, st)
  else if startswith "_:" x then (Ok x, st)
  else
    let x := default x (existing st !! x) in
    match index st !! x with
    | Some ref => (Ok ref, st)
    | None =>
        let rp := if bool_decide (scheme x = "") then realpath x else x in
        let r := writeFunc (store st) rp in
        match r.1 with
        | inr packed =>
            let ref := "toilfs:" +:+ packed in
            (Ok ref,
             MkFiles (<[x := ref]> (index st)) (<[ref := x]> (existing st))
                     r.2 (errors st))
        | inl e =>
            (Raise e,
             MkFiles (index st) (existing st) r.2 (errors st ++ [(e, x)]))
        end
    end.

Definition with_location (uf : file_object) (location : string)
  : file_object :=
  MkFile (Some location) (file_path uf).

(** [uploadFile]: how the call ended, and the file object [uf], which is
    updated in place. *)
Definition uploadFile (uploadfunc : Store -> string -> (exn + string) * Store)
    (st : files Store) (uf : file_object) (skip_broken : bool)
  : outcome unit * file_object * files Store :=
  match file_location uf with
  | None => (Raise (KeyError "location"), uf, st)
  | Some location =>
      if startswith "toilfs:" location || startswith "_:" location then
        (Ok tt, uf, st)
      else
        match index st !! location with
        | Some ref => (Ok tt, with_location uf ref, st)
        | None =>
            let from_path :=
              if bool_decide (location = "") then
                match file_path uf with
                | None => inl (KeyError "path")
                | Some p =>
                    if bool_decide (p = "") then inr uf
                    else inr (with_location uf (file_uri p))
                end
              else inr uf in
            match from_path with
            | inl e => (Raise e, uf, st)
            | inr uf =>
                let location := default "" (file_location uf) in
                if startswith "file://" location
                   && negb (isfile (slice_from 7 location)) then
                  if skip_broken then (Ok tt, uf, st)
                  else
                    (Raise (WorkflowException
                              ("File is missing: " +:+ location)), uf, st)
                else
                  let r := write_file uploadfunc st location in
                  match r.1 with
                  | Ok ref => (Ok tt, with_location uf ref, r.2)
                  | Raise e => (Raise e, uf, r.2)
                  | OutOfFuel => (OutOfFuel, uf, r.2)
                  end
            end
        end
  end.


(** ** Specification-side definitions *)

(** What one source contributes to a flattened merge: its elements when it
    is an array, itself otherwise. *)
Definition spliced (v : value) : list value :=
  match v with
  | VList l => l
  | _ => [v]
  end.

(** A log that holds warnings only: no job was added and no tool ran. *)
Definition only_warnings (log : list event) : Prop :=
  Forall (fun e => exists msg, e = Warning msg) log.


(** [t'] comes from [t] by scheduling steps: no job is lost, and either
    nothing changed or some step got its job. *)
Definition grown (t t' : tables) : Prop :=
  (forall id, is_Some (jobs t !! id) -> is_Some (jobs t' !! id)) /\
  (t' = t \/ exists id, jobs t !! id = None /\ is_Some (jobs t' !! id)).

(** The computation does not end in a [ValidationException]. *)
Definition no_validation_error {A} (m : M A) : Prop :=
  forall msg, m.2 <> Raise (ValidationException msg).

(** The scatterMethod is none of the three policies. *)
Definition unsupported_method (m : option string) : Prop :=
  m <> Some "dotproduct" /\ m <> Some "nested_crossproduct" /\
  m <> Some "flat_crossproduct".







(** A step waits for a parameter of [X]: one of its inputs names it as a
    source. *)
Definition waits_for (X : gset string) (st : step) : Prop :=
  exists inp s,
    inp ∈ step_inputs st /\ s ∈ sources_of (port_source inp) /\ s ∈ X.

(** A step produces a parameter of [X]: it is the id of one of its
    outputs. *)
Definition produces (X : gset string) (st : step) : Prop :=
  exists out, out ∈ step_outputs st /\ port_id out ∈ X.

(** A dependency cycle, or any other group of steps that wait for each
    other: some step waits for a parameter of [X], every step that
    produces a parameter of [X] itself waits for one, and no parameter of
    [X] has a promise. *)
Definition deadlocked (wf : workflow) (t : tables) (X : gset string) : Prop :=
  (exists st, st ∈ wf_steps wf /\ waits_for X st) /\
  (forall st, st ∈ wf_steps wf -> produces X st -> waits_for X st) /\
  (forall s, s ∈ X -> promises t !! s = None).

(** [t'] keeps what [t] holds: every job as it is, and a promise for every
    parameter that had one. *)
Definition keeps (t t' : tables) : Prop :=
  (forall id u, jobs t !! id = Some u -> jobs t' !! id = Some u) /\
  (forall s, is_Some (promises t !! s) -> is_Some (promises t' !! s)).

(** The steps of the workflow that have no job yet. *)
Definition unscheduled (wf : workflow) (t : tables) : list step :=
  filter (fun st => jobs t !! step_id st = None) (wf_steps wf).

(** The steps in an order in which the data can flow: every source of a
    step is in [avail] or the output of a step before it. *)
Fixpoint dataflow_order (avail : gset string) (order : list step) : bool :=
  match order with
  | [] => true
  | st :: rest =>
      forallb (fun inp =>
                 forallb (fun s => bool_decide (s ∈ avail))
                         (sources_of (port_source inp))) (step_inputs st)
      && dataflow_order
           (avail ∪ list_to_set (map port_id (step_outputs st))) rest
  end.

(** The ids of the outputs of all steps. *)
Definition step_output_ids (wf : workflow) : list string :=
  concat (map (fun st => map port_id (step_outputs st)) (wf_steps wf)).

(** Every step that has its job has a promise under each of its output
    ids. *)
Definition outputs_promised (wf : workflow) (t : tables) : Prop :=
  forall st out, st ∈ wf_steps wf -> is_Some (jobs t !! step_id st) ->
                 out ∈ step_outputs st -> is_Some (promises t !! port_id out).

(** No input of a step has the empty list as its [source], unless it has
    a linkMerge. *)
Definition sources_named (wf : workflow) : Prop :=
  forall st inp, st ∈ wf_steps wf -> inp ∈ step_inputs st ->
                 port_source inp = Some (Many []) ->
                 truthy_str (port_linkMerge inp) = true.

(** A workflow output with a [source] names one parameter, a key of
    [avail] or the output of a step. *)
Definition outputs_named (wf : workflow) (avail : gset string) : Prop :=
  forall out src, out ∈ wf_outputs wf -> port_source out = Some src ->
    exists s, src = One s /\ (s ∈ avail \/ s ∈ step_output_ids wf).

(** An input whose [source] is the empty list and that has no linkMerge:
    [ResolveSource] finds no first source for it. *)
Definition unnamed_source (inp : port) : bool :=
  match port_source inp with
  | Some (Many []) => negb (truthy_str (port_linkMerge inp))
  | _ => false
  end.

(** What a tree of promises holds once the sub-jobs have returned: [rv jo]
    in the place of the promise of the sub-job made with [jo]. *)
Fixpoint fulfilled (rv : dict -> value) (t : outputs_tree) : value :=
  match t with
  | RvOf jo => rv jo
  | Nested l => VList (map (fulfilled rv) l)
  end.

(** A value with nothing in it: null, or a list of such. *)
Fixpoint hollow (v : value) : bool :=
  match v with
  | VNone => true
  | VList l => forallb hollow l
  | _ => false
  end.

(** [e] is a File or Directory object of [obj] that is reached through
    lists and through mappings that are no File or Directory
    themselves. *)
Inductive dir_entry_of : value -> dict -> Prop :=
| entry_here (d : dict) :
    is_dir_entry d = true -> dir_entry_of (VDict d) d
| entry_in_dict (d : dict) (k : string) (v : value) (e : dict) :
    is_dir_entry d = false -> (k, v) ∈ d -> dir_entry_of v e ->
    dir_entry_of (VDict d) e
| entry_in_list (l : list value) (v : value) (e : dict) :
    v ∈ l -> dir_entry_of v e -> dir_entry_of (VList l) e.

(** No mapping of the document has the key [@id]: not the document, and
    not a mapping that is the value of a key of such a mapping. *)
Fixpoint at_id_free (doc : value) : bool :=
  match doc with
  | VDict d =>
      forallb (fun kv =>
                 negb (bool_decide (kv.1 = "@id")) &&
                 match kv.2 with
                 | VDict _ => at_id_free kv.2
                 | _ => true
                 end) d
  | _ => true
  end.

(** Every value of [index] and every key of [existing] is a reference
    into the file store. *)
Definition references_only (st : files Store) : Prop :=
  (forall x ref, index st !! x = Some ref -> startswith "toilfs:" ref = true) /\
  (forall ref x, existing st !! ref = Some x ->
                 startswith "toilfs:" ref = true).

(** A location that needs no upload: a reference into the file store, or
    a file literal. *)
Definition uploaded (location : string) : bool :=
  startswith "toilfs:" location || startswith "_:" location.

(** What [t'] holds beyond [t] comes from the steps of the workflow: an
    entry of [jobs] is the one [t] had under that key or is under the id
    of a step, and a new promise is the follow-on of a step under the id
    of one of its outputs. *)
Definition built_from (wf : workflow) (t t' : tables) : Prop :=
  (forall id u, jobs t' !! id = Some u ->
     jobs t !! id = Some u \/
     exists st, st ∈ wf_steps wf /\ step_id st = id) /\
  (forall s p, promises t' !! s = Some p ->
     promises t !! s = Some p \/
     exists st out, st ∈ wf_steps wf /\ out ∈ step_outputs st /\
                    port_id out = s /\ p = FollowOn (step_id st)).

(** Every follow-on that is promised belongs to a step that has its job. *)
Definition producers_scheduled (t : tables) : Prop :=
  forall s id, promises t !! s = Some (FollowOn id) -> is_Some (jobs t !! id).



(** ** Properties *)

(** *** The monad *)

(** A proof depends on the collaborators its statement names only. *)
#[local] Set Default Proof Using "Type".

(** Binds are rewritten with the lemmas below rather than unfolded. *)
#[local] Arguments mbind {_ _ _ _} _ _ : simpl never.
#[local] Arguments mret {_ _ _} _ : simpl never.

Lemma bind_ok {A B} (m : M A) (f : A -> M B) log a :
  m = (log, Ok a) -> m ≫= f = (log ++ (f a).1, (f a).2).
Proof. intros ->. reflexivity. Qed.

Lemma bind_raise {A B} (m : M A) (f : A -> M B) log e :
  m = (log, Raise e) -> m ≫= f = (log, Raise e).
Proof. intros ->. reflexivity. Qed.

Lemma bind_ret_nil {A B} (a : A) (f : A -> M B) : mret a ≫= f = f a.
Proof. unfold mbind, M_bind, mret, M_ret. simpl. by destruct (f a). Qed.

Lemma bind_pure {A B} (a : A) (f : A -> M B) : ([], Ok a) ≫= f = f a.
Proof. apply bind_ret_nil. Qed.

Lemma bind_emit {A} (e : event) (f : unit -> M A) :
  emit e ≫= f = (e :: (f tt).1, (f tt).2).
Proof. reflexivity. Qed.

Lemma bind_raise_nil {A B} (e : exn) (f : A -> M B) :
  raise e ≫= f = ([], Raise e).
Proof. reflexivity. Qed.

Lemma bind_assoc {A B C} (m : M A) (f : A -> M B) (g : B -> M C) :
  (m ≫= f) ≫= g = m ≫= (fun a => f a ≫= g).
Proof.
  destruct m as [log [a| |]]; try reflexivity.
  unfold mbind, M_bind; simpl.
  destruct (f a) as [log' [b| |]]; simpl; try reflexivity.
  by rewrite app_assoc.
Qed.


(** *** link_merge *)

Lemma flatten_loop (values acc : list value) :
  foldl (fun result v =>
           match v with
           | VList l => result ++ l
           | _ => result ++ [v]
           end) acc values = acc ++ concat (map spliced values).
Proof.
  revert acc. induction values as [|v values IH]; intros acc; simpl.
  - by rewrite app_nil_r.
  - destruct v; rewrite IH, <- app_assoc; reflexivity.
Qed.

(** C3: [link_merge] under merge_nested, the default, returns the list of
    the sources' values as they are; under merge_flattened it returns one
    flat list with every array spliced in and every other value appended;
    any other linkMerge string raises a validation error.  The sources
    [[1,2], 3] flatten to [1,2,3] and nest to [[1,2], 3]. *)
Theorem link_merge_policies (input : port) (name : string)
    (values : list value) :
  (port_linkMerge input = None \/ port_linkMerge input = Some "merge_nested" ->
   link_merge input name values = ([], Ok (VList values))) /\
  (port_linkMerge input = Some "merge_flattened" ->
   link_merge input name values =
     ([], Ok (VList (concat (map spliced values))))) /\
  (forall policy, port_linkMerge input = Some policy ->
     policy <> "merge_nested" -> policy <> "merge_flattened" ->
     exists msg,
       link_merge input name values = ([], Raise (ValidationException msg))) /\
  link_merge (Port "p" None None (Some "merge_flattened") None None None) name
    [VList [VInt 1; VInt 2]; VInt 3]
  = ([], Ok (VList [VInt 1; VInt 2; VInt 3])) /\
  link_merge (Port "p" None None None None None None) name
    [VList [VInt 1; VInt 2]; VInt 3]
  = ([], Ok (VList [VList [VInt 1; VInt 2]; VInt 3])).
Proof.
  unfold link_merge. repeat split.
  - by intros [-> | ->].
  - intros ->. simpl. by rewrite flatten_loop.
  - intros policy -> Hn Hf. simpl.
    rewrite !decide_False by done. eauto.
Qed.

(** *** pick_value *)

Lemma non_null_spec (v : value) :
  non_null v = true <-> v <> VNone /\ v <> VSkipNull.
Proof. destruct v; simpl; split; try done; intros [? ?]; done. Qed.

Lemma elem_of_survivors (v : value) (l : list value) :
  v ∈ List.filter non_null l <-> v ∈ l /\ v <> VNone /\ v <> VSkipNull.
Proof.
  rewrite !list_elem_of_In, List.filter_In, non_null_spec. tauto.
Qed.

Lemma survivors_sublist (l : list value) :
  List.filter non_null l `sublist_of` l.
Proof.
  induction l as [|x l IH]; simpl; [constructor|].
  destruct (non_null x); by constructor.
Qed.

(** C2: over a merged list, [pick_value] first drops the [SkipNull] markers
    and the nulls; first_non_null returns the first survivor and raises when
    there is none; only_non_null returns the single survivor and raises when
    there is none or more than one; all_non_null returns the list of
    survivors; without a pickValue policy the merged value is returned as it
    is.  first_non_null of [null, Skipped, 5, 6] is 5, first_non_null of
    [null, Skipped] raises, only_non_null of [null, 7, 8] raises. *)
Theorem pick_value_policies (input : port) (name : string)
    (merged : list value) :
  let survivors := List.filter non_null merged in
  (forall v, v ∈ survivors <-> v ∈ merged /\ v <> VNone /\ v <> VSkipNull) /\
  survivors `sublist_of` merged /\
  (port_pickValue input = Some "first_non_null" ->
   pick_value input name (VList merged) =
     match survivors with
     | x :: _ => ([], Ok x)
     | [] => ([], Raise (WorkflowException
               (name +:+ ": first_non_null operator found no non-null values")))
     end) /\
  (port_pickValue input = Some "only_non_null" ->
   pick_value input name (VList merged) =
     match survivors with
     | [x] => ([], Ok x)
     | [] => ([], Raise (WorkflowException
               (name +:+ ": only_non_null operator found no non-null values")))
     | _ :: _ :: _ => ([], Raise (WorkflowException
               (name +:+
                ": only_non_null operator found more than one non-null values")))
     end) /\
  (port_pickValue input = Some "all_non_null" ->
   pick_value input name (VList merged) = ([], Ok (VList survivors))) /\
  (port_pickValue input = None ->
   forall v, pick_value input name v = ([], Ok v)) /\
  pick_value (Port "p" None None None (Some "first_non_null") None None) name
    (VList [VNone; VSkipNull; VInt 5; VInt 6]) = ([], Ok (VInt 5)) /\
  (exists msg,
     pick_value (Port "p" None None None (Some "first_non_null") None None)
       name (VList [VNone; VSkipNull])
     = ([], Raise (WorkflowException msg))) /\
  (exists msg,
     pick_value (Port "p" None None None (Some "only_non_null") None None)
       name (VList [VNone; VInt 7; VInt 8])
     = ([], Raise (WorkflowException msg))).
Proof.
  intros survivors. unfold pick_value.
  split; [intros v; apply elem_of_survivors|].
  split; [apply survivors_sublist|].
  split; [intros ->; simpl; fold survivors; by destruct survivors|].
  split; [intros ->; simpl; fold survivors;
          by destruct survivors as [|? [|? ?]]|].
  split; [by intros ->|].
  split; [by intros ->|].
  simpl. eauto.
Qed.

(** *** Conditional.is_false *)

Lemma is_false_evaluated (self : Conditional) (job : dict)
    (expression : string) (result : value) :
  cond_expression self = Some expression ->
  do_eval expression (short_keys job) (cond_requirements self) VNone
    = Some result ->
  is_false self job
  = match result with
    | VBool b => ([], Ok (negb b))
    | _ => ([], Raise (WorkflowException
                  ("'" +:+ expression +:+
                   "' evaluated to a non-boolean value")))
    end.
Proof.
  unfold is_false. intros -> Heval. simpl.
  rewrite bind_ret_nil. unfold eval. rewrite Heval, bind_ret_nil.
  by destruct result.
Qed.

(** *** DefaultWithSource.resolve *)

Lemma falsy_values (v : value) :
  truthy v = false <->
  v = VNone \/ v = VBool false \/ v = VInt 0 \/ v = VStr "" \/
  v = VList [] \/ v = VDict [].
Proof.
  split.
  - destruct v as [| |[]|n|s|l|d]; simpl; try done; eauto 7.
    + destruct (Z.eqb_spec n 0); [subst; eauto 7|done].
    + case_bool_decide; [subst; eauto 7|done].
    + case_bool_decide; [subst; eauto 7|done].
    + case_bool_decide; [subst; eauto 7|done].
  - intros [->|[->|[->|[->|[->| ->]]]]]; reflexivity.
Qed.

(** C10: for an input with a source and a default, [resolve] returns the
    default whenever the source resolves to a false value (null, False, 0,
    the empty string, the empty list, the empty mapping) and the source's
    value only when that value is true. *)
Theorem DefaultWithSource_resolve_falsy (dflt : value)
    (source : indirect dict) (log : list event) (result : value) :
  resolve source = (log, Ok result) ->
  resolve (IDefaultWithSource dflt (Some source))
    = (log, Ok (if truthy result then result else dflt)) /\
  (truthy result = false <->
   result = VNone \/ result = VBool false \/ result = VInt 0 \/
   result = VStr "" \/ result = VList [] \/ result = VDict []).
Proof.
  intros Hsrc. split; [|apply falsy_values].
  simpl. rewrite (bind_ok _ _ _ _ Hsrc).
  destruct (truthy result); simpl; by rewrite app_nil_r.
Qed.

(** *** filter_skip_null *)

Lemma value_ind' (P : value -> Prop) :
  P VNone -> P VSkipNull -> (forall b, P (VBool b)) -> (forall n, P (VInt n)) ->
  (forall s, P (VStr s)) ->
  (forall l, Forall P l -> P (VList l)) ->
  (forall d, Forall (fun kv => P kv.2) d -> P (VDict d)) ->
  forall v, P v.
Proof.
  intros HN HS HB HI HStr HL HD.
  fix rec 1.
  intros [| |b|n|s|l|d]; [apply HN|apply HS|apply HB|apply HI|apply HStr|..].
  - apply HL. induction l as [|x l IH]; constructor; [apply rec|apply IH].
  - apply HD. induction d as [|kv d IH]; constructor; [apply rec|apply IH].
Qed.

Lemma _filter_skip_null_spec (name : string) (v : value) (err_flag : bool) :
  _filter_skip_null name v err_flag = (skip_to_none v, err_flag || has_skip v).
Proof.
  revert err_flag. induction v as [| | | | |l IH|d IH] using value_ind';
    intros flag; simpl; rewrite ?orb_false_r, ?orb_true_r; try reflexivity.
  - enough (Hgo : forall flag,
      (fix go (l : list value) (flag : bool) : list value * bool :=
         match l with
         | [] => ([], flag)
         | x :: xs =>
             let a := _filter_skip_null name x flag in
             let b := go xs a.2 in (a.1 :: b.1, b.2)
         end) l flag = (map skip_to_none l, flag || existsb has_skip l))
      by (by rewrite Hgo).
    induction IH as [|x l Hx _ IHl]; intros f; simpl.
    + by rewrite orb_false_r.
    + rewrite Hx, IHl. simpl. by rewrite orb_assoc.
  - enough (Hgo : forall flag,
      (fix go (d : dict) (flag : bool) : dict * bool :=
         match d with
         | [] => ([], flag)
         | kv :: xs =>
             let a := _filter_skip_null name kv.2 flag in
             let b := go xs a.2 in ((kv.1, a.1) :: b.1, b.2)
         end) d flag
      = (map (fun kv => (kv.1, skip_to_none kv.2)) d,
         flag || existsb (fun kv => has_skip kv.2) d))
      by (by rewrite Hgo).
    induction IH as [|x l Hx _ IHl]; intros f; simpl.
    + by rewrite orb_false_r.
    + rewrite Hx, IHl. simpl. by rewrite orb_assoc.
Qed.

Lemma skip_to_none_clean (v : value) : has_skip (skip_to_none v) = false.
Proof.
  induction v as [| | | | |l IH|d IH] using value_ind'; simpl; try done.
  - induction IH as [|x l Hx _ IHl]; simpl; [done|]. by rewrite Hx, IHl.
  - induction IH as [|x l Hx _ IHl]; simpl; [done|]. by rewrite Hx, IHl.
Qed.

Lemma skip_to_none_id (v : value) : has_skip v = false -> skip_to_none v = v.
Proof.
  induction v as [| | | | |l IH|d IH] using value_ind'; simpl; try done.
  - intros H. f_equal. induction IH as [|x l Hx _ IHl]; simpl in *; [done|].
    apply orb_false_elim in H as [H1 H2]. by rewrite Hx, IHl.
  - intros H. f_equal. induction IH as [|[k x] l Hx _ IHl]; simpl in *; [done|].
    apply orb_false_elim in H as [H1 H2]. by rewrite Hx, IHl.
Qed.

Lemma filter_skip_null_spec (name : string) (v : value) :
  filter_skip_null name v =
    (if has_skip v then [Warning (skip_warning name)] else [],
     Ok (skip_to_none v)).
Proof.
  unfold filter_skip_null. rewrite _filter_skip_null_spec. simpl.
  by destruct (has_skip v).
Qed.

(** *** What resolution can log *)

Lemma only_warnings_bind {A B} (m : M A) (f : A -> M B) :
  only_warnings m.1 -> (forall a, only_warnings (f a).1) ->
  only_warnings (m ≫= f).1.
Proof.
  intros Hm Hf. destruct m as [log [a| |]]; simpl in *; try done.
  apply Forall_app. split; [done|apply Hf].
Qed.

Lemma only_warnings_mapM {A B} (f : A -> M B) (l : list A) :
  (forall a, only_warnings (f a).1) -> only_warnings (mapM_ f l).1.
Proof.
  intros Hf. induction l as [|x l IH]; simpl; [constructor|].
  apply only_warnings_bind; [apply Hf|]. intros y.
  apply only_warnings_bind; [apply IH|]. intros ys. constructor.
Qed.

Lemma only_warnings_getitem {V} (k : string) (d : adict V) :
  only_warnings (dict_getitem k d).1.
Proof. unfold dict_getitem. destruct (dict_get k d); constructor. Qed.

Lemma only_warnings_eval expr inputs req context :
  only_warnings (eval expr inputs req context).1.
Proof. unfold eval. destruct (do_eval _ _ _ _); constructor. Qed.

Lemma only_warnings_link_merge input name values :
  only_warnings (link_merge input name values).1.
Proof. unfold link_merge. repeat case_decide; constructor. Qed.

Lemma only_warnings_pick_value input name values :
  only_warnings (pick_value input name values).1.
Proof.
  unfold pick_value. destruct (port_pickValue input) as [p|]; [|constructor].
  destruct values; try (repeat constructor; eauto; fail).
  repeat case_decide; repeat case_match; constructor.
Qed.

Lemma only_warnings_filter name v : only_warnings (filter_skip_null name v).1.
Proof.
  rewrite filter_skip_null_spec. simpl.
  destruct (has_skip v); repeat constructor. eauto.
Qed.

Lemma only_warnings_ResolveSource self :
  only_warnings (ResolveSource_resolve self).1.
Proof.
  unfold ResolveSource_resolve.
  apply only_warnings_bind.
  - destruct (rs_promise_tuples self); [|constructor].
    apply only_warnings_bind.
    + apply only_warnings_mapM. intros. apply only_warnings_getitem.
    + intros. apply only_warnings_link_merge.
  - intros v. apply only_warnings_bind.
    + apply only_warnings_pick_value.
    + intros. apply only_warnings_filter.
Qed.

Lemma only_warnings_resolve (x : indirect dict) : only_warnings (resolve x).1.
Proof.
  revert x. fix rec 1. intros [rs|dflt [src|]|expr src req|val]; simpl.
  - apply only_warnings_ResolveSource.
  - apply only_warnings_bind; [apply rec|].
    intros r. destruct (truthy r); constructor.
  - constructor.
  - apply rec.
  - constructor.
Qed.

Lemma only_warnings_resolve_indirect (p : pdict dict) :
  only_warnings (resolve_indirect p).1.
Proof.
  destruct p as [d|d]; simpl; [constructor|].
  apply only_warnings_bind.
  - apply only_warnings_mapM. intros kv.
    apply only_warnings_bind; [apply only_warnings_resolve|]. constructor.
  - intros first. apply only_warnings_mapM. intros [kv fst].
    destruct (kv.2); try (apply only_warnings_bind;
      [apply only_warnings_getitem|constructor]).
    apply only_warnings_bind; [apply only_warnings_eval|constructor].
Qed.

Lemma only_warnings_no_execute (log : list event) (jo : dict) :
  only_warnings log -> Execute jo ∉ log.
Proof.
  intros H Hin. unfold only_warnings in H. rewrite Forall_forall in H.
  destruct (H _ Hin) as [msg Hmsg]. discriminate.
Qed.


(** *** Dicts *)

Lemma dict_get_set_eq {V} (k : string) (v : V) (d : adict V) :
  dict_get k (dict_set k v d) = Some v.
Proof.
  induction d as [|[k' v'] d IH]; simpl.
  - by rewrite decide_True.
  - destruct (decide (k = k')); simpl.
    + by rewrite decide_True.
    + by rewrite decide_False.
Qed.

Lemma dict_get_set_ne {V} (k k' : string) (v : V) (d : adict V) :
  k <> k' -> dict_get k (dict_set k' v d) = dict_get k d.
Proof.
  intros Hne. induction d as [|[k0 v0] d IH]; simpl.
  - by rewrite decide_False.
  - destruct (decide (k' = k0)) as [->|]; simpl.
    + by rewrite !decide_False.
    + destruct (decide (k = k0)); done.
Qed.

Lemma dict_get_set {V} (k k' : string) (v : V) (d : adict V) :
  dict_get k (dict_set k' v d) = if decide (k = k') then Some v else dict_get k d.
Proof.
  case_decide; [subst; apply dict_get_set_eq|by apply dict_get_set_ne].
Qed.

Lemma dict_get_Some_elem {V} (k : string) (v : V) (d : adict V) :
  dict_get k d = Some v -> (k, v) ∈ d.
Proof.
  induction d as [|[k' v'] d IH]; simpl; [done|].
  case_decide; [intros [= ->]; subst; left|intros; right; auto].
Qed.

Lemma dict_get_None_keys {V} (k : string) (d : adict V) :
  dict_get k d = None <-> k ∉ dict_keys d.
Proof.
  unfold dict_keys. induction d as [|[k' v'] d IH]; simpl.
  - split; [intros _; apply not_elem_of_nil|done].
  - rewrite not_elem_of_cons. case_decide; [subst|]; split; try done.
    + intros [? _]. done.
    + intros. split; [done|by apply IH].
    + intros [_ ?]. by apply IH.
Qed.

(** *** The short names of the inputs *)

(** What the dict comprehension over [shortname(k)] holds under a key: the
    value of the last item whose key has that short name. *)
Lemma short_keys_fold_get (k : string) (d acc : dict) :
  dict_get k (foldl (fun acc kv => dict_set (shortname kv.1) kv.2 acc) acc d)
  = match last (filter (fun kv => shortname kv.1 = k) d) with
    | Some kv => Some kv.2
    | None => dict_get k acc
    end.
Proof.
  revert acc. induction d as [|[k1 v1] d IH]; intros acc; [done|].
  change (foldl ?f acc ((k1, v1) :: d)) with
    (foldl f (dict_set (shortname k1) v1 acc) d).
  rewrite IH, filter_cons. simpl fst.
  destruct (decide (shortname k1 = k)) as [<-|Hne].
  - destruct (filter _ d) as [|y l] eqn:Hf.
    + simpl. apply dict_get_set_eq.
    + rewrite last_cons_cons.
      destruct (last (y :: l)) as [kv|] eqn:Hl; [done|].
      by apply last_None in Hl.
  - destruct (last _); [done|]. by rewrite dict_get_set_ne.
Qed.

Lemma dict_set_fresh {V} (k : string) (v : V) (d : adict V) :
  k ∉ dict_keys d -> dict_set k v d = d ++ [(k, v)].
Proof.
  unfold dict_keys. induction d as [|[k1 v1] d IH]; [done|].
  rewrite fmap_cons. intros [Hne Hd]%not_elem_of_cons. simpl.
  rewrite decide_False by done. by rewrite IH.
Qed.

Lemma short_keys_fold_distinct (d acc : dict) :
  NoDup (map shortname (dict_keys d)) ->
  (forall k, k ∈ dict_keys d -> shortname k ∉ dict_keys acc) ->
  foldl (fun acc kv => dict_set (shortname kv.1) kv.2 acc) acc d
  = acc ++ map (fun kv => (shortname kv.1, kv.2)) d.
Proof.
  unfold dict_keys. revert acc.
  induction d as [|[k1 v1] d IH]; intros acc Hnodup Hfresh.
  { simpl. by rewrite app_nil_r. }
  rewrite fmap_cons in Hnodup, Hfresh. simpl in Hnodup.
  apply NoDup_cons in Hnodup as [Hk1 Hnodup].
  change (foldl ?f acc ((k1, v1) :: d)) with
    (foldl f (dict_set (shortname k1) v1 acc) d).
  rewrite dict_set_fresh by (apply Hfresh; by left).
  rewrite IH; [by rewrite <- app_assoc|done|].
  intros k Hk. unfold dict_keys. rewrite fmap_app.
  intros [Hin|Hin]%elem_of_app.
  - apply (Hfresh k); [by right|done].
  - apply list_elem_of_singleton in Hin. simpl in Hin.
    apply Hk1. rewrite <- Hin. by apply (list_elem_of_fmap_2 shortname).
Qed.

(** *** The gate *)

(** C5: without an expression the gate never skips: [is_false] is [False]
    for every job object.  With one, it is evaluated over the resolved
    inputs under their short names; a boolean decides (true runs, false
    skips) and any other result raises.  The inputs the expression sees
    are the items of the job object with [shortname] applied to every
    key: under a name it finds the value of the last item with that short
    name, and when the short names are distinct it sees the items in
    their order, each under its short name. *)
Theorem is_false_gate (self : Conditional) (job : dict) :
  (cond_expression self = None -> is_false self job = ([], Ok false)) /\
  (forall expression result,
     cond_expression self = Some expression ->
     do_eval expression (short_keys job) (cond_requirements self) VNone
       = Some result ->
     match result with
     | VBool b => is_false self job = ([], Ok (negb b))
     | _ => is_false self job =
              ([], Raise (WorkflowException
                     ("'" +:+ expression +:+
                      "' evaluated to a non-boolean value")))
     end) /\
  (forall k,
     dict_get k (short_keys job)
     = snd <$> last (filter (fun kv => shortname kv.1 = k) job)) /\
  (NoDup (map shortname (dict_keys job)) ->
   short_keys job = map (fun kv => (shortname kv.1, kv.2)) job).
Proof.
  split; [|split; [|split]].
  - unfold is_false. by intros ->.
  - intros expression result Hexpr Heval.
    rewrite (is_false_evaluated _ _ _ _ Hexpr Heval). by destruct result.
  - intros k. unfold short_keys. rewrite short_keys_fold_get.
    by destruct (last _).
  - intros Hnodup. unfold short_keys.
    rewrite short_keys_fold_distinct; [done|done|].
    intros k _ H. by apply elem_of_nil in H.
Qed.

(** *** Conditional.skipped_outputs *)

Lemma skip_fill_get (k : string) (ks : list string) (acc : dict) :
  dict_get k (foldl (fun outobj k => dict_set k VSkipNull outobj) acc ks)
  = if decide (k ∈ ks) then Some VSkipNull else dict_get k acc.
Proof.
  revert acc. induction ks as [|k0 ks IH]; intros acc.
  - case_decide as H; [by apply elem_of_nil in H|done].
  - simpl. rewrite IH. destruct (decide (k ∈ ks)) as [Hin|Hnin].
    + rewrite decide_True; [done|by right].
    + rewrite dict_get_set. destruct (decide (k = k0)) as [->|Hne].
      * rewrite decide_True; [done|by left].
      * rewrite decide_False; [done|]. by intros [?|?]%elem_of_cons.
Qed.

Lemma skipped_outputs_get (self : Conditional) (k : string) :
  dict_get k (skipped_outputs self)
  = if decide (k ∈ map sn (cond_outputs self)) then Some VSkipNull else None.
Proof. unfold skipped_outputs. by rewrite skip_fill_get. Qed.



(** *** Inversion of binds *)

Lemma bind_Ok_inv {A B} (m : M A) (f : A -> M B) log b :
  m ≫= f = (log, Ok b) ->
  exists l1 a l2, m = (l1, Ok a) /\ f a = (l2, Ok b) /\ log = l1 ++ l2.
Proof.
  destruct m as [l1 [a| |]]; try discriminate.
  unfold mbind, M_bind. simpl. destruct (f a) as [l2 o] eqn:E. simpl.
  intros [= <- ->]. eauto 6.
Qed.

Lemma ret_Ok_inv {A} (a b : A) log :
  (mret a : M A) = (log, Ok b) -> log = [] /\ a = b.
Proof. by intros [= <- <-]. Qed.


(** *** The unrolling loop *)

Lemma promises_getitem_log {P} (promises : gmap string P) s :
  (promises_getitem promises s).1 = [].
Proof. unfold promises_getitem. by destruct (promises !! s). Qed.

Lemma bind_log_nil {A B} (m : M A) (f : A -> M B) :
  m.1 = [] -> (forall a, (f a).1 = []) -> (m ≫= f).1 = [].
Proof.
  intros Hm Hf. destruct m as [l [a| |]]; simpl in *; subst; try done.
  apply Hf.
Qed.

Lemma mapM_log_nil {A B} (f : A -> M B) (l : list A) :
  (forall a, (f a).1 = []) -> (mapM_ f l).1 = [].
Proof.
  intros Hf. induction l as [|x l IH]; simpl; [done|].
  apply bind_log_nil; [apply Hf|]. intros y.
  apply bind_log_nil; [apply IH|done].
Qed.

Lemma foldM_log_nil {A B} (f : B -> A -> M B) (acc : B) (l : list A) :
  (forall b a, (f b a).1 = []) -> (foldM f acc l).1 = [].
Proof.
  intros Hf. revert acc. induction l as [|x l IH]; intros acc; simpl; [done|].
  apply bind_log_nil; [apply Hf|]. intros y. apply IH.
Qed.

Lemma ResolveSource_init_log {P} name input key (promises : gmap string P) :
  (ResolveSource_init name input key promises).1 = [].
Proof.
  unfold ResolveSource_init. apply bind_log_nil.
  - unfold port_getitem. by repeat case_match.
  - intros src. case_match.
    + apply bind_log_nil; [|done]. apply mapM_log_nil. intros s.
      apply bind_log_nil; [apply promises_getitem_log|done].
    + destruct (aslist src); [done|].
      apply bind_log_nil; [apply promises_getitem_log|done].
Qed.

Lemma build_jobobj_log wf st promises : (build_jobobj wf st promises).1 = [].
Proof.
  unfold build_jobobj. apply foldM_log_nil. intros jobobj inp.
  apply bind_log_nil; [|done].
  destruct (port_source inp); [|done].
  apply bind_log_nil; [apply ResolveSource_init_log|done].
Qed.

Lemma schedule_log wf t st : (schedule wf t st).1 = [].
Proof.
  unfold schedule. apply bind_log_nil; [apply build_jobobj_log|done].
Qed.

Lemma visit_step_log wf acc st : (visit_step wf acc st).1 = [].
Proof.
  unfold visit_step. apply bind_log_nil; [|done].
  repeat case_match; try done. apply schedule_log.
Qed.

Lemma check_outputs_log wf t ok : (check_outputs wf t ok).1 = [].
Proof.
  unfold check_outputs. apply foldM_log_nil. intros b out.
  by repeat case_match.
Qed.

Lemma pass_log wf t : (pass wf t).1 = [].
Proof.
  unfold pass. apply bind_log_nil.
  - apply foldM_log_nil. intros. apply visit_step_log.
  - intros r. apply bind_log_nil; [apply check_outputs_log|done].
Qed.

Lemma grown_refl t : grown t t.
Proof. split; auto. Qed.

Lemma grown_trans t1 t2 t3 : grown t1 t2 -> grown t2 t3 -> grown t1 t3.
Proof.
  intros [M1 [->|(id & Hn & Hs)]] [M2 C2]; [done|].
  split; [auto|]. right. exists id. auto.
Qed.

Lemma schedule_grown wf t st log t' :
  jobs t !! step_id st = None ->
  schedule wf t st = (log, Ok t') -> grown t t'.
Proof.
  intros Hnew Hs. unfold schedule in Hs.
  apply bind_Ok_inv in Hs as (l1 & jobobj & l2 & _ & Hret & _).
  apply ret_Ok_inv in Hret as [_ <-]. split; simpl.
  - intros id Hid. destruct (decide (id = step_id st)) as [->|Hne].
    + rewrite lookup_insert_eq. eauto.
    + by rewrite lookup_insert_ne.
  - right. exists (step_id st). split; [done|].
    rewrite lookup_insert_eq. eauto.
Qed.

Lemma visit_step_grown wf acc st log r :
  visit_step wf acc st = (log, Ok r) -> grown acc.1 r.1.
Proof.
  unfold visit_step. intros H.
  apply bind_Ok_inv in H as (l1 & t & l2 & Ht & Hret & _).
  apply ret_Ok_inv in Hret as [_ <-]. simpl.
  destruct (jobs acc.1 !! step_id st) eqn:Hjob.
  - apply ret_Ok_inv in Ht as [_ <-]. apply grown_refl.
  - destruct (stepinputs_fufilled _ _).
    + by eapply schedule_grown.
    + apply ret_Ok_inv in Ht as [_ <-]. apply grown_refl.
Qed.

Lemma visit_steps_grown wf steps acc log r :
  foldM (visit_step wf) acc steps = (log, Ok r) -> grown acc.1 r.1.
Proof.
  revert acc log. induction steps as [|st steps IH]; intros acc log; simpl.
  - intros [_ <-]%ret_Ok_inv. apply grown_refl.
  - intros (l1 & acc' & l2 & Hv & Hrest & _)%bind_Ok_inv.
    eapply grown_trans; [by eapply visit_step_grown|by eapply IH].
Qed.

Lemma pass_grown wf t log t' ok :
  pass wf t = (log, Ok (t', ok)) -> grown t t'.
Proof.
  unfold pass.
  intros (l1 & r & l2 & Hv & Hrest & _)%bind_Ok_inv.
  apply bind_Ok_inv in Hrest as (l3 & ok' & l4 & _ & Hret & _).
  apply ret_Ok_inv in Hret as [_ [= <- <-]].
  by apply visit_steps_grown in Hv.
Qed.

(** A pass that schedules no step leaves both tables as they were. *)
Lemma pass_no_new_job wf t log t' ok :
  pass wf t = (log, Ok (t', ok)) -> jobs t' = jobs t -> t' = t.
Proof.
  intros Hp Hjobs. apply pass_grown in Hp as [_ [->|(id & Hn & Hs)]]; [done|].
  rewrite Hjobs, Hn in Hs. by destruct Hs.
Qed.

Lemma unroll_fixpoint wf t :
  pass wf t = ([], Ok (t, false)) ->
  forall fuel, unroll fuel wf t = ([], OutOfFuel).
Proof.
  intros Hp fuel. induction fuel as [|fuel IH]; simpl; [done|].
  rewrite (bind_ok _ _ _ _ Hp). simpl. by rewrite IH.
Qed.

(** *** ResolveSource.resolve *)

Lemma promises_getitem_Some {P} (promises : gmap string P) s p :
  promises !! s = Some p -> promises_getitem promises s = ([], Ok p).
Proof. unfold promises_getitem. by intros ->. Qed.

Lemma dict_getitem_Some {V} (k : string) (d : adict V) v :
  dict_get k d = Some v -> dict_getitem k d = ([], Ok v).
Proof. unfold dict_getitem. by intros ->. Qed.

Lemma promise_tuples_built {P} (promises : gmap string P)
    (names : list string) (ps : list P) :
  Forall2 (fun s p => promises !! s = Some p) names ps ->
  mapM_ (fun s => p ← promises_getitem promises s; mret (shortname s, p))
        names
  = ([], Ok (zip (map shortname names) ps)).
Proof.
  induction 1 as [|s p names ps Hs _ IH]; simpl; [done|].
  by rewrite (promises_getitem_Some _ _ _ Hs), bind_pure, bind_ret_nil, IH,
    bind_pure.
Qed.

Lemma promised_values_read (tuples : list (string * dict))
    (vs : list value) :
  Forall2 (fun t v => dict_get t.1 t.2 = Some v) tuples vs ->
  mapM_ (fun v => dict_getitem v.1 v.2) tuples = ([], Ok vs).
Proof.
  induction 1 as [|t v tuples vs Ht _ IH]; simpl; [done|].
  by rewrite (dict_getitem_Some _ _ _ Ht), bind_pure, IH, bind_pure.
Qed.

(** C4 (as the code has it): for a port with exactly one source and no
    linkMerge, [resolve] takes the value of that source itself, not a
    one-element list of it, as the merged value, applies [pick_value] and
    [filter_skip_null] to it, and so returns it unchanged when the port has
    no pickValue and the value holds no [SkipNull]; with a linkMerge or more
    than one source the values are collected in a list and passed through
    [link_merge] before these two stages. *)
Theorem resolve_single_source_unwrapped (name : string) (input : port)
    (key : source_key) (promises : gmap string dict) (src : str_or_list) :
  port_get input key = Some src ->
  (forall s d,
     aslist src = [s] -> truthy_str (port_linkMerge input) = false ->
     promises !! s = Some d ->
     let v := default VNone (dict_get (shortname s) d) in
     ResolveSource_init name input key promises ≫= ResolveSource_resolve
       = pick_value input name v ≫= filter_skip_null name /\
     (port_pickValue input = None -> has_skip v = false ->
      ResolveSource_init name input key promises ≫= ResolveSource_resolve
        = ([], Ok v))) /\
  (forall vs,
     truthy_str (port_linkMerge input) = true \/ 1 < length (aslist src) ->
     Forall2 (fun s v => exists d, promises !! s = Some d /\
                                   dict_get (shortname s) d = Some v)
             (aslist src) vs ->
     ResolveSource_init name input key promises ≫= ResolveSource_resolve
       = link_merge input name vs ≫= fun merged =>
           pick_value input name merged ≫= filter_skip_null name).
Proof.
  intros Hsrc. split.
  - intros s d Hone Hlm Hs v.
    assert (Hinit : ResolveSource_init name input key promises
      = ([], Ok (MkResolveSource name input key
                   (OneTuple (shortname s, d))))).
    { unfold ResolveSource_init, port_getitem.
      rewrite Hsrc, bind_ret_nil, Hone, Hlm. simpl.
      by rewrite (promises_getitem_Some _ _ _ Hs), bind_pure. }
    assert (Hrun : ResolveSource_init name input key promises
                     ≫= ResolveSource_resolve
                   = pick_value input name v ≫= filter_skip_null name).
    { rewrite Hinit, bind_pure. unfold ResolveSource_resolve. simpl.
      by rewrite bind_ret_nil. }
    split; [done|]. intros Hpick Hskip. rewrite Hrun.
    unfold pick_value. rewrite Hpick, bind_ret_nil, filter_skip_null_spec.
    by rewrite Hskip, skip_to_none_id.
  - intros vs Hmany Hvs.
    assert (exists ds, Forall2 (fun s d => promises !! s = Some d)
                         (aslist src) ds /\
              Forall2 (fun t v => dict_get t.1 t.2 = Some v)
                      (zip (map shortname (aslist src)) ds) vs)
      as (ds & Hds & Hread).
    { clear Hmany. induction Hvs as [|s v ss vs (d & Hd & Hv) _ (ds & H1 & H2)].
      - exists []. split; constructor.
      - exists (d :: ds). split; constructor; done. }
    assert (Hinit : ResolveSource_init name input key promises
      = ([], Ok (MkResolveSource name input key
                   (TupleList (zip (map shortname (aslist src)) ds))))).
    { unfold ResolveSource_init, port_getitem.
      rewrite Hsrc, bind_ret_nil.
      assert (truthy_str (port_linkMerge input)
              || (1 <? length (aslist src)) = true) as ->.
      { destruct Hmany as [->|Hlen]; [done|].
        apply orb_true_iff. right. by apply Nat.ltb_lt. }
      by rewrite (promise_tuples_built _ _ _ Hds), bind_pure. }
    rewrite Hinit, bind_pure. unfold ResolveSource_resolve. simpl.
    rewrite (promised_values_read _ _ Hread), bind_pure.
    reflexivity.
Qed.

(** *** CWLScatter.run: which errors it raises *)

Lemma no_validation_bind {A B} (m : M A) (f : A -> M B) :
  no_validation_error m -> (forall a, no_validation_error (f a)) ->
  no_validation_error (m ≫= f).
Proof.
  intros Hm Hf msg. destruct m as [log [a| |]]; simpl.
  - apply Hf.
  - intros [= ->]. by apply (Hm msg).
  - done.
Qed.

Lemma no_validation_ret {A} (a : A) : no_validation_error (mret a : M A).
Proof. by intros msg. Qed.

Lemma no_validation_mapM {A B} (f : A -> M B) (l : list A) :
  (forall a, no_validation_error (f a)) -> no_validation_error (mapM_ f l).
Proof.
  intros Hf. induction l as [|x l IH]; simpl; [apply no_validation_ret|].
  apply no_validation_bind; [apply Hf|]. intros y.
  apply no_validation_bind; [apply IH|]. intros. apply no_validation_ret.
Qed.

Lemma no_validation_foldM {A B} (f : B -> A -> M B) (acc : B) (l : list A) :
  (forall b a, no_validation_error (f b a)) ->
  no_validation_error (foldM f acc l).
Proof.
  intros Hf. revert acc.
  induction l as [|x l IH]; intros acc; simpl; [apply no_validation_ret|].
  apply no_validation_bind; [apply Hf|]. intros y. apply IH.
Qed.

Lemma no_validation_getitem {V} (k : string) (d : adict V) :
  no_validation_error (dict_getitem k d).
Proof. unfold dict_getitem. by destruct (dict_get k d). Qed.

Lemma no_validation_len v : no_validation_error (py_len v).
Proof. by destruct v. Qed.

Lemma no_validation_index v i : no_validation_error (py_index v i).
Proof. destruct v; simpl; try done; by case_match. Qed.

Lemma no_validation_eval expr inputs req context :
  no_validation_error (eval expr inputs req context).
Proof. unfold eval. by destruct (do_eval _ _ _ _). Qed.

Lemma no_validation_submit self jo : no_validation_error (submit self jo).
Proof.
  unfold submit. apply no_validation_bind.
  - unfold postScatterEval. apply no_validation_mapM. intros kv.
    destruct (dict_get kv.1 _); [|apply no_validation_ret].
    apply no_validation_bind; [apply no_validation_eval|].
    intros. apply no_validation_ret.
  - intros jo'. by apply no_validation_bind.
Qed.

Lemma no_validation_flat self joborder scatter_keys :
  no_validation_error (flat_crossproduct_scatter self joborder scatter_keys).
Proof.
  revert joborder.
  induction scatter_keys as [|k rest IH]; intros joborder; simpl; [done|].
  apply no_validation_bind; [apply no_validation_getitem|]. intros arr.
  apply no_validation_bind; [apply no_validation_len|]. intros len.
  apply no_validation_foldM. intros outputs n.
  apply no_validation_bind; [apply no_validation_index|]. intros x.
  destruct rest.
  - apply no_validation_bind; [apply no_validation_submit|].
    intros. apply no_validation_ret.
  - apply no_validation_bind; [apply IH|]. intros. apply no_validation_ret.
Qed.

Lemma no_validation_nested self joborder scatter_keys :
  no_validation_error (nested_crossproduct_scatter self joborder scatter_keys).
Proof.
  revert joborder.
  induction scatter_keys as [|k rest IH]; intros joborder; simpl; [done|].
  apply no_validation_bind; [apply no_validation_getitem|]. intros arr.
  apply no_validation_bind; [apply no_validation_len|]. intros len.
  apply no_validation_foldM. intros outputs n.
  apply no_validation_bind; [apply no_validation_index|]. intros x.
  destruct rest.
  - apply no_validation_bind; [apply no_validation_submit|].
    intros. apply no_validation_ret.
  - apply no_validation_bind; [apply IH|]. intros. apply no_validation_ret.
Qed.

Lemma no_validation_dotproduct self cwljob scatter :
  no_validation_error (dotproduct_scatter self cwljob scatter).
Proof.
  unfold dotproduct_scatter.
  apply no_validation_bind; [by destruct scatter|]. intros first.
  apply no_validation_bind; [apply no_validation_getitem|]. intros arr.
  apply no_validation_bind; [apply no_validation_len|]. intros len.
  apply no_validation_foldM. intros outputs i.
  apply no_validation_bind.
  - apply no_validation_foldM. intros copyjob sc.
    apply no_validation_bind; [apply no_validation_getitem|]. intros a.
    apply no_validation_bind; [apply no_validation_index|]. intros x.
    apply no_validation_ret.
  - intros copyjob.
    apply no_validation_bind; [apply no_validation_submit|].
    intros. apply no_validation_ret.
Qed.

(** C9 (as the code has it): once the job object is resolved,
    [CWLScatter.run] raises a validation error exactly when the number of
    scattered ports is not one and the scatterMethod is missing or is not
    one of dotproduct, nested_crossproduct and flat_crossproduct.  With
    exactly one scattered port the dotproduct loop runs whatever the
    scatterMethod; otherwise the loop of the named policy runs, and none of
    the three loops raises a validation error. *)
Theorem scatter_validation_error (self : step) (job : pdict dict)
    (log : list event) (cwljob : dict) (field : str_or_list) :
  resolve_indirect job = (log, Ok cwljob) ->
  step_scatter self = Some field ->
  let scatter := aslist field in
  let run := CWLScatter_run self job in
  let after (loop : M (list outputs_tree)) := (log ++ loop.1, loop.2) in
  ((exists msg, run.2 = Raise (ValidationException msg)) <->
   length scatter <> 1 /\ unsupported_method (step_scatterMethod self)) /\
  (length scatter = 1 \/ step_scatterMethod self = Some "dotproduct" ->
   run = after (dotproduct_scatter self cwljob scatter)) /\
  (length scatter <> 1 ->
   step_scatterMethod self = Some "nested_crossproduct" ->
   run = after (nested_crossproduct_scatter self cwljob scatter)) /\
  (length scatter <> 1 ->
   step_scatterMethod self = Some "flat_crossproduct" ->
   run = after (flat_crossproduct_scatter self cwljob scatter)).
Proof.
  intros Hres Hfield scatter run after.
  assert (Hrun : run = after (
    let scatterMethod :=
      if decide (length scatter = 1) then Some "dotproduct"
      else step_scatterMethod self in
    if decide (scatterMethod = Some "dotproduct") then
      dotproduct_scatter self cwljob scatter
    else if decide (scatterMethod = Some "nested_crossproduct") then
      nested_crossproduct_scatter self cwljob scatter
    else if decide (scatterMethod = Some "flat_crossproduct") then
      flat_crossproduct_scatter self cwljob scatter
    else if truthy_str scatterMethod then
      raise (ValidationException
               ("Unsupported complex scatter type '" +:+
                default "" scatterMethod +:+ "'"))
    else
      raise (ValidationException
               "Must provide scatterMethod to scatter over multiple inputs."))).
  { unfold run, CWLScatter_run. rewrite (bind_ok _ _ _ _ Hres), Hfield.
    by rewrite bind_ret_nil. }
  rewrite Hrun. unfold after. simpl.
  destruct (decide (length scatter = 1)) as [Hone|Hmany].
  { rewrite decide_True by done.
    split; [split|split; [done|split; done]].
    - intros [msg Hmsg]. by apply no_validation_dotproduct in Hmsg.
    - intros [? _]. done. }
  destruct (decide (step_scatterMethod self = Some "dotproduct")) as [Hd|Hd].
  { split; [split|split; [done|split; intros; congruence]].
    - intros [msg Hmsg]. by apply no_validation_dotproduct in Hmsg.
    - intros [_ [? _]]. done. }
  destruct (decide (step_scatterMethod self = Some "nested_crossproduct"))
    as [Hn|Hn].
  { split; [split|split; [intros [?|?]; done|split; intros; congruence]].
    - intros [msg Hmsg]. by apply no_validation_nested in Hmsg.
    - intros [_ (_ & ? & _)]. done. }
  destruct (decide (step_scatterMethod self = Some "flat_crossproduct"))
    as [Hf|Hf].
  { split; [split|split; [intros [?|?]; done|split; intros; congruence]].
    - intros [msg Hmsg]. by apply no_validation_flat in Hmsg.
    - intros [_ (_ & _ & ?)]. done. }
  split; [split|split; [intros [?|?]; done|split; intros; congruence]].
  - done.
  - intros _. destruct (truthy_str _); simpl; eauto.
Qed.

(** *** Loops over an array *)



#[local] Arguments py_index : simpl never.
#[local] Arguments py_len : simpl never.





(** *** postScatterEval *)










(** *** The dotproduct loop *)








(** *** The cross products *)



















(** *** Steps that wait for each other *)

Lemma sources_flag (promises : gmap string producer) (l : list string)
    (ok : bool) :
  foldl (fun ok s => match promises !! s with
                     | Some _ => ok
                     | None => false
                     end) ok l = true ->
  ok = true /\ forall s, s ∈ l -> is_Some (promises !! s).
Proof.
  revert ok. induction l as [|s l IH]; intros ok; simpl.
  - intros ->. split; [done|]. intros s H. by apply elem_of_nil in H.
  - intros H. apply IH in H as [Hok Hl].
    destruct (promises !! s) eqn:Hs; [|done].
    split; [done|]. intros s' [->|Hin]%elem_of_cons; [by rewrite Hs|auto].
Qed.

Lemma inputs_flag (promises : gmap string producer) (inputs : list port)
    (ok : bool) :
  foldl (fun ok inp =>
           foldl (fun ok source => match promises !! source with
                                   | Some _ => ok
                                   | None => false
                                   end) ok (sources_of (port_source inp)))
        ok inputs = true ->
  ok = true /\
  forall inp s, inp ∈ inputs -> s ∈ sources_of (port_source inp) ->
                is_Some (promises !! s).
Proof.
  revert ok. induction inputs as [|inp inputs IH]; intros ok; simpl.
  - intros ->. split; [done|]. intros inp s H. by apply elem_of_nil in H.
  - intros H. apply IH in H as [Hok Hl].
    apply sources_flag in Hok as [Hok Hinp].
    split; [done|].
    intros inp' s [->|Hin]%elem_of_cons Hs; [auto|eauto].
Qed.

Lemma foldl_same {A B} (f g : B -> A -> B) (acc : B) (l : list A) :
  (forall b a, f b a = g b a) -> foldl f acc l = foldl g acc l.
Proof.
  intros H. revert acc. induction l as [|x l IH]; intros acc; simpl; [done|].
  by rewrite H, IH.
Qed.

Lemma stepinputs_fufilled_sources (promises : gmap string producer)
    (inputs : list port) :
  stepinputs_fufilled promises inputs = true ->
  forall inp s, inp ∈ inputs -> s ∈ sources_of (port_source inp) ->
                is_Some (promises !! s).
Proof.
  intros H. apply (inputs_flag promises inputs true).
  etransitivity; [|exact H]. unfold stepinputs_fufilled.
  apply foldl_same. intros ok inp. by destruct (port_source inp).
Qed.

Lemma registered_outputs (p : gmap string producer) (outs : list port)
    (v : producer) (s : string) :
  s ∉ map port_id outs ->
  foldl (fun p out => <[port_id out := v]> p) p outs !! s = p !! s.
Proof.
  revert p. induction outs as [|out outs IH]; intros p Hs; simpl; [done|].
  rewrite IH.
  - apply lookup_insert_ne. intros E. apply Hs. simpl. rewrite E. by left.
  - intros Hin. apply Hs. by right.
Qed.

Lemma visit_step_deadlocked wf X acc st log r :
  (forall st, st ∈ wf_steps wf -> produces X st -> waits_for X st) ->
  st ∈ wf_steps wf ->
  (forall s, s ∈ X -> promises acc.1 !! s = None) ->
  visit_step wf acc st = (log, Ok r) ->
  (forall s, s ∈ X -> promises r.1 !! s = None) /\
  (acc.2 = false \/ waits_for X st -> r.2 = false).
Proof.
  intros Hprod Hst Hinv H. unfold visit_step in H.
  apply bind_Ok_inv in H as (l1 & t & l2 & Ht & Hret & _).
  apply ret_Ok_inv in Hret as [_ <-]. simpl.
  assert (Hinv' : forall s, s ∈ X -> promises t !! s = None).
  { destruct (jobs acc.1 !! step_id st).
    { by apply ret_Ok_inv in Ht as [_ <-]. }
    destruct (stepinputs_fufilled _ _) eqn:Hready.
    2:{ by apply ret_Ok_inv in Ht as [_ <-]. }
    assert (Hnot : ~ produces X st).
    { intros (inp & s & Hinp & Hs & HX)%Hprod; [|done].
      destruct (stepinputs_fufilled_sources _ _ Hready inp s Hinp Hs)
        as [p Hp].
      rewrite (Hinv s HX) in Hp. discriminate. }
    unfold schedule in Ht.
    apply bind_Ok_inv in Ht as (l3 & jobobj & l4 & _ & Hret & _).
    apply ret_Ok_inv in Hret as [_ <-]. simpl.
    intros s HX. rewrite registered_outputs; [auto|].
    intros (out & -> & Hout)%list_elem_of_fmap.
    apply Hnot. by exists out. }
  split; [done|].
  intros Hflag.
  destruct (foldl _ acc.2 (step_inputs st)) eqn:Hfold; [|done].
  apply inputs_flag in Hfold as [Hok Hall].
  destruct Hflag as [Hacc|(inp & s & Hinp & Hs & HX)]; [congruence|].
  destruct (Hall inp s Hinp Hs) as [p Hp].
  rewrite (Hinv' s HX) in Hp. discriminate.
Qed.

Lemma visit_steps_deadlocked wf X steps acc log r :
  (forall st, st ∈ wf_steps wf -> produces X st -> waits_for X st) ->
  (forall st, st ∈ steps -> st ∈ wf_steps wf) ->
  (forall s, s ∈ X -> promises acc.1 !! s = None) ->
  foldM (visit_step wf) acc steps = (log, Ok r) ->
  (forall s, s ∈ X -> promises r.1 !! s = None) /\
  (acc.2 = false \/ (exists st, st ∈ steps /\ waits_for X st) ->
   r.2 = false).
Proof.
  intros Hprod. revert acc log.
  induction steps as [|st steps IH]; intros acc log Hsub Hinv; simpl.
  - intros [_ <-]%ret_Ok_inv. split; [done|].
    intros [?|(st & Hst & _)]; [done|]. by apply elem_of_nil in Hst.
  - intros (l1 & acc' & l2 & Hv & Hrest & _)%bind_Ok_inv.
    destruct (visit_step_deadlocked wf X acc st l1 acc' Hprod) as [Hinv' Hflag];
      [apply Hsub; by left|done|done|].
    destruct (IH acc' l2) as [Hinv'' Hflag'];
      [intros; apply Hsub; by right|done|done|].
    split; [done|].
    intros [Hacc|(st' & [->|Hin]%elem_of_cons & Hw)]; apply Hflag'.
    + left. apply Hflag. by left.
    + left. apply Hflag. by right.
    + right. eauto.
Qed.

Lemma check_outputs_false wf t log ok :
  check_outputs wf t false = (log, Ok ok) -> ok = false.
Proof.
  unfold check_outputs. generalize (wf_outputs wf). intros outs.
  revert log. induction outs as [|out outs IH]; intros log; simpl.
  - by intros [_ <-]%ret_Ok_inv.
  - intros (l1 & ok' & l2 & Hout & Hrest & _)%bind_Ok_inv.
    assert (ok' = false) as ->; [|by eapply IH].
    destruct (port_source out) as [[s|l]|].
    + apply ret_Ok_inv in Hout as [_ <-]. by destruct (promises t !! s).
    + discriminate.
    + by apply ret_Ok_inv in Hout as [_ <-].
Qed.

Lemma pass_deadlocked wf t X log t' ok :
  deadlocked wf t X -> pass wf t = (log, Ok (t', ok)) ->
  ok = false /\ deadlocked wf t' X.
Proof.
  intros (Hwait & Hprod & Hinv). unfold pass.
  intros (l1 & r & l2 & Hv & Hrest & _)%bind_Ok_inv.
  apply bind_Ok_inv in Hrest as (l3 & ok' & l4 & Hcheck & Hret & _).
  apply ret_Ok_inv in Hret as [_ [= <- <-]].
  destruct (visit_steps_deadlocked wf X (wf_steps wf) (t, true) l1 r Hprod)
    as [Hinv' Hflag]; [done|done|done|].
  rewrite Hflag in Hcheck by (by right).
  split; [by eapply check_outputs_false|]. by split.
Qed.

Lemma unroll_deadlocked wf X fuel t :
  deadlocked wf t X -> forall t', (unroll fuel wf t).2 <> Ok t'.
Proof.
  revert t. induction fuel as [|fuel IH]; intros t Hdead t'; [done|].
  change (unroll (S fuel) wf t) with
    (r ← pass wf t; if r.2 : bool then mret r.1 else unroll fuel wf r.1).
  destruct (pass wf t) as [log [[t1 ok]| |]] eqn:Hp;
    [|by unfold mbind, M_bind..].
  destruct (pass_deadlocked wf t X log t1 ok Hdead Hp) as [-> Hdead'].
  rewrite (bind_ok (_, Ok _) _ _ _ eq_refl). simpl. by apply IH.
Qed.

(** C1 (as the code has it): the loop has no deadlock detection and raises
    no deadlock error.  For a workflow with a dependency cycle (steps that
    wait for parameters only they produce) the loop never returns, however
    many passes it is given.  When a full pass over the steps schedules no
    new step and ends with [all_outputs_fulfilled] false, the tables are
    unchanged, every later pass is the same pass, and the loop neither
    returns nor raises; when such a pass ends with the flag true the loop
    exits after it. *)
Theorem unroll_has_no_deadlock_detection (wf : workflow) (t : tables) :
  (forall X, deadlocked wf t X ->
     forall fuel t', (unroll fuel wf t).2 <> Ok t') /\
  (forall t' ok,
     (pass wf t).2 = Ok (t', ok) -> jobs t' = jobs t ->
     t' = t /\
     (ok = false -> forall fuel, unroll fuel wf t = ([], OutOfFuel)) /\
     (ok = true -> forall fuel, unroll (S fuel) wf t = ([], Ok t))).
Proof.
  split; [intros X Hdead fuel; by apply (unroll_deadlocked wf X)|].
  intros t' ok Hp Hjobs.
  assert (Hpass : pass wf t = ([], Ok (t', ok))).
  { destruct (pass wf t) as [l o] eqn:E. simpl in Hp. subst o.
    pose proof (pass_log wf t) as Hl. rewrite E in Hl. simpl in Hl.
    by subst l. }
  assert (t' = t) as -> by (by eapply pass_no_new_job).
  split; [done|]. split; intros ->.
  - by apply unroll_fixpoint.
  - intros fuel. simpl. by rewrite (bind_ok _ _ _ _ Hpass).
Qed.

(** *** What a pass keeps and what the loop has done when it exits *)

Lemma keeps_refl t : keeps t t.
Proof. by split. Qed.

Lemma keeps_trans t1 t2 t3 : keeps t1 t2 -> keeps t2 t3 -> keeps t1 t3.
Proof. intros [J1 P1] [J2 P2]. split; auto. Qed.

Lemma registered_keeps (p : gmap string producer) (outs : list port)
    (v : producer) (s : string) :
  is_Some (p !! s) ->
  is_Some (foldl (fun p out => <[port_id out := v]> p) p outs !! s).
Proof.
  revert p. induction outs as [|out outs IH]; intros p Hs; simpl; [done|].
  apply IH. destruct (decide (port_id out = s)) as [->|Hne].
  - rewrite lookup_insert_eq. eauto.
  - by rewrite lookup_insert_ne.
Qed.

Lemma registered_new (p : gmap string producer) (outs : list port)
    (v : producer) (out : port) :
  out ∈ outs ->
  is_Some (foldl (fun p out => <[port_id out := v]> p) p outs
             !! port_id out).
Proof.
  revert p. induction outs as [|o outs IH]; intros p Hin; simpl.
  - by apply elem_of_nil in Hin.
  - apply elem_of_cons in Hin as [->|Hin]; [|by apply IH].
    apply registered_keeps. rewrite lookup_insert_eq. eauto.
Qed.

Lemma schedule_inv wf t st log t' :
  schedule wf t st = (log, Ok t') ->
  exists jobobj,
    build_jobobj wf st (promises t) = (log, Ok jobobj) /\
    t' = MkTables
           (foldl (fun p out => <[port_id out := FollowOn (step_id st)]> p)
                  (promises t) (step_outputs st))
           (<[step_id st :=
                MkUnit (match step_scatter st with
                        | Some _ => CWLScatter
                        | None => makeJob (step_embedded_tool st)
                        end) jobobj
                       (MkConditional (step_when st) (step_out st)
                                      (wf_requirements wf))]> (jobs t)).
Proof.
  unfold schedule.
  intros (l1 & jobobj & l2 & Hb & Hret & ->)%bind_Ok_inv.
  apply ret_Ok_inv in Hret as [-> <-]. rewrite app_nil_r. eauto.
Qed.

Lemma schedule_keeps wf t st log t' :
  jobs t !! step_id st = None ->
  schedule wf t st = (log, Ok t') -> keeps t t'.
Proof.
  intros Hnew (jobobj & _ & ->)%schedule_inv. split; simpl.
  - intros id u Hid. rewrite lookup_insert_ne; [done|]. congruence.
  - intros s Hs. by apply registered_keeps.
Qed.

(** What [visit_step] does to the tables: nothing, or it schedules the
    step. *)
Lemma visit_step_tables wf acc st log r :
  visit_step wf acc st = (log, Ok r) ->
  r.1 = acc.1 /\
    (is_Some (jobs acc.1 !! step_id st) \/
     stepinputs_fufilled (promises acc.1) (step_inputs st) = false) \/
  jobs acc.1 !! step_id st = None /\
    stepinputs_fufilled (promises acc.1) (step_inputs st) = true /\
    schedule wf acc.1 st = (log, Ok r.1).
Proof.
  unfold visit_step.
  intros (l1 & t & l2 & Ht & Hret & ->)%bind_Ok_inv.
  apply ret_Ok_inv in Hret as [-> <-]. rewrite app_nil_r. simpl.
  destruct (jobs acc.1 !! step_id st) eqn:Hjob.
  - apply ret_Ok_inv in Ht as [_ <-]. left. eauto.
  - destruct (stepinputs_fufilled _ _) eqn:Hready.
    + right. auto.
    + apply ret_Ok_inv in Ht as [_ <-]. left. auto.
Qed.

Lemma visit_step_keeps wf acc st log r :
  visit_step wf acc st = (log, Ok r) -> keeps acc.1 r.1.
Proof.
  intros [[-> _]|(Hnew & _ & Hs)]%visit_step_tables.
  - apply keeps_refl.
  - by eapply schedule_keeps.
Qed.

Lemma visit_steps_keeps wf steps acc log r :
  foldM (visit_step wf) acc steps = (log, Ok r) -> keeps acc.1 r.1.
Proof.
  revert acc log. induction steps as [|st steps IH]; intros acc log; simpl.
  - intros [_ <-]%ret_Ok_inv. apply keeps_refl.
  - intros (l1 & acc' & l2 & Hv & Hrest & _)%bind_Ok_inv.
    eapply keeps_trans; [by eapply visit_step_keeps|by eapply IH].
Qed.

Lemma pass_inv wf t log t' ok :
  pass wf t = (log, Ok (t', ok)) ->
  exists flag,
    foldM (visit_step wf) (t, true) (wf_steps wf) = ([], Ok (t', flag)) /\
    check_outputs wf t' flag = ([], Ok ok) /\ log = [].
Proof.
  intros Hp. pose proof (pass_log wf t) as Hl. rewrite Hp in Hl.
  simpl in Hl. subst log. unfold pass in Hp.
  apply bind_Ok_inv in Hp as (l1 & [t1 flag] & l2 & Hv & Hrest & Hlog).
  apply bind_Ok_inv in Hrest as (l3 & ok' & l4 & Hc & Hret & ->).
  apply ret_Ok_inv in Hret as [-> [= <- <-]].
  symmetry in Hlog. apply app_eq_nil in Hlog as [-> Hlog].
  apply app_eq_nil in Hlog as [-> _]. eauto.
Qed.

Lemma pass_keeps wf t log t' ok :
  pass wf t = (log, Ok (t', ok)) -> keeps t t'.
Proof.
  intros (flag & Hv & _)%pass_inv. by apply visit_steps_keeps in Hv.
Qed.

Lemma unroll_inv fuel wf t log t' :
  unroll (S fuel) wf t = (log, Ok t') ->
  exists t1 ok,
    pass wf t = ([], Ok (t1, ok)) /\
    (if ok then log = [] /\ t' = t1 else unroll fuel wf t1 = (log, Ok t')).
Proof.
  change (unroll (S fuel) wf t) with
    (r ← pass wf t; if r.2 : bool then mret r.1 else unroll fuel wf r.1).
  intros (l1 & [t1 ok] & l2 & Hp & Hrest & ->)%bind_Ok_inv.
  destruct (pass_inv _ _ _ _ _ Hp) as (_ & _ & _ & ->).
  exists t1, ok. split; [done|]. simpl in *. destruct ok.
  - by apply ret_Ok_inv in Hrest as [-> <-].
  - by destruct (unroll fuel wf t1).
Qed.

Lemma unroll_keeps fuel wf t log t' :
  unroll fuel wf t = (log, Ok t') -> keeps t t'.
Proof.
  revert t log. induction fuel as [|fuel IH]; intros t log; [done|].
  intros (t1 & ok & Hp & Hrest)%unroll_inv.
  apply pass_keeps in Hp. destruct ok.
  - destruct Hrest as [_ ->]. done.
  - eapply keeps_trans; [done|by eapply IH].
Qed.

(** X3: the loop schedules no step twice and withdraws no promise: a job
    that is in [jobs] before a pass, or before the loop, is there
    unchanged afterwards, and a parameter that has a promise keeps one. *)
Theorem unroll_never_reschedules (fuel : nat) (wf : workflow) (t : tables)
    (log : list event) (t' : tables) :
  unroll fuel wf t = (log, Ok t') ->
  (forall id u, jobs t !! id = Some u -> jobs t' !! id = Some u) /\
  (forall s, is_Some (promises t !! s) -> is_Some (promises t' !! s)).
Proof. apply unroll_keeps. Qed.

Lemma sources_promised (promises : gmap string producer) (l : list string)
    (ok : bool) :
  (forall s, s ∈ l -> is_Some (promises !! s)) ->
  foldl (fun ok s => match promises !! s with
                     | Some _ => ok
                     | None => false
                     end) ok l = ok.
Proof.
  revert ok. induction l as [|s l IH]; intros ok H; simpl; [done|].
  rewrite IH by (intros; apply H; by right).
  destruct (H s) as [p ->]; [by left|done].
Qed.

Lemma inputs_promised (promises : gmap string producer) (inputs : list port)
    (ok : bool) :
  (forall inp s, inp ∈ inputs -> s ∈ sources_of (port_source inp) ->
                 is_Some (promises !! s)) ->
  foldl (fun ok inp =>
           foldl (fun ok source => match promises !! source with
                                   | Some _ => ok
                                   | None => false
                                   end) ok (sources_of (port_source inp)))
        ok inputs = ok.
Proof.
  revert ok. induction inputs as [|inp inputs IH]; intros ok H; simpl; [done|].
  rewrite IH by (intros; eapply H; [by right|done]).
  apply sources_promised. intros s Hs. eapply H; [by left|done].
Qed.

Lemma stepinputs_fufilled_promised (promises : gmap string producer)
    (inputs : list port) :
  (forall inp s, inp ∈ inputs -> s ∈ sources_of (port_source inp) ->
                 is_Some (promises !! s)) ->
  stepinputs_fufilled promises inputs = true.
Proof.
  intros H. rewrite <- (inputs_promised promises inputs true H).
  unfold stepinputs_fufilled.
  apply foldl_same. intros ok inp. by destruct (port_source inp).
Qed.

Lemma visit_step_flag_eq wf acc st log r :
  visit_step wf acc st = (log, Ok r) ->
  r.2 = foldl (fun ok inp =>
                 foldl (fun ok source =>
                          match promises r.1 !! source with
                          | Some _ => ok
                          | None => false
                          end) ok (sources_of (port_source inp)))
              acc.2 (step_inputs st).
Proof.
  unfold visit_step.
  intros (l1 & t & l2 & Ht & Hret & ->)%bind_Ok_inv.
  by apply ret_Ok_inv in Hret as [-> <-].
Qed.

(** A step leaves the flag up only if it has its job and every source of
    its inputs has a promise. *)
Lemma visit_step_flag wf acc st log r :
  visit_step wf acc st = (log, Ok r) -> r.2 = true ->
  acc.2 = true /\ is_Some (jobs r.1 !! step_id st) /\
  forall inp s, inp ∈ step_inputs st -> s ∈ sources_of (port_source inp) ->
                is_Some (promises r.1 !! s).
Proof.
  intros Hv Hflag. rewrite (visit_step_flag_eq _ _ _ _ _ Hv) in Hflag.
  apply inputs_flag in Hflag as [Hacc Hall].
  split; [done|]. split; [|done].
  destruct (visit_step_tables _ _ _ _ _ Hv)
    as [[Heq [Hjob|Hnot]]|(_ & _ & Hs)].
  - by rewrite Heq.
  - rewrite Heq in Hall.
    by rewrite (stepinputs_fufilled_promised _ _ Hall) in Hnot.
  - apply schedule_inv in Hs as (jobobj & _ & ->). simpl.
    rewrite lookup_insert_eq. eauto.
Qed.

Lemma visit_steps_flag wf steps acc log r :
  foldM (visit_step wf) acc steps = (log, Ok r) -> r.2 = true ->
  acc.2 = true /\
  forall st, st ∈ steps ->
    is_Some (jobs r.1 !! step_id st) /\
    forall inp s, inp ∈ step_inputs st -> s ∈ sources_of (port_source inp) ->
                  is_Some (promises r.1 !! s).
Proof.
  revert acc log. induction steps as [|st steps IH]; intros acc log; simpl.
  - intros [_ <-]%ret_Ok_inv Hflag. split; [done|].
    intros st H. by apply elem_of_nil in H.
  - intros (l1 & acc' & l2 & Hv & Hrest & _)%bind_Ok_inv Hflag.
    destruct (IH _ _ Hrest Hflag) as [Hacc' Hall].
    destruct (visit_step_flag _ _ _ _ _ Hv Hacc') as (Hacc & Hjob & Hsrc).
    split; [done|].
    intros st' [->|Hin]%elem_of_cons; [|auto].
    apply visit_steps_keeps in Hrest as [HJ HP]. split.
    + destruct Hjob as [u Hu]. rewrite (HJ _ _ Hu). eauto.
    + intros inp s Hinp Hs. apply HP. eauto.
Qed.

Lemma check_outputs_true wf t log flag :
  check_outputs wf t flag = (log, Ok true) ->
  flag = true /\
  forall out s, out ∈ wf_outputs wf -> port_source out = Some (One s) ->
                is_Some (promises t !! s).
Proof.
  unfold check_outputs. generalize (wf_outputs wf). intros outs.
  revert log flag. induction outs as [|out outs IH]; intros log flag; simpl.
  - intros [_ ->]%ret_Ok_inv. split; [done|].
    intros out s H. by apply elem_of_nil in H.
  - intros (l1 & ok' & l2 & Hout & Hrest & _)%bind_Ok_inv.
    apply IH in Hrest as [-> Hall].
    destruct (port_source out) as [[s|l]|] eqn:Hsrc.
    + apply ret_Ok_inv in Hout as [_ Hout].
      destruct (promises t !! s) eqn:Hs; [|done].
      split; [done|].
      intros out' s' [->|Hin]%elem_of_cons Hsrc'; [|eauto].
      rewrite Hsrc in Hsrc'. injection Hsrc' as <-. by rewrite Hs.
    + discriminate.
    + apply ret_Ok_inv in Hout as [_ ->]. split; [done|].
      intros out' s' [->|Hin]%elem_of_cons Hsrc'; [congruence|eauto].
Qed.

Lemma unroll_exit fuel wf t log t' :
  unroll fuel wf t = (log, Ok t') ->
  (forall st, st ∈ wf_steps wf ->
     is_Some (jobs t' !! step_id st) /\
     forall inp s, inp ∈ step_inputs st ->
                   s ∈ sources_of (port_source inp) ->
                   is_Some (promises t' !! s)) /\
  (forall out s, out ∈ wf_outputs wf -> port_source out = Some (One s) ->
                 is_Some (promises t' !! s)).
Proof.
  revert t log. induction fuel as [|fuel IH]; intros t log; [done|].
  intros (t1 & ok & Hp & Hrest)%unroll_inv. destruct ok; [|by eapply IH].
  destruct Hrest as [_ ->].
  apply pass_inv in Hp as (flag & Hv & Hc & _).
  apply check_outputs_true in Hc as [-> Houts].
  apply visit_steps_flag in Hv as [_ Hall]; [|done]. by split.
Qed.

(** X1: when the loop exits, every step of the workflow has been turned
    into a job, every source of every step input has a promise, and so has
    every workflow output that names its source under [source]. *)
Theorem unroll_exit_all_scheduled (fuel : nat) (wf : workflow) (t : tables)
    (log : list event) (t' : tables) :
  unroll fuel wf t = (log, Ok t') ->
  (forall st, st ∈ wf_steps wf ->
     is_Some (jobs t' !! step_id st) /\
     forall inp s, inp ∈ step_inputs st ->
                   s ∈ sources_of (port_source inp) ->
                   is_Some (promises t' !! s)) /\
  (forall out s, out ∈ wf_outputs wf -> port_source out = Some (One s) ->
                 is_Some (promises t' !! s)).
Proof. apply unroll_exit. Qed.

(** *** How many passes the loop can take *)

Lemma unroll_more_fuel wf fuel k t log (o : outcome tables) :
  unroll fuel wf t = (log, o) -> o <> OutOfFuel -> fuel <= k ->
  unroll k wf t = (log, o).
Proof.
  revert k t log. induction fuel as [|fuel IH]; intros k t log.
  { intros [= <- <-]. done. }
  intros H Ho Hk. destruct k as [|k]; [lia|].
  revert H.
  change (unroll (S fuel) wf t) with
    (r ← pass wf t; if r.2 : bool then mret r.1 else unroll fuel wf r.1).
  change (unroll (S k) wf t) with
    (r ← pass wf t; if r.2 : bool then mret r.1 else unroll k wf r.1).
  destruct (pass wf t) as [l1 [[t1 ok]| |]] eqn:Hp; try done.
  rewrite !(bind_ok (_, Ok _) _ _ _ eq_refl). simpl.
  destruct ok; [done|].
  destruct (unroll fuel wf t1) as [l2 o2] eqn:Hu. simpl.
  intros [= <- <-]. by rewrite (IH k t1 l2 Hu Ho ltac:(lia)).
Qed.

Lemma filter_shrinks {A} (P Q : A -> Prop) `{!forall x, Decision (P x)}
    `{!forall x, Decision (Q x)} (l : list A) :
  (forall x, Q x -> P x) ->
  length (filter Q l) <= length (filter P l) /\
  ((exists x, x ∈ l /\ P x /\ ~ Q x) ->
   length (filter Q l) < length (filter P l)).
Proof.
  intros HQP. induction l as [|x l [IH1 IH2]].
  - split; [done|]. intros (x & Hx & _). by apply elem_of_nil in Hx.
  - rewrite !filter_cons.
    destruct (decide (Q x)) as [HQ|HQ], (decide (P x)) as [HP|HP]; simpl.
    + split; [lia|]. intros (y & [->|Hy]%elem_of_cons & HPy & HQy); [done|].
      apply ->Nat.succ_lt_mono. apply IH2. eauto.
    + destruct HP. auto.
    + split; [lia|]. intros _. lia.
    + split; [lia|]. intros (y & [->|Hy]%elem_of_cons & HPy & HQy); [done|].
      apply IH2. eauto.
Qed.

Lemma visit_steps_progress wf steps acc log r :
  (forall st, st ∈ steps -> st ∈ wf_steps wf) ->
  foldM (visit_step wf) acc steps = (log, Ok r) ->
  r.1 = acc.1 \/
  exists st, st ∈ wf_steps wf /\ jobs acc.1 !! step_id st = None /\
             is_Some (jobs r.1 !! step_id st).
Proof.
  revert acc log. induction steps as [|st steps IH]; intros acc log Hsub;
    simpl.
  - intros [_ <-]%ret_Ok_inv. by left.
  - intros (l1 & acc' & l2 & Hv & Hrest & _)%bind_Ok_inv.
    pose proof (visit_steps_keeps _ _ _ _ _ Hrest) as [HJ _].
    destruct (visit_step_tables _ _ _ _ _ Hv) as [[Heq _]|(Hnew & _ & Hs)].
    + rewrite <- Heq. apply (IH _ _ ltac:(intros; apply Hsub; by right) Hrest).
    + right. exists st. split; [apply Hsub; by left|]. split; [done|].
      apply schedule_inv in Hs as (jobobj & _ & Hs).
      erewrite HJ; [eauto|]. rewrite Hs. simpl. apply lookup_insert_eq.
Qed.

(** A pass leaves the tables as they are or schedules a step that had no
    job. *)
Lemma pass_progress wf t log t' ok :
  pass wf t = (log, Ok (t', ok)) ->
  t' = t \/ length (unscheduled wf t') < length (unscheduled wf t).
Proof.
  intros Hp. pose proof (pass_keeps _ _ _ _ _ Hp) as [HJ _].
  apply pass_inv in Hp as (flag & Hv & _).
  apply visit_steps_progress in Hv as [Heq|(st & Hst & Hnew & Hjob)];
    [by left|right|done].
  unfold unscheduled. apply filter_shrinks.
  - intros x Hx. destruct (jobs t !! step_id x) as [u|] eqn:Hu; [|done].
    simpl in *. by rewrite (HJ _ _ Hu) in Hx.
  - exists st. split; [done|]. split; [done|].
    intros Hn. simpl in *. rewrite Hn in Hjob. by destruct Hjob.
Qed.

Lemma unroll_bound wf fuel t :
  (unroll fuel wf t).2 <> OutOfFuel ->
  unroll (S (length (unscheduled wf t))) wf t = unroll fuel wf t.
Proof.
  revert t. induction fuel as [|fuel IH]; intros t; [done|].
  change (unroll (S fuel) wf t) with
    (r ← pass wf t; if r.2 : bool then mret r.1 else unroll fuel wf r.1).
  change (unroll (S (length (unscheduled wf t))) wf t) with
    (r ← pass wf t;
     if r.2 : bool then mret r.1
     else unroll (length (unscheduled wf t)) wf r.1).
  destruct (pass wf t) as [l1 [[t1 ok]| |]] eqn:Hp; try done.
  rewrite !(bind_ok (_, Ok _) _ _ _ eq_refl). simpl.
  destruct ok; [done|]. intros Hfuel.
  assert (Hrest : (unroll fuel wf t1).2 <> OutOfFuel).
  { by destruct (unroll fuel wf t1). }
  pose proof (pass_inv _ _ _ _ _ Hp) as (_ & _ & _ & ->).
  destruct (pass_progress _ _ _ _ _ Hp) as [->|Hlt].
  { by rewrite (unroll_fixpoint _ _ Hp) in Hrest. }
  specialize (IH t1 Hrest).
  destruct (unroll fuel wf t1) as [l2 o2] eqn:Hu.
  by rewrite (unroll_more_fuel _ _ (length (unscheduled wf t)) _ _ _ IH
                Hrest ltac:(lia)).
Qed.

(** X2: the loop needs no more passes than the workflow has steps, and one
    to see that it is done: if it returns or raises at all, it does so
    within that many passes, with the same result. *)
Theorem unroll_bounded (wf : workflow) (t : tables) (fuel : nat) :
  (unroll fuel wf t).2 <> OutOfFuel ->
  unroll (S (length (wf_steps wf))) wf t = unroll fuel wf t.
Proof.
  intros H. rewrite <- (unroll_bound _ _ _ H).
  destruct (unroll (S (length (unscheduled wf t))) wf t) as [l o] eqn:Hu.
  apply (unroll_more_fuel _ _ _ _ _ _ Hu).
  - rewrite <- (unroll_bound _ _ _ H) in H. by rewrite Hu in H.
  - unfold unscheduled. pose proof (length_filter
      (fun st => jobs t !! step_id st = None) (wf_steps wf)). lia.
Qed.

(** *** Workflows whose steps can run in some order *)

Lemma foldM_total {A B} (f : B -> A -> M B) (l : list A) (acc : B) :
  (forall b a, a ∈ l -> exists b', f b a = ([], Ok b')) ->
  exists r, foldM f acc l = ([], Ok r).
Proof.
  revert acc. induction l as [|x l IH]; intros acc Hf; simpl; [by eexists|].
  destruct (Hf acc x) as [b' Hb]; [by left|].
  rewrite Hb, bind_pure.
  apply IH. intros; apply Hf; by right.
Qed.

Lemma mapM_total {A B} (f : A -> M B) (l : list A) :
  (forall a, a ∈ l -> exists b, f a = ([], Ok b)) ->
  exists r, mapM_ f l = ([], Ok r).
Proof.
  induction l as [|x l IH]; intros Hf; simpl; [by eexists|].
  destruct (Hf x) as [b Hb]; [by left|].
  rewrite Hb, bind_pure.
  destruct IH as [r Hr]; [intros; apply Hf; by right|].
  rewrite Hr, bind_pure. by eexists.
Qed.

(** With a promise for every source, [ResolveSource] is built; only an
    empty list of sources without linkMerge has no first element. *)
Lemma ResolveSource_init_ready {P} name input key (promises : gmap string P)
    src :
  port_get input key = Some src ->
  (forall s, s ∈ aslist src -> is_Some (promises !! s)) ->
  (src = Many [] -> truthy_str (port_linkMerge input) = true) ->
  exists rs, ResolveSource_init name input key promises = ([], Ok rs).
Proof.
  intros Hsrc Hall Hempty. unfold ResolveSource_init, port_getitem.
  rewrite Hsrc, bind_ret_nil.
  destruct (truthy_str (port_linkMerge input) || _) eqn:Hc.
  - destruct (mapM_total
                (fun s => p ← promises_getitem promises s;
                          mret (shortname s, p)) (aslist src)) as [l Hl].
    { intros s [p Hp]%Hall. unfold promises_getitem. rewrite Hp.
      rewrite bind_ret_nil. by eexists. }
    rewrite Hl, bind_pure. by eexists.
  - apply orb_false_iff in Hc as [Hlm _].
    destruct src as [s|[|s l]]; simpl in *.
    + destruct (Hall s) as [p Hp]; [by left|].
      unfold promises_getitem. rewrite Hp, bind_ret_nil. by eexists.
    + rewrite Hempty in Hlm; done.
    + destruct (Hall s) as [p Hp]; [by left|].
      unfold promises_getitem. rewrite Hp, bind_ret_nil. by eexists.
Qed.

Lemma build_jobobj_ready wf st (promises : gmap string producer) :
  (forall inp s, inp ∈ step_inputs st -> s ∈ sources_of (port_source inp) ->
                 is_Some (promises !! s)) ->
  (forall inp, inp ∈ step_inputs st -> port_source inp = Some (Many []) ->
               truthy_str (port_linkMerge inp) = true) ->
  exists jobobj, build_jobobj wf st promises = ([], Ok jobobj).
Proof.
  intros Hall Hnamed. unfold build_jobobj. apply foldM_total.
  intros jobobj inp Hinp.
  destruct (port_source inp) as [src|] eqn:Hsrc.
  - destruct (ResolveSource_init_ready
                (step_id st +:+ "/" +:+ shortname (port_id inp)) inp KSource
                promises src) as [rs Hrs]; [done| | |].
    + intros s Hs. apply (Hall inp s Hinp). by rewrite Hsrc.
    + intros ->. by apply Hnamed.
    + rewrite Hrs, bind_pure, !bind_ret_nil. by eexists.
  - rewrite !bind_ret_nil. by eexists.
Qed.

Lemma visit_step_total wf acc st :
  (forall inp, inp ∈ step_inputs st -> port_source inp = Some (Many []) ->
               truthy_str (port_linkMerge inp) = true) ->
  exists r, visit_step wf acc st = ([], Ok r).
Proof.
  intros Hnamed. unfold visit_step.
  destruct (jobs acc.1 !! step_id st); [rewrite bind_ret_nil; by eexists|].
  destruct (stepinputs_fufilled _ _) eqn:Hready;
    [|rewrite bind_ret_nil; by eexists].
  destruct (build_jobobj_ready wf st (promises acc.1)) as [jobobj Hb];
    [by apply stepinputs_fufilled_sources|done|].
  unfold schedule. rewrite Hb, bind_pure, !bind_ret_nil. by eexists.
Qed.

Lemma check_outputs_total wf t flag :
  (forall out l, out ∈ wf_outputs wf -> port_source out <> Some (Many l)) ->
  exists ok, check_outputs wf t flag = ([], Ok ok).
Proof.
  intros H. unfold check_outputs. apply foldM_total. intros ok out Hout.
  destruct (port_source out) as [[s|l]|] eqn:Hsrc; [by eexists| |by eexists].
  by destruct (H out l Hout).
Qed.

Lemma pass_total wf t :
  sources_named wf ->
  (forall out l, out ∈ wf_outputs wf -> port_source out <> Some (Many l)) ->
  exists t1 ok, pass wf t = ([], Ok (t1, ok)).
Proof.
  intros Hnamed Houts. unfold pass.
  destruct (foldM_total (visit_step wf) (wf_steps wf) (t, true)) as [r Hr].
  { intros acc st Hst. apply visit_step_total. intros inp. by apply Hnamed. }
  rewrite Hr, bind_pure.
  destruct (check_outputs_total wf r.1 r.2 Houts) as [ok Hok].
  rewrite Hok, bind_pure. by eexists _, _.
Qed.

Lemma NoDup_fmap_inj {A B} (f : A -> B) (l : list A) x y :
  NoDup (map f l) -> x ∈ l -> y ∈ l -> f x = f y -> x = y.
Proof.
  induction l as [|a l IH]; simpl.
  - intros _ H. by apply elem_of_nil in H.
  - intros [Ha Hl]%NoDup_cons [->|Hx]%elem_of_cons [->|Hy]%elem_of_cons E;
      [done| | |by apply IH].
    + destruct Ha. rewrite E. by apply (list_elem_of_fmap_2 f).
    + destruct Ha. rewrite <- E. by apply (list_elem_of_fmap_2 f).
Qed.

Lemma visit_step_outputs_promised wf acc st log r :
  NoDup (map step_id (wf_steps wf)) -> st ∈ wf_steps wf ->
  outputs_promised wf acc.1 ->
  visit_step wf acc st = (log, Ok r) -> outputs_promised wf r.1.
Proof.
  intros Hnodup Hst Hinv [[-> _]|(Hnew & _ & Hs)]%visit_step_tables; [done|].
  apply schedule_inv in Hs as (jobobj & _ & ->).
  intros st' out Hst' Hjob Hout. simpl in *.
  destruct (decide (step_id st' = step_id st)) as [E|Hne].
  - assert (st' = st) as -> by (by eapply NoDup_fmap_inj).
    by apply registered_new.
  - rewrite lookup_insert_ne in Hjob by done.
    apply registered_keeps. by eapply Hinv.
Qed.

Lemma visit_steps_outputs_promised wf steps acc log r :
  NoDup (map step_id (wf_steps wf)) ->
  (forall st, st ∈ steps -> st ∈ wf_steps wf) ->
  outputs_promised wf acc.1 ->
  foldM (visit_step wf) acc steps = (log, Ok r) -> outputs_promised wf r.1.
Proof.
  intros Hnodup. revert acc log.
  induction steps as [|st steps IH]; intros acc log Hsub Hinv; simpl.
  - by intros [_ <-]%ret_Ok_inv.
  - intros (l1 & acc' & l2 & Hv & Hrest & _)%bind_Ok_inv.
    eapply IH; [intros; apply Hsub; by right| |done].
    eapply visit_step_outputs_promised; [done|apply Hsub; by left|done..].
Qed.

Lemma dataflow_order_cons avail st rest :
  dataflow_order avail (st :: rest) = true ->
  (forall inp s, inp ∈ step_inputs st -> s ∈ sources_of (port_source inp) ->
                 s ∈ avail) /\
  dataflow_order (avail ∪ list_to_set (map port_id (step_outputs st))) rest
  = true.
Proof.
  simpl. intros [Hst Hrest]%andb_true_iff. split; [|done].
  intros inp s Hinp Hs. rewrite forallb_forall in Hst.
  specialize (Hst inp ltac:(by apply list_elem_of_In)).
  rewrite forallb_forall in Hst.
  specialize (Hst s ltac:(by apply list_elem_of_In)).
  by apply bool_decide_eq_true in Hst.
Qed.

(** The first step of the order that has no job can run: all its sources
    have a promise. *)
Lemma first_ready wf t order avail :
  outputs_promised wf t ->
  (forall st, st ∈ order -> st ∈ wf_steps wf) ->
  dataflow_order avail order = true ->
  (forall s, s ∈ avail -> is_Some (promises t !! s)) ->
  (exists st, st ∈ order /\ jobs t !! step_id st = None) ->
  exists st, st ∈ order /\ jobs t !! step_id st = None /\
    forall inp s, inp ∈ step_inputs st -> s ∈ sources_of (port_source inp) ->
                  is_Some (promises t !! s).
Proof.
  intros Hinv. revert avail.
  induction order as [|st order IH]; intros avail Hsub Hord Havail.
  { intros (st & Hst & _). by apply elem_of_nil in Hst. }
  apply dataflow_order_cons in Hord as [Hsrc Hrest].
  intros (st' & Hin & Hnone).
  destruct (jobs t !! step_id st) as [u|] eqn:Hjob.
  - destruct (IH (avail ∪ list_to_set (map port_id (step_outputs st))))
      as (st0 & Hst0 & Hnone0 & Hall).
    + intros; apply Hsub; by right.
    + done.
    + intros s [Hs|Hs]%elem_of_union; [auto|].
      apply elem_of_list_to_set, list_elem_of_fmap in Hs as (out & -> & Hout).
      apply (Hinv st out); [apply Hsub; by left|by rewrite Hjob|done].
    + apply elem_of_cons in Hin as [->|Hin]; [congruence|eauto].
    + exists st0. split; [by right|done].
  - exists st. split; [by left|]. split; [done|]. eauto.
Qed.

(** With a job for every step of the order, every source has a promise. *)
Lemma all_ready wf t order avail :
  outputs_promised wf t ->
  (forall st, st ∈ order -> st ∈ wf_steps wf) ->
  dataflow_order avail order = true ->
  (forall s, s ∈ avail -> is_Some (promises t !! s)) ->
  (forall st, st ∈ order -> is_Some (jobs t !! step_id st)) ->
  forall st inp s, st ∈ order -> inp ∈ step_inputs st ->
                   s ∈ sources_of (port_source inp) ->
                   is_Some (promises t !! s).
Proof.
  intros Hinv. revert avail.
  induction order as [|st order IH]; intros avail Hsub Hord Havail Hjobs.
  { intros st inp s Hst. by apply elem_of_nil in Hst. }
  apply dataflow_order_cons in Hord as [Hsrc Hrest].
  intros st' inp s [->|Hin]%elem_of_cons Hinp Hs; [eauto|].
  apply (IH (avail ∪ list_to_set (map port_id (step_outputs st)))) with
    st' inp; try done.
  - intros; apply Hsub; by right.
  - intros s' [Hs'|Hs']%elem_of_union; [auto|].
    apply elem_of_list_to_set, list_elem_of_fmap in Hs' as (out & -> & Hout).
    apply (Hinv st out); [apply Hsub; by left|apply Hjobs; by left|done].
  - intros; apply Hjobs; by right.
Qed.

Lemma visit_steps_schedules wf steps acc log r st0 :
  foldM (visit_step wf) acc steps = (log, Ok r) -> st0 ∈ steps ->
  (forall inp s, inp ∈ step_inputs st0 ->
                 s ∈ sources_of (port_source inp) ->
                 is_Some (promises acc.1 !! s)) ->
  is_Some (jobs r.1 !! step_id st0).
Proof.
  revert acc log. induction steps as [|st steps IH]; intros acc log; simpl.
  { intros _ H. by apply elem_of_nil in H. }
  intros (l1 & acc' & l2 & Hv & Hrest & _)%bind_Ok_inv Hin Hall.
  apply elem_of_cons in Hin as [->|Hin].
  - pose proof (visit_steps_keeps _ _ _ _ _ Hrest) as [HJ _].
    assert (is_Some (jobs acc'.1 !! step_id st)) as [u Hu].
    { destruct (visit_step_tables _ _ _ _ _ Hv)
        as [[Heq [Hjob|Hnot]]|(_ & _ & Hs)].
      - by rewrite Heq.
      - by rewrite (stepinputs_fufilled_promised _ _ Hall) in Hnot.
      - apply schedule_inv in Hs as (jobobj & _ & ->). simpl.
        rewrite lookup_insert_eq. eauto. }
    rewrite (HJ _ _ Hu). eauto.
  - apply (IH _ _ Hrest Hin). intros inp s Hinp Hs.
    apply visit_step_keeps in Hv as [_ HP]. apply HP. eauto.
Qed.

Lemma visit_steps_done wf steps acc :
  (forall st, st ∈ steps ->
     is_Some (jobs acc.1 !! step_id st) /\
     forall inp s, inp ∈ step_inputs st ->
                   s ∈ sources_of (port_source inp) ->
                   is_Some (promises acc.1 !! s)) ->
  foldM (visit_step wf) acc steps = ([], Ok acc).
Proof.
  induction steps as [|st steps IH]; intros Hall; simpl; [done|].
  destruct (Hall st) as [[u Hu] Hsrc]; [by left|].
  assert (visit_step wf acc st = ([], Ok acc)) as ->.
  { unfold visit_step. rewrite Hu, bind_ret_nil.
    rewrite (inputs_promised _ _ _ Hsrc). by destruct acc. }
  rewrite bind_pure. apply IH. intros; apply Hall; by right.
Qed.

Lemma check_outputs_done wf t flag :
  (forall out src, out ∈ wf_outputs wf -> port_source out = Some src ->
     exists s, src = One s /\ is_Some (promises t !! s)) ->
  check_outputs wf t flag = ([], Ok flag).
Proof.
  unfold check_outputs. generalize (wf_outputs wf). intros outs.
  induction outs as [|out outs IH]; intros H; simpl; [done|].
  assert (match port_source out with
          | Some (One s) =>
              mret (match promises t !! s with
                    | Some _ => flag
                    | None => false
                    end)
          | Some (Many _) => raise TypeError
          | None => mret flag
          end = ([], Ok flag)) as ->.
  { destruct (port_source out) as [src|] eqn:Hsrc; [|done].
    destruct (H out src) as (s & -> & [p Hp]); [by left|done|].
    by rewrite Hp. }
  rewrite bind_pure. apply IH. intros; eapply H; [by right|done].
Qed.

Lemma elem_of_step_output_ids wf s :
  s ∈ step_output_ids wf ->
  exists st out, st ∈ wf_steps wf /\ out ∈ step_outputs st /\ port_id out = s.
Proof.
  unfold step_output_ids. rewrite list_elem_of_In, in_concat.
  intros (ids & Hids & Hs).
  apply list_elem_of_In in Hids. apply list_elem_of_In in Hs.
  apply list_elem_of_fmap in Hids as (st & -> & Hst).
  apply list_elem_of_fmap in Hs as (out & -> & Hout). eauto.
Qed.

(** Once every step has its job, a pass changes nothing and ends with the
    flag up. *)
Lemma pass_done wf order avail t :
  order ≡ₚ wf_steps wf ->
  dataflow_order avail order = true ->
  outputs_named wf avail ->
  (forall s, s ∈ avail -> is_Some (promises t !! s)) ->
  outputs_promised wf t ->
  (forall st, st ∈ wf_steps wf -> is_Some (jobs t !! step_id st)) ->
  pass wf t = ([], Ok (t, true)).
Proof.
  intros Hperm Hord Houts Havail Hinv Hall. unfold pass.
  rewrite (visit_steps_done wf (wf_steps wf) (t, true)), bind_pure.
  - simpl. rewrite check_outputs_done; [done|].
    intros out src Hout Hsrc.
    destruct (Houts _ _ Hout Hsrc) as (s & -> & [Hs|Hs]);
      exists s; (split; [done|]); [by apply Havail|].
    apply elem_of_step_output_ids in Hs as (st & o & Hst & Ho & <-).
    apply (Hinv st o); auto.
  - intros st Hst. split; [by apply Hall|].
    intros inp s Hinp Hs.
    apply (all_ready wf t order avail) with st inp; try done.
    + intros st'. by rewrite Hperm.
    + intros st' Hst'. apply Hall. by rewrite <- Hperm.
    + by rewrite Hperm.
Qed.

(** While a step has no job, a pass schedules at least one. *)
Lemma pass_schedules wf order avail t t1 ok :
  order ≡ₚ wf_steps wf ->
  dataflow_order avail order = true ->
  (forall s, s ∈ avail -> is_Some (promises t !! s)) ->
  outputs_promised wf t ->
  unscheduled wf t <> [] ->
  pass wf t = ([], Ok (t1, ok)) ->
  length (unscheduled wf t1) < length (unscheduled wf t).
Proof.
  intros Hperm Hord Havail Hinv Hun Hp.
  assert (Hsub : forall st, st ∈ order -> st ∈ wf_steps wf).
  { intros st. by rewrite Hperm. }
  destruct (first_ready wf t order avail Hinv Hsub Hord Havail)
    as (st0 & Hst0 & Hnone0 & Hready).
  { destruct (unscheduled wf t) as [|st l] eqn:E; [done|].
    assert (st ∈ unscheduled wf t) as [Hn Hst]%list_elem_of_filter
      by (rewrite E; by left).
    exists st. by rewrite Hperm. }
  pose proof (pass_keeps _ _ _ _ _ Hp) as [HJ HP].
  pose proof (pass_inv _ _ _ _ _ Hp) as (flag & Hv & _).
  apply filter_shrinks.
  - intros x Hx. destruct (jobs t !! step_id x) as [u|] eqn:Hu; [|done].
    simpl in *. by rewrite (HJ _ _ Hu) in Hx.
  - exists st0. split; [by apply Hsub|]. split; [done|].
    intros Hn. simpl in *.
    destruct (visit_steps_schedules _ _ _ _ _ st0 Hv) as [u Hu];
      [by apply Hsub|done|simpl in Hu; congruence].
Qed.

Lemma unroll_live wf order avail n t :
  NoDup (map step_id (wf_steps wf)) ->
  order ≡ₚ wf_steps wf ->
  dataflow_order avail order = true ->
  sources_named wf -> outputs_named wf avail ->
  (forall s, s ∈ avail -> is_Some (promises t !! s)) ->
  outputs_promised wf t ->
  length (unscheduled wf t) <= n ->
  exists t', unroll (S n) wf t = ([], Ok t').
Proof.
  intros Hnodup Hperm Hord Hnamed Houts. revert t.
  induction n as [|n IH]; intros t Havail Hinv Hlen.
  all: change (unroll (S ?k) wf t) with
         (r ← pass wf t; if r.2 : bool then mret r.1 else unroll k wf r.1).
  all: destruct (pass_total wf t Hnamed) as (t1 & ok & Hp);
    [intros out l Hout Hsrc;
     by destruct (Houts _ _ Hout Hsrc) as (s & [=] & _)|].
  all: rewrite Hp, bind_pure; simpl.
  all: destruct ok; [by eexists|].
  all: assert (Hun : unscheduled wf t <> []).
  1,3: intros Hun;
    assert (Hdone : pass wf t = ([], Ok (t, true)));
    [|congruence];
    apply (pass_done wf order avail); try done;
    intros st Hst; destruct (jobs t !! step_id st) eqn:Hj; [eauto|];
    assert (st ∈ unscheduled wf t) as Hin
      by (by apply list_elem_of_filter);
    rewrite Hun in Hin; by apply elem_of_nil in Hin.
  all: pose proof (pass_schedules wf order avail t t1 false Hperm Hord
                     Havail Hinv Hun Hp) as Hlt.
  - lia.
  - pose proof (pass_keeps _ _ _ _ _ Hp) as [HJ HP].
    pose proof (pass_inv _ _ _ _ _ Hp) as (flag & Hv & _).
    apply IH; [intros; apply HP; auto| |lia].
    apply (visit_steps_outputs_promised wf (wf_steps wf) (t, true) []
             (t1, flag)); done.
Qed.

(** X4: a workflow whose steps can be put in an order in which each step
    reads only what is there at the start or what a step before it puts
    out is unrolled completely: with distinct step ids and no input whose
    [source] is an empty list, the loop exits within a pass per step and
    one more, raises nothing, and every step has its job. *)
Theorem unroll_exits_in_dataflow_order (wf : workflow) (order : list step)
    (t : tables) :
  NoDup (map step_id (wf_steps wf)) ->
  order ≡ₚ wf_steps wf ->
  dataflow_order (dom (promises t)) order = true ->
  sources_named wf ->
  outputs_named wf (dom (promises t)) ->
  jobs t = ∅ ->
  exists t', unroll (S (length (wf_steps wf))) wf t = ([], Ok t') /\
             forall st, st ∈ wf_steps wf -> is_Some (jobs t' !! step_id st).
Proof.
  intros Hnodup Hperm Hord Hnamed Houts Hjobs.
  destruct (unroll_live wf order (dom (promises t)) (length (wf_steps wf)) t)
    as [t' Ht']; try done.
  - intros s Hs. by apply elem_of_dom.
  - intros st out _ [u Hu]. rewrite Hjobs in Hu. by rewrite lookup_empty in Hu.
  - apply length_filter.
  - exists t'. split; [done|]. intros st Hst.
    by apply (unroll_exit _ _ _ _ _ Ht').
Qed.

(** *** A step that is ready *)

Lemma unnamed_source_spec inp :
  unnamed_source inp = true <->
  port_source inp = Some (Many []) /\
  truthy_str (port_linkMerge inp) = false.
Proof.
  unfold unnamed_source.
  destruct (port_source inp) as [[s|[|s l]]|];
    destruct (truthy_str (port_linkMerge inp)); simpl; split;
    (done || by intros [? ?]).
Qed.

(** X6: for a step whose sources all have a promise
    the job object is built, unless one of its inputs has the empty list
    as [source] and no linkMerge: then [ResolveSource] finds no first
    source and the [IndexError] leaves the loop. *)
Theorem ready_step_job_object (wf : workflow) (st : step)
    (promises : gmap string producer) :
  stepinputs_fufilled promises (step_inputs st) = true ->
  if existsb unnamed_source (step_inputs st)
  then build_jobobj wf st promises = ([], Raise IndexError)
  else exists jobobj, build_jobobj wf st promises = ([], Ok jobobj).
Proof.
  intros Hready.
  pose proof (stepinputs_fufilled_sources _ _ Hready) as Hall.
  destruct (existsb unnamed_source (step_inputs st)) eqn:Hex.
  - unfold build_jobobj. generalize (@nil (string * indirect producer)).
    revert Hall Hex. generalize (step_inputs st) as inputs.
    induction inputs as [|inp inputs IH]; intros Hall Hex jobobj;
      [done|].
    simpl in Hex. destruct (unnamed_source inp) eqn:Hinp.
    + apply unnamed_source_spec in Hinp as [Hsrc Hlm].
      simpl. rewrite Hsrc. unfold ResolveSource_init, port_getitem. simpl.
      rewrite Hsrc, bind_ret_nil, Hlm. reflexivity.
    + simpl in Hex. simpl.
      assert (exists rs_set,
        match port_source inp with
        | Some _ =>
            rs ← ResolveSource_init
                   (step_id st +:+ "/" +:+ shortname (port_id inp)) inp
                   KSource promises;
            mret (dict_set (shortname (port_id inp)) (IResolveSource rs)
                           jobobj)
        | None => mret jobobj
        end = ([], Ok rs_set)) as [rs_set ->].
      { destruct (port_source inp) as [src|] eqn:Hsrc; [|by eexists].
        destruct (ResolveSource_init_ready
                    (step_id st +:+ "/" +:+ shortname (port_id inp)) inp
                    KSource promises src) as [rs Hrs]; [done| | |].
        - intros s Hs. apply (Hall inp s); [by left|]. by rewrite Hsrc.
        - intros ->. destruct (truthy_str (port_linkMerge inp)) eqn:E;
            [done|].
          assert (unnamed_source inp = true)
            by (by apply unnamed_source_spec).
          congruence.
        - rewrite Hrs, bind_pure. by eexists. }
      rewrite bind_pure, bind_ret_nil.
      apply IH; [|done]. intros inp' s Hin. apply Hall. by right.
  - apply build_jobobj_ready; [done|].
    intros inp Hinp Hsrc.
    destruct (truthy_str (port_linkMerge inp)) eqn:E; [done|].
    assert (unnamed_source inp = true) as Hbad
      by (by apply unnamed_source_spec).
    assert (existsb unnamed_source (step_inputs st) = true); [|congruence].
    apply existsb_exists. exists inp. split; [|done].
    by apply list_elem_of_In.
Qed.

(** *** What resolution returns *)

(** X8: what [ResolveSource.resolve]
    returns holds no [SkipNull], at any depth: the value of a skipped
    producer reaches the consumer as null, and the log holds warnings
    only. *)
Theorem ResolveSource_resolve_no_skip (self : ResolveSource dict)
    (log : list event) (v : value) :
  ResolveSource_resolve self = (log, Ok v) ->
  has_skip v = false /\ only_warnings log.
Proof.
  intros H. split.
  - unfold ResolveSource_resolve in H.
    apply bind_Ok_inv in H as (l1 & merged & l2 & _ & H & _).
    apply bind_Ok_inv in H as (l3 & picked & l4 & _ & H & _).
    rewrite filter_skip_null_spec in H. injection H as _ <-.
    apply skip_to_none_clean.
  - pose proof (only_warnings_ResolveSource self) as Hw.
    by rewrite H in Hw.
Qed.

(** X9: when the producer's output has no value under
    the source's name, a single source without linkMerge resolves to null
    ([dict.get]), while in a list of sources the same gap raises
    [KeyError]. *)
Theorem missing_output_key (name : string) (input : port) (key : source_key)
    (k : string) (d : dict) :
  dict_get k d = None ->
  (exists log,
     ResolveSource_resolve (MkResolveSource name input key (OneTuple (k, d)))
     = (log, Ok VNone) /\ only_warnings log) /\
  (forall before after,
     Forall (fun t => is_Some (dict_get t.1 t.2)) before ->
     ResolveSource_resolve
       (MkResolveSource name input key
                        (TupleList (before ++ (k, d) :: after)))
     = ([], Raise (KeyError k))).
Proof.
  intros Hk. split.
  - unfold ResolveSource_resolve. simpl. rewrite Hk, bind_ret_nil. simpl.
    unfold pick_value. destruct (port_pickValue input) as [p|].
    + rewrite bind_assoc, bind_emit. simpl. eexists. split; [done|].
      repeat constructor. eauto.
    + rewrite bind_ret_nil, filter_skip_null_spec. simpl.
      eexists. split; [done|]. constructor.
  - intros before after Hbefore. unfold ResolveSource_resolve. simpl.
    assert (mapM_ (fun v : string * dict => dict_getitem v.1 v.2)
                  (before ++ (k, d) :: after) = ([], Raise (KeyError k)))
      as ->; [|done].
    induction Hbefore as [|t before [v Hv] _ IH]; simpl.
    + assert (dict_getitem k d = ([], Raise (KeyError k))) as ->
        by (unfold dict_getitem; by rewrite Hk).
      reflexivity.
    + rewrite (dict_getitem_Some _ _ _ Hv), bind_pure, IH. reflexivity.
Qed.

Lemma mapM_Forall2 {A B} (f : A -> M B) (l : list A) log (r : list B) :
  mapM_ f l = (log, Ok r) ->
  Forall2 (fun x y => exists lg, f x = (lg, Ok y)) l r.
Proof.
  revert log r. induction l as [|x l IH]; intros log r; simpl.
  - intros [_ <-]%ret_Ok_inv. constructor.
  - intros (l1 & y & l2 & Hx & Hrest & _)%bind_Ok_inv.
    apply bind_Ok_inv in Hrest as (l3 & ys & l4 & Hl & Hret & _).
    apply ret_Ok_inv in Hret as [_ <-]. constructor; eauto.
Qed.

Lemma Forall2_zip_l {A B C} (Q : A -> B -> Prop) (P : A * B -> C -> Prop)
    (l : list A) (k : list B) (r : list C) :
  Forall2 Q l k -> Forall2 P (zip l k) r ->
  Forall2 (fun a c => exists b, Q a b /\ P (a, b) c) l r.
Proof.
  intros HQ. revert r. induction HQ as [|a b l k Hab HQ IH]; intros r; simpl.
  - intros ->%Forall2_nil_inv_l. constructor.
  - intros (c & r' & Hc & Hr & ->)%Forall2_cons_inv_l.
    constructor; eauto.
Qed.

(** Two dicts with the same keys in the same order answer a lookup at the
    same position. *)
Lemma dict_get_aligned {V W} (R : string -> V -> W -> Prop) (d : adict V)
    (d' : adict W) (k : string) (x : V) :
  Forall2 (fun a b => b.1 = a.1 /\ R a.1 a.2 b.2) d d' ->
  dict_get k d = Some x ->
  exists y, dict_get k d' = Some y /\ R k x y.
Proof.
  induction 1 as [|[k1 v1] [k2 v2] d d' [Hk HR] _ IH]; simpl; [done|].
  simpl in Hk. subst k2. case_decide as Hkk.
  - intros [= <-]. subst k1. eauto.
  - done.
Qed.

Lemma Forall2_same_keys {V W} (R : string * V -> string * W -> Prop)
    (d : adict V) (d' : adict W) :
  Forall2 (fun a b => b.1 = a.1 /\ R a b) d d' -> dict_keys d' = dict_keys d.
Proof.
  unfold dict_keys. induction 1 as [|a b d d' [Hk _] _ IH]; [done|].
  rewrite !fmap_cons. by f_equal.
Qed.

Lemma Forall2_weaken {A B} (P Q : A -> B -> Prop) l k :
  (forall a b, P a b -> Q a b) -> Forall2 P l k -> Forall2 Q l k.
Proof. intros H. induction 1; constructor; auto. Qed.

(** X10: [resolve_indirect] keeps the keys of
    the indirect dict, in order, and works in two passes: every entry is
    resolved first; an entry that is no [StepValueFrom] gets its resolved
    value, and a [StepValueFrom] gets its expression evaluated over the
    first-pass values of all entries, with its own first-pass value as
    [self]. *)
Theorem resolve_indirect_two_passes (d : adict (indirect dict))
    (log : list event) (r : dict) :
  resolve_indirect (IndirectDict d) = (log, Ok r) ->
  dict_keys r = dict_keys d /\
  exists first_pass_results : dict,
    dict_keys first_pass_results = dict_keys d /\
    forall k x, dict_get k d = Some x ->
      exists l v,
        resolve x = (l, Ok v) /\
        dict_get k first_pass_results = Some v /\
        match x with
        | IStepValueFrom expr _ req =>
            exists w, do_eval expr first_pass_results req v = Some w /\
                      dict_get k r = Some w
        | _ => dict_get k r = Some v
        end.
Proof.
  unfold resolve_indirect.
  intros (l1 & first & l2 & H1 & H2 & _)%bind_Ok_inv.
  apply mapM_Forall2 in H1. apply mapM_Forall2 in H2.
  assert (Hfirst : Forall2 (fun (a : string * indirect dict)
                                (b : string * value) =>
            b.1 = a.1 /\ exists lg, resolve a.2 = (lg, Ok b.2)) d first).
  { eapply Forall2_weaken; [|exact H1]. intros a b [lg Hab]. simpl in Hab.
    apply bind_Ok_inv in Hab as (l3 & v & l4 & Hv & Hret & _).
    apply ret_Ok_inv in Hret as [_ <-]. simpl. eauto. }
  pose proof (Forall2_zip_l _ _ _ _ _ Hfirst H2) as Hboth.
  assert (Hr : Forall2 (fun (a : string * indirect dict)
                            (c : string * value) =>
            c.1 = a.1 /\
            exists v lg, resolve a.2 = (lg, Ok v) /\
              match a.2 with
              | IStepValueFrom expr _ req =>
                  do_eval expr first req v = Some c.2
              | _ => dict_get a.1 first = Some c.2
              end) d r).
  { eapply Forall2_weaken; [|exact Hboth].
    intros a c (b & (Hb & lg & Hres) & lg' & Hc). simpl in Hc.
    destruct a as [k x]. simpl in *.
    assert (Hplain :
      (r' ← dict_getitem k first; mret (k, r')) = (lg', Ok c) ->
      c.1 = k /\ dict_get k first = Some c.2).
    { intros (l3 & v & l4 & Hv & Hret & _)%bind_Ok_inv.
      apply ret_Ok_inv in Hret as [_ <-]. simpl. split; [done|].
      unfold dict_getitem in Hv. destruct (dict_get k first); [|done].
      by apply ret_Ok_inv in Hv as [_ ->]. }
    destruct x as [rs|dflt src|expr src req|val];
      try (destruct (Hplain Hc) as [-> Hget]; split; [done|];
           exists b.2, lg; by split).
    apply bind_Ok_inv in Hc as (l3 & v & l4 & Hv & Hret & _).
    apply ret_Ok_inv in Hret as [_ <-]. simpl. split; [done|].
    exists b.2, lg. split; [done|].
    unfold eval in Hv. destruct (do_eval expr first req b.2); [|done].
    by apply ret_Ok_inv in Hv as [_ ->]. }
  split.
  { by apply (Forall2_same_keys _ _ _ Hr). }
  exists first. split.
  { by apply (Forall2_same_keys _ _ _ Hfirst). }
  intros k x Hk.
  destruct (dict_get_aligned
              (fun _ x v => exists lg, resolve x = (lg, Ok v)) d first k x)
    as (v & Hv & lg & Hres); [|done|].
  { eapply Forall2_weaken; [|exact Hfirst]. by intros a b [? ?]. }
  destruct (dict_get_aligned
              (fun k x w => exists v lg, resolve x = (lg, Ok v) /\
                 match x with
                 | IStepValueFrom expr _ req =>
                     do_eval expr first req v = Some w
                 | _ => dict_get k first = Some w
                 end) d r k x)
    as (w & Hw & v' & lg' & Hres' & Hcase); [|done|].
  { eapply Forall2_weaken; [|exact Hr]. by intros a b [? ?]. }
  rewrite Hres in Hres'. injection Hres' as _ <-.
  exists lg, v. split; [done|]. split; [done|].
  destruct x; try (rewrite Hv in Hcase; by injection Hcase as <-).
  eauto.
Qed.

(** *** What the tool is run with *)

Lemma is_false_log (self : Conditional) (job : dict) :
  (is_false self job).1 = [].
Proof.
  unfold is_false. destruct (cond_expression self) as [expression|]; [|done].
  change (resolve_indirect (PlainDict job)) with (mret job : M dict).
  rewrite bind_ret_nil. unfold eval.
  destruct (do_eval _ _ _ _) as [[]|]; done.
Qed.

Lemma dict_pop_app_r {V} (k : string) (d1 d2 : adict V) :
  k ∉ dict_keys d1 -> dict_pop k (d1 ++ d2) = d1 ++ dict_pop k d2.
Proof.
  unfold dict_keys. induction d1 as [|[k1 v1] d1 IH]; simpl; [done|].
  intros Hk. case_decide as E.
  - subst. destruct Hk. by left.
  - rewrite IH; [done|]. intros Hin. apply Hk. by right.
Qed.

(** Popping every key that is no field leaves the fields, in order. *)
Lemma pop_undeclared (fields : list string) (d1 d2 : dict) :
  Forall (fun kv => kv.1 ∈ fields) d1 ->
  foldl (fun job inp_id =>
           if bool_decide (inp_id ∈ fields) then job
           else dict_pop inp_id job) (d1 ++ d2) (dict_keys d2)
  = d1 ++ filter (fun kv => kv.1 ∈ fields) d2.
Proof.
  revert d1. induction d2 as [|[k v] d2 IH]; intros d1 Hd1; [done|].
  simpl. rewrite filter_cons. simpl. case_bool_decide as Hk.
  - rewrite decide_True by done.
    change (d1 ++ (k, v) :: d2) with (d1 ++ [(k, v)] ++ d2).
    rewrite app_assoc, IH.
    + by rewrite <- app_assoc.
    + apply Forall_app. split; [done|]. by constructor.
  - rewrite decide_False by done.
    rewrite dict_pop_app_r.
    + simpl. rewrite decide_True by done. by apply IH.
    + intros (kv & -> & Hin)%list_elem_of_fmap.
      rewrite Forall_forall in Hd1. by apply Hk, Hd1.
Qed.

(** X11: [CWLJob.run] runs the tool at most
    once, as the last thing it logs, and on the resolved job object with
    its defaults filled in and every key dropped that is no field of the
    tool's input schema, in the order the keys had; nothing but warnings
    comes before, and a status other than success is raised as a
    [WorkflowException]. *)
Theorem CWLJob_run_executes_declared (self : CWLJob_state)
    (log : list event) (r : outcome dict) (jo : dict) :
  CWLJob_run self = (log, r) -> Execute jo ∈ log ->
  exists l1 resolved filled,
    resolve_indirect (job_cwljob self) = (l1, Ok resolved) /\
    fill_in_defaults (job_step_inputs self) resolved = inr filled /\
    jo = filter (fun kv => kv.1 ∈ job_fields self) filled /\
    log = l1 ++ [Execute jo] /\
    only_warnings l1 /\
    ((execute jo).2 <> "success" ->
     r = Raise (WorkflowException (execute jo).2)).
Proof.
  unfold CWLJob_run. intros Hrun Hin.
  pose proof (only_warnings_resolve_indirect (job_cwljob self)) as Hw.
  destruct (resolve_indirect (job_cwljob self)) as [l1 [resolved| |]] eqn:Hres;
    simpl in Hw.
  2,3: unfold mbind, M_bind in Hrun; simpl in Hrun;
    injection Hrun as <- _; by apply only_warnings_no_execute in Hin.
  rewrite (bind_ok (_, Ok _) _ _ _ eq_refl) in Hrun.
  destruct (fill_in_defaults (job_step_inputs self) resolved)
    as [e|filled] eqn:Hfill.
  { rewrite bind_raise_nil in Hrun. simpl in Hrun. rewrite app_nil_r in Hrun.
    injection Hrun as <- _. by apply only_warnings_no_execute in Hin. }
  rewrite bind_ret_nil in Hrun.
  pose proof (is_false_log (job_conditional self) filled) as Hlog.
  destruct (is_false (job_conditional self) filled) as [l2 [[|]| |]] eqn:Hgate;
    simpl in Hlog; subst l2.
  1,3,4: unfold mbind, M_bind in Hrun; simpl in Hrun;
    rewrite app_nil_r in Hrun; injection Hrun as <- _;
    by apply only_warnings_no_execute in Hin.
  rewrite bind_pure, bind_emit in Hrun.
  pose proof (pop_undeclared (job_fields self) [] filled ltac:(constructor))
    as Hpop.
  rewrite !app_nil_l in Hpop. rewrite Hpop in Hrun. clear Hpop.
  set (jo' := filter (fun kv => kv.1 ∈ job_fields self) filled) in *.
  assert (Hlog : log = l1 ++ [Execute jo']).
  { revert Hrun. case_decide; by intros [= <- _]. }
  assert (jo = jo') as ->.
  { rewrite Hlog in Hin. apply elem_of_app in Hin as [Hin|Hin].
    - by apply only_warnings_no_execute in Hin.
    - apply list_elem_of_singleton in Hin. by injection Hin. }
  exists l1, resolved, filled. do 5 (split; [done|]).
  intros Hstatus. revert Hrun. case_decide; [done|]. by intros [= _ <-].
Qed.

(** *** A dotproduct over arrays of different lengths *)









(** *** Gathering what a scatter returned *)

Lemma outputs_tree_ind' (P : outputs_tree -> Prop) :
  (forall jo, P (RvOf jo)) ->
  (forall l, Forall P l -> P (Nested l)) ->
  forall t, P t.
Proof.
  intros HR HN. fix rec 1. intros [jo|l]; [apply HR|].
  apply HN. induction l as [|x l IH]; constructor; [apply rec|apply IH].
Qed.

Lemma fill_get (g : string -> value) (k : string) (ks : list string)
    (acc : dict) :
  dict_get k (foldl (fun outobj k => dict_set k (g k) outobj) acc ks)
  = if decide (k ∈ ks) then Some (g k) else dict_get k acc.
Proof.
  revert acc. induction ks as [|k' ks IH]; intros acc.
  - change (foldl _ acc []) with acc. by rewrite decide_False by apply not_elem_of_nil.
  - simpl. rewrite IH. destruct (decide (k ∈ ks)) as [Hin|Hout].
    + rewrite decide_True; [done|by right].
    + rewrite dict_get_set. case_decide as E.
      * subst. rewrite decide_True; [done|by left].
      * rewrite decide_False; [done|].
        by intros [?|?]%elem_of_cons.
Qed.

Lemma CWLGather_run_get (self : step) (outputs : value) (k : string) :
  dict_get k (CWLGather_run self outputs)
  = if decide (k ∈ map sn (step_out self)) then Some (extract outputs k)
    else None.
Proof.
  unfold CWLGather_run.
  by rewrite (fill_get (extract outputs) k (map sn (step_out self)) []).
Qed.

Lemma extract_fulfilled (rv : dict -> dict) (k : string) (t : outputs_tree) :
  extract (fulfilled (fun jo => VDict (rv jo)) t) k
  = fulfilled (fun jo => default VNone (dict_get k (rv jo))) t.
Proof.
  induction t as [jo|l IH] using outputs_tree_ind'; simpl; [done|].
  f_equal. rewrite map_map. induction IH as [|x l Hx _ IHl]; simpl; [done|].
  by rewrite Hx, IHl.
Qed.

Lemma fulfilled_ext (f g : dict -> value) (t : outputs_tree) :
  (forall jo, f jo = g jo) -> fulfilled f t = fulfilled g t.
Proof.
  intros H. induction t as [jo|l IH] using outputs_tree_ind'; simpl; [done|].
  f_equal. induction IH as [|x l Hx _ IHl]; simpl; [done|].
  by rewrite Hx, IHl.
Qed.

(** X14: what [CWLGather.run] returns has
    an entry for each name in the step's [out] and no other key; the
    entry under [k] is [extract(outputs, k)], whatever else the sub-jobs
    returned. *)
Theorem CWLGather_run_declared_outputs (self : step) (outputs : value)
    (k : string) :
  dict_get k (CWLGather_run self outputs)
  = if decide (k ∈ map sn (step_out self)) then Some (extract outputs k)
    else None.
Proof. apply CWLGather_run_get. Qed.

(** X15: the gather of a scatter has, under each
    declared output, the values that the sub-jobs returned under it, in
    the nesting in which the scatter returned their promises: position
    for position, one level of lists per level of the scatter, and null
    where a sub-job returned nothing under the name. *)
Theorem gather_keeps_nesting (self : step) (outs : list outputs_tree)
    (rv : dict -> dict) (k : string) :
  k ∈ map sn (step_out self) ->
  dict_get k (CWLGather_run self
                (VList (map (fulfilled (fun jo => VDict (rv jo))) outs)))
  = Some (VList (map (fulfilled
                        (fun jo => default VNone (dict_get k (rv jo))))
                     outs)).
Proof.
  intros Hk. rewrite CWLGather_run_get, decide_True by done.
  change (VList (map (fulfilled ?g) outs)) with (fulfilled g (Nested outs)).
  by rewrite extract_fulfilled.
Qed.

Lemma gather_skipped (self : step) (conditional : Conditional)
    (outs : list outputs_tree) (rv : dict -> dict) (skipped : dict -> bool)
    (k : string) :
  cond_outputs conditional = step_out self ->
  (forall jo, skipped jo = true -> rv jo = skipped_outputs conditional) ->
  k ∈ map sn (step_out self) ->
  dict_get k (CWLGather_run self
                (VList (map (fulfilled (fun jo => VDict (rv jo))) outs)))
  = Some (VList (map (fulfilled
                        (fun jo => if skipped jo then VSkipNull
                                   else default VNone (dict_get k (rv jo))))
                     outs)).
Proof.
  intros Hout Hskip Hk. rewrite CWLGather_run_get, decide_True by done.
  change (VList (map (fulfilled ?g) outs)) with (fulfilled g (Nested outs)).
  rewrite extract_fulfilled.
  change (VList (map (fulfilled ?g) outs)) with (fulfilled g (Nested outs)).
  f_equal. apply fulfilled_ext. intros jo.
  destruct (skipped jo) eqn:E; [|done].
  rewrite (Hskip jo E), skipped_outputs_get, Hout.
  by rewrite decide_True by done.
Qed.

(** X16: a sub-job that was skipped returns
    [skipped_outputs()], so the gathered array of each declared output
    holds a [SkipNull] in the place of every skipped sub-job. *)
Theorem gather_of_skipped (self : step) (conditional : Conditional)
    (outs : list outputs_tree) (rv : dict -> dict) (skipped : dict -> bool)
    (k : string) :
  cond_outputs conditional = step_out self ->
  (forall jo, skipped jo = true -> rv jo = skipped_outputs conditional) ->
  k ∈ map sn (step_out self) ->
  dict_get k (CWLGather_run self
                (VList (map (fulfilled (fun jo => VDict (rv jo))) outs)))
  = Some (VList (map (fulfilled
                        (fun jo => if skipped jo then VSkipNull
                                   else default VNone (dict_get k (rv jo))))
                     outs)).
Proof.
  apply gather_skipped.
Qed.

Lemma add_keys (keys : gset string) (l : list string) :
  foldl (fun keys k => keys ∪ {[k]}) keys l = keys ∪ list_to_set l.
Proof.
  revert keys. induction l as [|k l IH]; intros keys; simpl.
  - by rewrite union_empty_r_L.
  - by rewrite IH, union_assoc_L.
Qed.

Lemma allkeys_grows (obj : value) (keys : gset string) :
  allkeys obj keys = keys ∪ allkeys obj ∅.
Proof.
  revert keys.
  induction obj as [| | | | |l IH|d IH] using value_ind'; intros keys; simpl;
    try (by rewrite union_empty_r_L).
  - revert keys. induction IH as [|x l Hx _ IHl]; intros keys; simpl.
    + by rewrite union_empty_r_L.
    + rewrite IHl, (IHl (allkeys x ∅)), Hx. by rewrite union_assoc_L.
  - by rewrite !add_keys, union_empty_l_L.
Qed.

(** X17: a key that [allkeys] does not find in the
    outputs is gathered as nulls only: [extract] returns null, or lists
    that hold nothing but such lists and nulls. *)
Theorem extract_absent_key (obj : value) (k : string) :
  k ∉ allkeys obj ∅ -> hollow (extract obj k) = true.
Proof.
  induction obj as [| | | | |l IH|d IH] using value_ind'; simpl; try done.
  - induction IH as [|x l Hx _ IHl]; simpl; [done|].
    change (foldl _ ?K l) with (allkeys (VList l) K).
    rewrite allkeys_grows. intros [H1 H2]%not_elem_of_union.
    rewrite (Hx H1). simpl. by apply IHl.
  - rewrite add_keys, union_empty_l_L. intros Hk.
    assert (dict_get k d = None) as ->; [|done].
    apply dict_get_None_keys. intros Hin. apply Hk.
    by apply elem_of_list_to_set.
Qed.

(** *** The conditional gate of a job *)





(** *** Helpers on documents *)

(** X18: [_collectDirEntries] yields File and
    Directory objects only, and exactly those that are reached through
    lists and through mappings that are no File or Directory themselves:
    what is nested inside a File or Directory (its listing, its
    secondaryFiles) is not yielded on its own. *)
Theorem _collectDirEntries_complete (obj : value) (e : dict) :
  (e ∈ _collectDirEntries obj <-> dir_entry_of obj e) /\
  Forall (fun e => is_dir_entry e = true) (_collectDirEntries obj).
Proof.
  split; [split|].
  - revert e.
    induction obj as [| | | | |l IH|d IH] using value_ind'; intros e; simpl;
      try (by intros ?%elem_of_nil).
    + rewrite list_elem_of_In, in_concat.
      intros (es & Hes & He). apply list_elem_of_In in Hes, He.
      apply list_elem_of_fmap in Hes as (v & -> & Hv).
      rewrite Forall_forall in IH.
      apply (entry_in_list l v); [done|]. by apply IH.
    + destruct (is_dir_entry d) eqn:Hd.
      * intros ->%list_elem_of_singleton. by constructor.
      * rewrite list_elem_of_In, in_concat.
        intros (es & Hes & He). apply list_elem_of_In in Hes, He.
        apply list_elem_of_fmap in Hes as ([k v] & -> & Hv).
        rewrite Forall_forall in IH.
        apply (entry_in_dict d k v); [done|done|].
        by apply (IH (k, v)).
  - induction 1 as [d Hd|d k v e' Hd Hin _ IH|l v e' Hin _ IH]; simpl.
    + rewrite Hd. by left.
    + rewrite Hd. rewrite list_elem_of_In, in_concat.
      exists (_collectDirEntries v). split; apply list_elem_of_In; [|done].
      apply list_elem_of_fmap. by exists (k, v).
    + rewrite list_elem_of_In, in_concat.
      exists (_collectDirEntries v). split; apply list_elem_of_In; [|done].
      apply list_elem_of_fmap. by exists v.
  - induction obj as [| | | | |l IH|d IH] using value_ind'; simpl;
      try constructor.
    + induction IH as [|x l Hx _ IHl]; simpl; [constructor|].
      by apply Forall_app.
    + destruct (is_dir_entry d) eqn:Hd; [by repeat constructor|].
      clear Hd. induction IH as [|x l Hx _ IHl]; simpl; [constructor|].
      by apply Forall_app.
Qed.

Lemma dict_get_pop_ne {V} (k k' : string) (d : adict V) :
  k <> k' -> dict_get k (dict_pop k' d) = dict_get k d.
Proof.
  intros Hne. induction d as [|[k1 v1] d IH]; simpl; [done|].
  destruct (decide (k' = k1)) as [->|E].
  - by rewrite decide_False.
  - simpl. by rewrite IH.
Qed.

Lemma dict_get_pop_eq {V} (k : string) (d : adict V) :
  NoDup (dict_keys d) -> dict_get k (dict_pop k d) = None.
Proof.
  unfold dict_keys. induction d as [|[k1 v1] d IH]; simpl; [done|].
  intros [Hk1 Hd]%NoDup_cons. destruct (decide (k = k1)) as [->|E].
  - by apply dict_get_None_keys.
  - simpl. rewrite decide_False by done. by apply IH.
Qed.

Lemma dict_keys_set {V} (k : string) (v : V) (d : adict V) :
  dict_keys (dict_set k v d)
  = if decide (k ∈ dict_keys d) then dict_keys d else dict_keys d ++ [k].
Proof.
  unfold dict_keys. induction d as [|[k1 v1] d IH].
  - by rewrite decide_False by apply not_elem_of_nil.
  - simpl dict_set. destruct (decide (k = k1)) as [->|E].
    + rewrite decide_True; [done|]. rewrite fmap_cons. by left.
    + rewrite !fmap_cons, IH. simpl.
      destruct (decide (k ∈ d.*1)) as [Hin|Hout].
      * rewrite decide_True; [done|by right].
      * rewrite decide_False; [done|]. by intros [?|?]%elem_of_cons.
Qed.

(** X19: after [path_to_loc] an object that had a
    [location] or a [path] has a [location]: its own, or else what was
    under [path], which is then gone; every other key is as it was, and a
    second call changes nothing. *)
Theorem path_to_loc_location (obj : dict) :
  dict_get "location" (path_to_loc obj)
  = match dict_get "location" obj with
    | Some location => Some location
    | None => dict_get "path" obj
    end /\
  (forall k, k <> "location" -> k <> "path" ->
             dict_get k (path_to_loc obj) = dict_get k obj) /\
  (NoDup (dict_keys obj) ->
   dict_get "path" (path_to_loc obj)
   = match dict_get "location" obj with
     | Some _ => dict_get "path" obj
     | None => None
     end) /\
  path_to_loc (path_to_loc obj) = path_to_loc obj.
Proof.
  destruct (dict_get "location" obj) as [loc|] eqn:Hloc.
  { assert (path_to_loc obj = obj) as ->
      by (unfold path_to_loc; by rewrite Hloc).
    rewrite Hloc. split; [done|]. split; [done|]. split; [done|].
    unfold path_to_loc; by rewrite Hloc. }
  destruct (dict_get "path" obj) as [p|] eqn:Hpath.
  2:{ assert (path_to_loc obj = obj) as ->
        by (unfold path_to_loc; by rewrite Hloc, Hpath).
      rewrite Hloc. split; [done|]. split; [done|]. split; [done|].
      unfold path_to_loc; by rewrite Hloc, Hpath. }
  assert (path_to_loc obj = dict_pop "path" (dict_set "location" p obj))
    as -> by (unfold path_to_loc; by rewrite Hloc, Hpath).
  assert (Hnew : dict_get "location" (dict_pop "path"
                   (dict_set "location" p obj)) = Some p).
  { by rewrite dict_get_pop_ne, dict_get_set_eq. }
  split; [done|]. split; [|split].
  - intros k Hk1 Hk2. by rewrite dict_get_pop_ne, dict_get_set_ne.
  - intros Hnodup. apply dict_get_pop_eq.
    rewrite dict_keys_set. rewrite decide_False.
    + apply NoDup_app. split; [done|]. split; [|apply NoDup_singleton].
      intros k Hk ->%list_elem_of_singleton.
      by apply dict_get_None_keys in Hloc.
    + by apply dict_get_None_keys.
  - unfold path_to_loc at 1. by rewrite Hnew.
Qed.

Lemma remove_at_id_get (d : dict) (key : string) :
  exists d',
    remove_at_id (VDict d) = VDict d' /\
    dict_get key d'
    = if decide (key = "@id") then None
      else match dict_get key d with
           | Some (VDict x) => Some (remove_at_id (VDict x))
           | o => o
           end.
Proof.
  eexists. split; [reflexivity|].
  induction d as [|[k v] d IH]; simpl.
  - by case_decide.
  - destruct (decide (k = "@id")) as [->|Hk].
    + rewrite IH. by case_decide.
    + simpl. destruct (decide (key = k)) as [->|E].
      * rewrite decide_False by done. by destruct v.
      * apply IH.
Qed.

(** X20: [remove_at_id] leaves every list as it
    is, also the mappings in it that have an [@id]: the loop over the
    entries of a list tests the list, not the entry. *)
Theorem remove_at_id_skips_lists (d : dict) (key : string) (l : list value) :
  key <> "@id" ->
  dict_get key d = Some (VList l) ->
  exists d', remove_at_id (VDict d) = VDict d' /\
             dict_get key d' = Some (VList l).
Proof.
  intros Hkey Hl. destruct (remove_at_id_get d key) as (d' & Hd' & Hget).
  exists d'. split; [done|]. by rewrite Hget, decide_False, Hl.
Qed.

(** X21: after [remove_at_id] neither the document nor a
    mapping reached through keys of mappings has an [@id]; a document
    that is no mapping is returned as it is, and a second call changes
    nothing. *)
Theorem remove_at_id_clean (doc : value) :
  at_id_free (remove_at_id doc) = true /\
  remove_at_id (remove_at_id doc) = remove_at_id doc /\
  match doc with
  | VDict _ => True
  | _ => remove_at_id doc = doc
  end.
Proof.
  split; [|split]; [| |by destruct doc].
  - induction doc as [| | | | |l IH|d IH] using value_ind'; try done.
    simpl. induction IH as [|[k v] d Hv _ IHd]; [done|].
    destruct (decide (k = "@id")) as [->|Hk]; [done|].
    simpl. rewrite bool_decide_eq_false_2 by done. simpl.
    rewrite IHd, andb_true_r. simpl in Hv. by destruct v.
  - induction doc as [| | | | |l IH|d IH] using value_ind'; try done.
    simpl. f_equal. induction IH as [|[k v] d Hv _ IHd]; [done|].
    destruct (decide (k = "@id")) as [->|Hk]; [done|].
    rewrite decide_False by done. rewrite IHd. f_equal. f_equal.
    simpl in Hv. by destruct v.
Qed.

(** *** The file index *)

Lemma startswith_toilfs (packed : string) :
  startswith "toilfs:" ("toilfs:" +:+ packed) = true.
Proof. unfold startswith. simpl. by destruct packed. Qed.

Lemma write_file_inv writeFunc (st : files Store) (x : string) :
  write_file writeFunc st x
  = if startswith "toilfs:" x then (Ok x, st)
    else if startswith "_:" x then (Ok x, st)
    else
      let x := default x (existing st !! x) in
      match index st !! x with
      | Some ref => (Ok ref, st)
      | None =>
          let r := writeFunc (store st)
                     (if bool_decide (scheme x = "") then realpath x else x) in
          match r.1 with
          | inr packed =>
              (Ok ("toilfs:" +:+ packed),
               MkFiles (<[x := "toilfs:" +:+ packed]> (index st))
                       (<["toilfs:" +:+ packed := x]> (existing st))
                       r.2 (errors st))
          | inl e =>
              (Raise e,
               MkFiles (index st) (existing st) r.2 (errors st ++ [(e, x)]))
          end
      end.
Proof. reflexivity. Qed.

Lemma write_file_keeps_references writeFunc (st : files Store) x o st' :
  references_only st -> write_file writeFunc st x = (o, st') ->
  references_only st'.
Proof.
  intros [Hi He]. rewrite write_file_inv.
  destruct (startswith "toilfs:" x); [by intros [= _ <-]|].
  destruct (startswith "_:" x); [by intros [= _ <-]|].
  cbv zeta. destruct (index st !! _); [by intros [= _ <-]|].
  destruct (writeFunc _ _) as [[e|packed] s']; simpl; intros [= _ <-].
  - by split.
  - split; simpl.
    + intros y ref. destruct (decide (default x (existing st !! x) = y))
        as [->|Hne].
      * rewrite lookup_insert_eq. intros [= <-]. apply startswith_toilfs.
      * rewrite lookup_insert_ne by done. apply Hi.
    + intros ref y. destruct (decide ("toilfs:" +:+ packed = ref))
        as [<-|Hne].
      * intros _. apply startswith_toilfs.
      * rewrite lookup_insert_ne by done. apply He.
Qed.

Lemma write_file_result writeFunc (st : files Store) x ref st' :
  references_only st -> write_file writeFunc st x = (Ok ref, st') ->
  uploaded ref = true.
Proof.
  intros [Hi He]. rewrite write_file_inv. unfold uploaded.
  destruct (startswith "toilfs:" x) eqn:H1; [by intros [= <- _]; rewrite H1|].
  destruct (startswith "_:" x) eqn:H2;
    [intros [= <- _]; by rewrite H2, orb_true_r|].
  cbv zeta. destruct (index st !! _) eqn:Hx.
  { intros [= <- _]. by rewrite (Hi _ _ Hx). }
  destruct (writeFunc _ _) as [[e|packed] s']; simpl; [done|].
  intros [= <- _]. by rewrite startswith_toilfs.
Qed.

(** X22: [write_file] answers with a reference into
    the file store, or with the file literal it was given; it puts only
    such references into [index], as values, and into [existing], as
    keys. *)
Theorem write_file_reference
    (writeFunc : Store -> string -> (exn + string) * Store)
    (st : files Store) (x ref : string) (st' : files Store) :
  references_only st ->
  write_file writeFunc st x = (Ok ref, st') ->
  references_only st' /\
  (startswith "toilfs:" ref = true \/ (ref = x /\ startswith "_:" x = true)).
Proof.
  intros Hinv Hw. split; [by eapply write_file_keeps_references|].
  destruct Hinv as [Hi He]. revert Hw. rewrite write_file_inv.
  destruct (startswith "toilfs:" x) eqn:H1; [intros [= <- _]; by left|].
  destruct (startswith "_:" x) eqn:H2; [intros [= <- _]; by right|].
  cbv zeta. destruct (index st !! _) eqn:Hx.
  { intros [= <- _]. left. by apply (Hi _ _ Hx). }
  destruct (writeFunc _ _) as [[e|packed] s']; simpl; [done|].
  intros [= <- _]. left. apply startswith_toilfs.
Qed.

Lemma write_file_again writeFunc (st : files Store) x ref st' :
  write_file writeFunc st x = (Ok ref, st') ->
  write_file writeFunc st' x = (Ok ref, st').
Proof.
  rewrite !write_file_inv.
  destruct (startswith "toilfs:" x) eqn:H1; [by intros [= <- <-]|].
  destruct (startswith "_:" x) eqn:H2; [by intros [= <- <-]|].
  cbv zeta. destruct (index st !! _) eqn:Hx.
  { intros [= <- <-]. by rewrite Hx. }
  destruct (writeFunc _ _) as [[e|packed] s']; simpl; [done|].
  intros [= <- <-]. cbn [index existing store errors].
  assert (Hne : "toilfs:" +:+ packed <> x).
  { intros <-. by rewrite startswith_toilfs in H1. }
  rewrite (lookup_insert_ne _ _ _ _ Hne).
  by rewrite lookup_insert_eq.
Qed.

(** X23: a file is written once.  After
    [write_file] has answered for a path, a second call for the same
    path gives the same answer and leaves [index], [existing] and the
    store as they are: [writeFunc] is not called again.  A new file is
    entered both ways: its reference under its path in [index], its path
    under its reference in [existing]. *)
Theorem write_file_writes_once
    (writeFunc : Store -> string -> (exn + string) * Store)
    (st : files Store) (x ref : string) (st' : files Store) :
  write_file writeFunc st x = (Ok ref, st') ->
  write_file writeFunc st' x = (Ok ref, st') /\
  (st' = st \/
   exists path, index st !! path = None /\
                index st' !! path = Some ref /\
                existing st' !! ref = Some path).
Proof.
  intros Hw. split; [by apply (write_file_again _ st)|].
  revert Hw. rewrite write_file_inv.
  destruct (startswith "toilfs:" x) eqn:H1; [intros [= _ <-]; by left|].
  destruct (startswith "_:" x) eqn:H2; [intros [= _ <-]; by left|].
  cbv zeta. destruct (index st !! _) eqn:Hx; [intros [= _ <-]; by left|].
  destruct (writeFunc _ _) as [[e|packed] s']; simpl; [done|].
  intros [= <- <-]. right. exists (default x (existing st !! x)).
  simpl. by rewrite !lookup_insert_eq.
Qed.

(** X24: a file that [toil_get_file] has fetched
    from the file store goes back under the same name: [write_file] of
    the path it was read to answers with the reference it was fetched
    by, and writes nothing. *)
Theorem toil_get_file_round_trip
    (writeFunc : Store -> string -> (exn + string) * Store)
    (st : files Store) (file_store_id uri : string) (st' : files Store) :
  references_only st ->
  startswith "toilfs:" file_store_id = true ->
  toil_get_file st file_store_id = (Ok uri, st') ->
  references_only st' /\
  exists src_path,
    uri = file_uri src_path /\
    index st' !! src_path = Some file_store_id /\
    existing st' !! file_store_id = Some src_path /\
    (uploaded src_path = false ->
     write_file writeFunc st' src_path = (Ok file_store_id, st')).
Proof.
  intros [Hi He] Hid. unfold toil_get_file. rewrite Hid. simpl.
  destruct (readGlobalFile _ _) as [[e|src_path] s']; simpl; [done|].
  intros [= <- <-]. split.
  - split; simpl.
    + intros y ref. destruct (decide (src_path = y)) as [->|Hne].
      * rewrite lookup_insert_eq. by intros [= <-].
      * rewrite lookup_insert_ne by done. apply Hi.
    + intros ref y. destruct (decide (file_store_id = ref)) as [<-|Hne].
      * done.
      * rewrite lookup_insert_ne by done. apply He.
  - exists src_path. simpl. rewrite !lookup_insert_eq.
    do 3 (split; [done|]).
    unfold uploaded. intros [H1 H2]%orb_false_iff.
    rewrite write_file_inv, H1, H2. cbn [index existing store errors].
    assert (Hne : file_store_id <> src_path) by congruence.
    rewrite (lookup_insert_ne _ _ _ _ Hne).
    destruct (existing st !! src_path) as [y|] eqn:Hy.
    { apply He in Hy. congruence. }
    cbv zeta. simpl default. by rewrite lookup_insert_eq.
Qed.

(** X25: when [uploadFile] returns, the location of
    the file object is a reference into the file store or a file literal,
    unless the file is a local file that is missing and [skip_broken] is
    set; only the location is changed, and a file whose location is
    uploaded already is left as it is, together with the index and the
    store. *)
Theorem uploadFile_reference
    (uploadfunc : Store -> string -> (exn + string) * Store)
    (st : files Store) (uf : file_object) (skip_broken : bool)
    (uf' : file_object) (st' : files Store) :
  references_only st ->
  uploadFile uploadfunc st uf skip_broken = (Ok tt, uf', st') ->
  references_only st' /\
  file_path uf' = file_path uf /\
  exists location,
    file_location uf' = Some location /\
    (uploaded location = true \/
     skip_broken = true /\ st' = st /\
     startswith "file://" location = true /\
     isfile (slice_from 7 location) = false) /\
    (uploaded location = true ->
     forall skip, uploadFile uploadfunc st' uf' skip = (Ok tt, uf', st')).
Proof.
  intros Hinv Hrun.
  assert (Hagain : forall (u : file_object) l s,
            file_location u = Some l -> uploaded l = true ->
            forall skip, uploadFile uploadfunc s u skip = (Ok tt, u, s)).
  { intros u l s Hl Hu skip. unfold uploadFile. rewrite Hl.
    unfold uploaded in Hu. by rewrite Hu. }
  revert Hrun. unfold uploadFile.
  destruct (file_location uf) as [loc|] eqn:Hloc; [|done].
  destruct (startswith "toilfs:" loc || startswith "_:" loc) eqn:Hup.
  { intros [= <- <-]. split; [done|]. split; [done|].
    exists loc. split; [done|]. split; [by left|]. intros _.
    by apply (Hagain uf loc). }
  destruct (index st !! loc) as [ref|] eqn:Hidx.
  { intros [= <- <-]. split; [done|]. split; [done|].
    exists ref. split; [done|].
    assert (uploaded ref = true).
    { unfold uploaded. destruct Hinv as [Hi _]. by rewrite (Hi _ _ Hidx). }
    split; [by left|]. intros _. by apply (Hagain _ ref). }
  set (from_path := if bool_decide (loc = "") then _ else _).
  destruct from_path as [e|uf1] eqn:Hfrom; [done|].
  assert (Hpath : file_path uf1 = file_path uf /\
                  is_Some (file_location uf1)).
  { unfold from_path in Hfrom. case_bool_decide.
    - destruct (file_path uf) as [p|] eqn:Hp; [|done].
      case_bool_decide; injection Hfrom as <-.
      + split; [done|]. rewrite Hloc. eauto.
      + split; [by simpl|]. simpl. eauto.
    - injection Hfrom as <-. split; [done|]. rewrite Hloc. eauto. }
  destruct Hpath as [Hpath [loc1 Hloc1]]. rewrite Hloc1.
  cbv zeta. simpl default.
  destruct (startswith "file://" loc1 && negb (isfile (slice_from 7 loc1)))
    eqn:Hmissing.
  { destruct skip_broken; [|done]. intros [= <- <-].
    split; [done|]. split; [done|]. exists loc1. split; [done|].
    apply andb_true_iff in Hmissing as [Hfile Hnot].
    apply negb_true_iff in Hnot.
    split; [by right|]. intros Hu. by apply (Hagain _ loc1). }
  destruct (write_file uploadfunc st loc1) as [[ref| |] st1] eqn:Hw;
    cbn [fst snd]; [|done..].
  intros [= <- <-].
  split; [by eapply write_file_keeps_references|]. split; [done|].
  exists ref. split; [done|].
  assert (uploaded ref = true) by (by eapply write_file_result).
  split; [by left|]. intros _. by apply (Hagain _ ref).
Qed.

(** *** CWLJobWrapper *)


(** *** What the tables hold *)

Lemma built_from_refl wf t : built_from wf t t.
Proof. split; auto. Qed.

Lemma built_from_trans wf t1 t2 t3 :
  built_from wf t1 t2 -> built_from wf t2 t3 -> built_from wf t1 t3.
Proof.
  intros [J1 P1] [J2 P2]. split.
  - intros id u [H|H]%J2; [by apply J1|by right].
  - intros s p [H|H]%P2; [by apply P1|by right].
Qed.

Lemma registered_lookup (p : gmap string producer) (outs : list port)
    (v v' : producer) (s : string) :
  foldl (fun p out => <[port_id out := v]> p) p outs !! s = Some v' ->
  p !! s = Some v' \/ v' = v /\ exists out, out ∈ outs /\ port_id out = s.
Proof.
  revert p. induction outs as [|out outs IH]; intros p; simpl; [by left|].
  intros [H|[-> (o & Ho & Hs)]]%IH.
  - destruct (decide (port_id out = s)) as [E|Hne].
    + rewrite <- E, lookup_insert_eq in H. injection H as <-.
      right. split; [done|]. exists out. split; [by left|done].
    + rewrite lookup_insert_ne in H by done. by left.
  - right. split; [done|]. exists o. split; [by right|done].
Qed.

Lemma schedule_built_from wf t st log t' :
  st ∈ wf_steps wf -> schedule wf t st = (log, Ok t') -> built_from wf t t'.
Proof.
  intros Hst (jobobj & _ & ->)%schedule_inv. split; simpl.
  - intros id u. destruct (decide (step_id st = id)) as [<-|Hne].
    + rewrite lookup_insert_eq. intros [= <-]. right. by exists st.
    + rewrite lookup_insert_ne by done. by left.
  - intros s p [H|[-> (out & Hout & Hs)]]%registered_lookup; [by left|].
    right. by exists st, out.
Qed.

Lemma schedule_producers wf t st log t' :
  producers_scheduled t -> schedule wf t st = (log, Ok t') ->
  producers_scheduled t'.
Proof.
  intros Hinv (jobobj & _ & ->)%schedule_inv s id. simpl.
  intros [H|[[= ->] _]]%registered_lookup.
  - destruct (decide (step_id st = id)) as [<-|Hne].
    + rewrite lookup_insert_eq. eauto.
    + rewrite lookup_insert_ne by done. by eapply Hinv.
  - rewrite lookup_insert_eq. eauto.
Qed.

Lemma visit_steps_built_from wf steps acc log r :
  (forall st, st ∈ steps -> st ∈ wf_steps wf) ->
  foldM (visit_step wf) acc steps = (log, Ok r) ->
  built_from wf acc.1 r.1 /\
  (producers_scheduled acc.1 -> producers_scheduled r.1).
Proof.
  revert acc log. induction steps as [|st steps IH]; intros acc log Hsub;
    simpl.
  - intros [_ <-]%ret_Ok_inv. split; [apply built_from_refl|done].
  - intros (l1 & acc' & l2 & Hv & Hrest & _)%bind_Ok_inv.
    destruct (IH _ _ ltac:(intros; apply Hsub; by right) Hrest) as [Hb Hp].
    destruct (visit_step_tables _ _ _ _ _ Hv) as [[Heq _]|(_ & _ & Hs)].
    + rewrite <- Heq. by split.
    + split.
      * eapply built_from_trans; [|exact Hb].
        eapply schedule_built_from; [|exact Hs]. apply Hsub. by left.
      * intros Hinv. apply Hp. by eapply schedule_producers.
Qed.

Lemma pass_built_from wf t log t' ok :
  pass wf t = (log, Ok (t', ok)) ->
  built_from wf t t' /\ (producers_scheduled t -> producers_scheduled t').
Proof.
  intros (flag & Hv & _)%pass_inv.
  by apply (visit_steps_built_from wf (wf_steps wf) (t, true) [] (t', flag)).
Qed.

Lemma unroll_built_from fuel wf t log t' :
  unroll fuel wf t = (log, Ok t') ->
  built_from wf t t' /\ (producers_scheduled t -> producers_scheduled t').
Proof.
  revert t log. induction fuel as [|fuel IH]; intros t log; [done|].
  intros (t1 & ok & Hp & Hrest)%unroll_inv.
  apply pass_built_from in Hp as [Hb Hs]. destruct ok.
  - destruct Hrest as [_ ->]. by split.
  - apply IH in Hrest as [Hb' Hs']. split; [|auto].
    by eapply built_from_trans.
Qed.

(** X5: what the loop adds to the two tables comes
    from the steps of the workflow and from nothing else.  An entry of
    [jobs] is the one the table had under that key before the loop, or
    its key is the id of a step; a new promise is the follow-on of a
    step, under the id of one of its outputs; and a follow-on that is
    promised belongs to a step that has its entry in [jobs]. *)
Theorem unroll_adds_steps_only (fuel : nat) (wf : workflow) (t : tables)
    (log : list event) (t' : tables) :
  unroll fuel wf t = (log, Ok t') ->
  built_from wf t t' /\ (producers_scheduled t -> producers_scheduled t').
Proof. apply unroll_built_from. Qed.

(** *** The outputs of a workflow *)

Lemma ResolveSource_init_Ok {P} name input key (promises : gmap string P)
    log rs :
  ResolveSource_init name input key promises = (log, Ok rs) ->
  rs_name rs = name /\ rs_input rs = input /\ rs_source_key rs = key /\
  exists src, port_get input key = Some src /\
              forall s, s ∈ aslist src -> is_Some (promises !! s).
Proof.
  unfold ResolveSource_init, port_getitem.
  destruct (port_get input key) as [src|]; [|done].
  rewrite bind_ret_nil.
  destruct (truthy_str (port_linkMerge input) || _) eqn:Hc.
  - intros (l1 & l & l2 & Hl & Hret & _)%bind_Ok_inv.
    apply ret_Ok_inv in Hret as [_ <-]. do 3 (split; [done|]).
    exists src. split; [done|]. intros s Hs.
    apply mapM_Forall2 in Hl.
    apply list_elem_of_lookup in Hs as [i Hi].
    destruct (Forall2_lookup_l _ _ _ _ _ Hl Hi) as (y & _ & lg & Hy).
    unfold promises_getitem in Hy. by destruct (promises !! s).
  - apply orb_false_iff in Hc as [_ Hlen].
    destruct (aslist src) as [|s [|s' l]] eqn:Hsrc; [done| |done].
    intros (l1 & p & l2 & Hp & Hret & _)%bind_Ok_inv.
    apply ret_Ok_inv in Hret as [_ <-]. do 3 (split; [done|]).
    exists src. split; [done|]. rewrite Hsrc.
    intros s0 ->%list_elem_of_singleton.
    unfold promises_getitem in Hp. by destruct (promises !! s).
Qed.

Lemma outputs_built (promises : gmap string producer)
    (outs : list port) (acc : adict (indirect producer)) log outobj :
  foldM (fun outobj out =>
           let key := shortname (port_id out) in
           rs ← ResolveSource_init
                  ("Workflow output '" +:+ key +:+ "'") out
                  KOutputSource promises;
           mret (dict_set key (IResolveSource rs) outobj)) acc outs
  = (log, Ok outobj) ->
  (forall out, out ∈ outs ->
     exists src, port_outputSource out = Some src /\
                 forall s, s ∈ aslist src -> is_Some (promises !! s)) /\
  (forall k, is_Some (dict_get k outobj) <->
             is_Some (dict_get k acc) \/
             k ∈ map (fun out => shortname (port_id out)) outs) /\
  (forall k x, dict_get k outobj = Some x ->
     dict_get k acc = Some x \/
     exists out rs, out ∈ outs /\ k = shortname (port_id out) /\
                    x = IResolveSource rs /\ rs_input rs = out /\
                    rs_source_key rs = KOutputSource).
Proof.
  revert acc log. induction outs as [|out outs IH]; intros acc log; simpl.
  - intros [_ <-]%ret_Ok_inv. split; [|split].
    + intros out H. by apply elem_of_nil in H.
    + intros k. split; [by left|]. intros [H|H]; [done|].
      by apply elem_of_nil in H.
    + intros k x H. by left.
  - intros (l1 & acc' & l2 & Hone & Hrest & _)%bind_Ok_inv.
    apply bind_Ok_inv in Hone as (l3 & rs & l4 & Hrs & Hret & _).
    apply ret_Ok_inv in Hret as [_ <-].
    apply ResolveSource_init_Ok in Hrs
      as (_ & Hinput & Hkey & src & Hsrc & Hall).
    destruct (IH _ _ Hrest) as (IH1 & IH2 & IH3). split; [|split].
    + intros out' [->|Hin]%elem_of_cons; [eauto|auto].
    + intros k. rewrite IH2, dict_get_set. case_decide as E.
      * subst k. split; [intros _; right; by left|eauto].
      * split.
        -- intros [H|H]; [by left|right; by right].
        -- intros [H|[H|H]%elem_of_cons]; [by left|done|by right].
    + intros k x [H|(o & r & Ho & Hk & Hx & Hr1 & Hr2)]%IH3.
      * rewrite dict_get_set in H. case_decide as E; [|by left].
        injection H as <-. right. exists out, rs.
        split; [by left|]. by repeat split.
      * right. exists o, r. split; [by right|]. by repeat split.
Qed.

Lemma inputs_promised_keys (inputs : list port) (s : string) p :
  foldl (fun p inp => <[port_id inp := SelfJob]> p)
        (∅ : gmap string producer) inputs !! s = Some p ->
  p = SelfJob /\ s ∈ map port_id inputs.
Proof.
  intros [H|[-> (inp & Hinp & <-)]]%registered_lookup.
  - by rewrite lookup_empty in H.
  - split; [done|]. by apply list_elem_of_fmap_2.
Qed.

(** X7: when [CWLWorkflow.run] returns the
    outputs of a workflow that ran, there is one entry for each workflow
    output, under its short name and nothing else, a [ResolveSource] over
    its [outputSource]; every workflow output has an [outputSource], and
    every parameter named there is a workflow input or the output of a
    step. *)
Theorem CWLWorkflow_run_outputs (fuel : nat) (wf : workflow)
    (cwljob : pdict dict) (conditional : Conditional) (log : list event)
    (outobj : adict (indirect producer)) :
  CWLWorkflow_run fuel wf cwljob conditional
  = (log, Ok (IndirectDict outobj)) ->
  (forall out, out ∈ wf_outputs wf ->
     exists src, port_outputSource out = Some src /\
       forall s, s ∈ aslist src ->
                 s ∈ map port_id (wf_inputs wf) \/ s ∈ step_output_ids wf) /\
  (forall k, is_Some (dict_get k outobj) <->
             k ∈ map (fun out => shortname (port_id out)) (wf_outputs wf)) /\
  (forall k x, dict_get k outobj = Some x ->
     exists out rs, out ∈ wf_outputs wf /\ k = shortname (port_id out) /\
                    x = IResolveSource rs /\ rs_input rs = out /\
                    rs_source_key rs = KOutputSource).
Proof.
  unfold CWLWorkflow_run.
  intros (l1 & resolved & l2 & _ & H & _)%bind_Ok_inv.
  apply bind_Ok_inv in H as (l3 & skip & l4 & _ & H & _).
  destruct skip; [done|].
  apply bind_Ok_inv in H as (l5 & t & l6 & Hloop & H & _).
  apply bind_Ok_inv in H as (l7 & outobj' & l8 & Hout & Hret & _).
  apply ret_Ok_inv in Hret as [_ [= ->]].
  apply outputs_built in Hout as (H1 & H2 & H3).
  apply unroll_built_from in Hloop as [[_ Hprom] _]. simpl in Hprom.
  split; [|split].
  - intros out [src [Hsrc Hall]]%H1. exists src. split; [done|].
    intros s [p Hp]%Hall.
    apply Hprom in Hp as [Hp|(st & o & Hst & Ho & <- & _)].
    + left. by apply inputs_promised_keys in Hp as [_ ?].
    + right. unfold step_output_ids.
      apply list_elem_of_In, in_concat.
      exists (map port_id (step_outputs st)).
      split; apply list_elem_of_In.
      * by apply (list_elem_of_fmap_2
                    (fun st => map port_id (step_outputs st))).
      * by apply list_elem_of_fmap_2.
  - intros k. rewrite H2. simpl. split; [|by right].
    intros [[x Hx]|H]; [done|done].
  - intros k x [H|H]%H3; [done|done].
Qed.

End Cwltoil.

(** ** Witnesses and counterexamples *)

(** C1, counterexample: on the two-step cycle the loop never ends, with an
    error or otherwise, and so does [CWLWorkflow.run]. *)
Lemma cyclic_workflow_never_exits :
  ~ (exists fuel,
       (unroll shortname_impl fuel cyclic_workflow empty_tables).2 <> OutOfFuel
       \/ (CWLWorkflow_run shortname_impl param_eval fuel cyclic_workflow
             (PlainDict []) no_condition).2 <> OutOfFuel).
Proof.
  assert (Hloop : forall fuel,
    unroll shortname_impl fuel cyclic_workflow empty_tables = ([], OutOfFuel)).
  { apply unroll_fixpoint. vm_compute. reflexivity. }
  intros [fuel [H|H]]; apply H.
  - by rewrite Hloop.
  - unfold CWLWorkflow_run. simpl.
    change (foldl _ ∅ (wf_inputs cyclic_workflow)) with (∅ : gmap string producer).
    fold empty_tables. by rewrite Hloop.
Qed.

(** C1, witness: the outputs of A and B deadlock the two-step cycle from
    the start; a pass changes nothing and five passes do not end the loop. *)
Lemma unroll_has_no_deadlock_detection_witness :
  deadlocked cyclic_workflow empty_tables {[ "#main/A/out"; "#main/B/out" ]} /\
  (unroll shortname_impl 5 cyclic_workflow empty_tables).2 <> Ok empty_tables /\
  (pass shortname_impl cyclic_workflow empty_tables).2
    = Ok (empty_tables, false) /\
  unroll shortname_impl 5 cyclic_workflow empty_tables = ([], OutOfFuel).
Proof.
  assert (Hdead : deadlocked cyclic_workflow empty_tables
                    {[ "#main/A/out"; "#main/B/out" ]}).
  { split; [|split].
    - exists step_A. split; [by left|].
      exists (sourced_port "#main/A/x" (One "#main/B/out")), "#main/B/out".
      split; [by left|]. split; [by left|set_solver].
    - intros st Hst _. apply elem_of_cons in Hst as [->|Hst].
      + exists (sourced_port "#main/A/x" (One "#main/B/out")), "#main/B/out".
        split; [by left|]. split; [by left|set_solver].
      + apply list_elem_of_singleton in Hst as ->.
        exists (sourced_port "#main/B/x" (One "#main/A/out")), "#main/A/out".
        split; [by left|]. split; [by left|set_solver].
    - intros s _. apply lookup_empty. }
  destruct (unroll_has_no_deadlock_detection shortname_impl cyclic_workflow
              empty_tables) as [Hcycle Hstuck].
  split; [done|]. split; [by apply (Hcycle _ Hdead)|].
  split; [vm_compute; reflexivity|].
  destruct (Hstuck empty_tables false) as (_ & H & _);
    [vm_compute; reflexivity|reflexivity|].
  by apply H.
Defined.

(** C5, witness: no expression, a false flag and a flag that is not a
    boolean; the flag is found under its short name when the job object
    has it under the full id of the input. *)
Lemma is_false_gate_witness :
  is_false shortname_impl param_eval no_condition [("flag", VBool false)]
    = ([], Ok false) /\
  is_false shortname_impl param_eval flag_gate [("flag", VBool false)]
    = ([], Ok true) /\
  is_false shortname_impl param_eval flag_gate [("flag", VInt 0)]
    = ([], Raise (WorkflowException
                    "'$(inputs.flag)' evaluated to a non-boolean value")) /\
  is_false shortname_impl param_eval flag_gate
           [("#main/step/flag", VBool false); ("#main/step/n", VInt 3)]
    = ([], Ok true) /\
  short_keys shortname_impl
             [("#main/step/flag", VBool false); ("#main/step/n", VInt 3)]
    = [("flag", VBool false); ("n", VInt 3)].
Proof.
  split; [|split; [|split; [|split]]].
  - apply (is_false_gate shortname_impl param_eval no_condition). reflexivity.
  - apply (proj1 (proj2 (is_false_gate shortname_impl param_eval flag_gate
                           [("flag", VBool false)]))
                 "$(inputs.flag)" (VBool false));
      reflexivity.
  - apply (proj1 (proj2 (is_false_gate shortname_impl param_eval flag_gate
                           [("flag", VInt 0)]))
                 "$(inputs.flag)" (VInt 0));
      reflexivity.
  - apply (proj1 (proj2 (is_false_gate shortname_impl param_eval flag_gate
                           [("#main/step/flag", VBool false);
                            ("#main/step/n", VInt 3)]))
                 "$(inputs.flag)" (VBool false));
      reflexivity.
  - apply (proj2 (proj2 (proj2
             (is_false_gate shortname_impl param_eval flag_gate
                [("#main/step/flag", VBool false);
                 ("#main/step/n", VInt 3)])))).
    compute_done.
Defined.



(** C10, witness: the source resolves to 0, so the default 5 is returned. *)
Lemma DefaultWithSource_resolve_falsy_witness :
  resolve (IResolveSource zero_source) = ([], Ok (VInt 0)) /\
  resolve (IDefaultWithSource (VInt 5) (Some (IResolveSource zero_source)))
    = ([], Ok (VInt 5)).
Proof.
  split; [reflexivity|].
  apply (DefaultWithSource_resolve_falsy (VInt 5) (IResolveSource zero_source)
           [] (VInt 0)).
  reflexivity.
Defined.

(** C4, counterexample: one source, no linkMerge.  With
    [pickValue: first_non_null] the source's array [[null, 5]] comes back
    as [5]; and a source that holds a [SkipNull] comes back as null. *)
Lemma single_source_value_is_processed :
  port_get picky_port KSource = Some (One "#main/s/out") /\
  port_linkMerge picky_port = None /\
  array_result !! "#main/s/out" = Some [("out", VList [VNone; VInt 5])] /\
  ResolveSource_init shortname_impl "#main/t/x" picky_port KSource
    array_result ≫= ResolveSource_resolve
  = ([], Ok (VInt 5)) /\
  skipped_result !! "#main/s/out" = Some [("out", VSkipNull)] /\
  ResolveSource_init shortname_impl "#main/t/x"
    (sourced_port "#main/t/x" (One "#main/s/out")) KSource skipped_result
    ≫= ResolveSource_resolve
  = ([Warning (skip_warning "#main/t/x")], Ok VNone).
Proof. repeat split; vm_compute; reflexivity. Qed.

(** C4, witness: one plain source comes back as it is; two sources come
    back as the list of both. *)
Lemma resolve_single_source_unwrapped_witness :
  ResolveSource_init shortname_impl "#main/t/x"
    (sourced_port "#main/t/x" (One "#main/s/out")) KSource two_results
    ≫= ResolveSource_resolve
  = ([], Ok (VInt 1)) /\
  ResolveSource_init shortname_impl "#main/t/x" two_sources_port KSource
    two_results ≫= ResolveSource_resolve
  = ([], Ok (VList [VInt 1; VInt 2])).
Proof.
  split.
  - destruct (resolve_single_source_unwrapped shortname_impl "#main/t/x"
                (sourced_port "#main/t/x" (One "#main/s/out")) KSource
                two_results (One "#main/s/out") eq_refl) as [H _].
    apply (H "#main/s/out" [("out", VInt 1)]); reflexivity.
  - destruct (resolve_single_source_unwrapped shortname_impl "#main/t/x"
                two_sources_port KSource two_results
                (Many ["#main/s/out"; "#main/u/out"]) eq_refl) as [_ H].
    rewrite (H [VInt 1; VInt 2]); [reflexivity|right; simpl; lia|].
    repeat constructor.
    + exists [("out", VInt 1)]. split; reflexivity.
    + exists [("out", VInt 2)]. split; reflexivity.
Defined.

(** C9, counterexample: one scattered port and a scatterMethod that is none
    of the three policies; no validation error, the dotproduct loop runs. *)
Lemma unknown_method_with_one_port_runs :
  step_scatterMethod
    (scatter_step (One "#main/step/x") (Some "bogus") xy_inputs)
  = Some "bogus" /\
  CWLScatter_run shortname_impl param_eval
    (scatter_step (One "#main/step/x") (Some "bogus") xy_inputs)
    (PlainDict xy_job)
  = ([AddChild CWLJob [("x", VInt 1); ("y", VList [VInt 7; VInt 8; VInt 9])];
      AddChild CWLJob [("x", VInt 2); ("y", VList [VInt 7; VInt 8; VInt 9])]],
     Ok [RvOf [("x", VInt 1); ("y", VList [VInt 7; VInt 8; VInt 9])];
         RvOf [("x", VInt 2); ("y", VList [VInt 7; VInt 8; VInt 9])]]).
Proof. split; vm_compute; reflexivity. Qed.

(** C9, witness: two scattered ports with no scatterMethod, and with an
    unknown one. *)
Lemma scatter_validation_error_witness :
  (exists msg,
     (CWLScatter_run shortname_impl param_eval
        (scatter_step (Many ["#main/step/x"; "#main/step/y"]) None xy_inputs)
        (PlainDict xy_job)).2
     = Raise (ValidationException msg)) /\
  (exists msg,
     (CWLScatter_run shortname_impl param_eval
        (scatter_step (Many ["#main/step/x"; "#main/step/y"])
                      (Some "bogus") xy_inputs)
        (PlainDict xy_job)).2
     = Raise (ValidationException msg)).
Proof.
  split.
  - apply (scatter_validation_error shortname_impl param_eval
             (scatter_step (Many ["#main/step/x"; "#main/step/y"]) None
                           xy_inputs)
             (PlainDict xy_job) [] xy_job
             (Many ["#main/step/x"; "#main/step/y"]) eq_refl eq_refl).
    split; [simpl; lia|]. repeat split; discriminate.
  - apply (scatter_validation_error shortname_impl param_eval
             (scatter_step (Many ["#main/step/x"; "#main/step/y"])
                           (Some "bogus") xy_inputs)
             (PlainDict xy_job) [] xy_job
             (Many ["#main/step/x"; "#main/step/y"]) eq_refl eq_refl).
    split; [simpl; lia|]. repeat split; discriminate.
Defined.




(** C2, witness: first_non_null over [[null, Skipped, 5, 6]]. *)
Lemma pick_value_policies_witness :
  pick_value picky_port "#main/t/x" (VList [VNone; VSkipNull; VInt 5; VInt 6])
  = ([], Ok (VInt 5)).
Proof.
  destruct (pick_value_policies picky_port "#main/t/x"
              [VNone; VSkipNull; VInt 5; VInt 6]) as (_ & _ & H & _).
  exact (H eq_refl).
Defined.

(** C3, witness: merge_flattened of [[[1, 2], 3]]. *)
Lemma link_merge_policies_witness :
  link_merge flattening_port "#main/t/x" [VList [VInt 1; VInt 2]; VInt 3]
  = ([], Ok (VList [VInt 1; VInt 2; VInt 3])).
Proof.
  destruct (link_merge_policies flattening_port "#main/t/x"
              [VList [VInt 1; VInt 2]; VInt 3]) as (_ & H & _).
  exact (H eq_refl).
Defined.

(** X1, witness: the chain of two steps is unrolled in two passes; both
    steps have their job. *)
Lemma unroll_exit_all_scheduled_witness :
  (unroll shortname_impl 2 chain_workflow chain_tables).1 = [] /\
  is_Some (jobs (match (unroll shortname_impl 2 chain_workflow
                          chain_tables).2 with
                 | Ok t' => t'
                 | _ => empty_tables
                 end) !! "#main/second").
Proof.
  destruct (unroll shortname_impl 2 chain_workflow chain_tables)
    as [log [t'| |]] eqn:H; try (vm_compute in H; discriminate).
  split; [by vm_compute in H; injection H as <- _|].
  destruct (proj1 (unroll_exit_all_scheduled shortname_impl 2 chain_workflow
                     chain_tables log t' H) second_step) as [Hjob _];
    [by left|exact Hjob].
Defined.

(** X2, witness: the chain needs two passes; three give the same. *)
Lemma unroll_bounded_witness :
  (unroll shortname_impl 2 chain_workflow chain_tables).2 <> OutOfFuel /\
  unroll shortname_impl 3 chain_workflow chain_tables
  = unroll shortname_impl 2 chain_workflow chain_tables.
Proof.
  split; [by vm_compute|].
  apply (unroll_bounded shortname_impl chain_workflow chain_tables 2).
  by vm_compute.
Defined.

(** X3, witness: the workflow input of the chain keeps its promise. *)
Lemma unroll_never_reschedules_witness :
  is_Some (promises (match (unroll shortname_impl 2 chain_workflow
                              chain_tables).2 with
                     | Ok t' => t'
                     | _ => empty_tables
                     end) !! "#main/in").
Proof.
  destruct (unroll shortname_impl 2 chain_workflow chain_tables)
    as [log [t'| |]] eqn:H; try (vm_compute in H; discriminate).
  apply (proj2 (unroll_never_reschedules shortname_impl 2 chain_workflow
                  chain_tables log t' H)).
  by eexists.
Defined.

(** X4, witness: the chain, in the order [first], [second]. *)
Lemma unroll_exits_in_dataflow_order_witness :
  exists t', unroll shortname_impl 3 chain_workflow chain_tables
             = ([], Ok t') /\
             forall st, st ∈ wf_steps chain_workflow ->
                        is_Some (jobs t' !! step_id st).
Proof.
  apply (unroll_exits_in_dataflow_order shortname_impl chain_workflow
           [first_step; second_step] chain_tables).
  - compute_done.
  - apply perm_swap.
  - by vm_compute.
  - intros st inp Hst Hinp Hsrc.
    repeat (apply elem_of_cons in Hst as [->|Hst]);
      try (by apply elem_of_nil in Hst);
      simpl in Hinp; apply list_elem_of_singleton in Hinp as ->;
      discriminate.
  - intros out src Hout Hsrc. simpl in Hout.
    apply list_elem_of_singleton in Hout as ->. discriminate.
  - reflexivity.
Defined.

(** X6, witness: the first step of the chain gets
    its job object; the step with [source: []] raises. *)
Lemma ready_step_job_object_witness :
  (exists jobobj,
     build_jobobj shortname_impl chain_workflow first_step
                  (promises chain_tables) = ([], Ok jobobj)) /\
  build_jobobj shortname_impl chain_workflow unnamed_step ∅
  = ([], Raise IndexError).
Proof.
  split.
  - apply (ready_step_job_object shortname_impl chain_workflow first_step
             (promises chain_tables)).
    by vm_compute.
  - apply (ready_step_job_object shortname_impl chain_workflow unnamed_step
             ∅).
    reflexivity.
Defined.

(** X8, witness: the output of a skipped
    producer arrives as null, with a warning. *)
Lemma ResolveSource_resolve_no_skip_witness :
  ResolveSource_resolve skipped_source
  = ([Warning (skip_warning "#main/t/x")], Ok VNone) /\
  has_skip VNone = false /\
  only_warnings [Warning (skip_warning "#main/t/x")].
Proof.
  split; [reflexivity|].
  apply (ResolveSource_resolve_no_skip skipped_source
           [Warning (skip_warning "#main/t/x")] VNone).
  reflexivity.
Defined.

(** X9, witness: no [out] among the producer's
    outputs. *)
Lemma missing_output_key_witness :
  (exists log,
     ResolveSource_resolve
       (MkResolveSource "#main/t/x" two_sources_port KSource
                        (OneTuple ("out", [("other", VInt 1)])))
     = (log, Ok VNone) /\ only_warnings log) /\
  ResolveSource_resolve
    (MkResolveSource "#main/t/x" two_sources_port KSource
       (TupleList [("n", [("n", VInt 0)]); ("out", [("other", VInt 1)])]))
  = ([], Raise (KeyError "out")).
Proof.
  destruct (missing_output_key "#main/t/x" two_sources_port KSource "out"
              [("other", VInt 1)] eq_refl) as [Hone Hlist].
  split; [exact Hone|].
  apply (Hlist [("n", [("n", VInt 0)])] []).
  repeat constructor. by eexists.
Defined.

(** X10, witness: [y] is evaluated over the
    first-pass value of [x]. *)
Lemma resolve_indirect_two_passes_witness :
  resolve_indirect param_eval (IndirectDict valueFrom_jobobj)
  = ([], Ok [("x", VInt 1); ("y", VInt 1)]) /\
  dict_keys [("x", VInt 1); ("y", VInt 1)] = dict_keys valueFrom_jobobj.
Proof.
  split; [reflexivity|].
  apply (resolve_indirect_two_passes param_eval valueFrom_jobobj []
           [("x", VInt 1); ("y", VInt 1)]).
  reflexivity.
Defined.

(** X11, witness: the key [extra] is dropped
    before the tool runs. *)
Lemma CWLJob_run_executes_declared_witness :
  CWLJob_run shortname_impl param_eval no_defaults echo_executor
             undeclared_job
  = ([Execute [("n", VInt 3)]], Ok [("n", VInt 3)]) /\
  exists l1 resolved filled,
    resolve_indirect param_eval (job_cwljob undeclared_job)
    = (l1, Ok resolved) /\
    no_defaults (job_step_inputs undeclared_job) resolved = inr filled /\
    [("n", VInt 3)]
    = filter (fun kv => kv.1 ∈ job_fields undeclared_job) filled.
Proof.
  split; [by vm_compute|].
  destruct (CWLJob_run_executes_declared shortname_impl param_eval
              no_defaults echo_executor undeclared_job
              [Execute [("n", VInt 3)]] (Ok [("n", VInt 3)])
              [("n", VInt 3)])
    as (l1 & resolved & filled & H1 & H2 & H3 & _).
  - by vm_compute.
  - by left.
  - exists l1, resolved, filled. by repeat split.
Defined.


(** X15, witness: two sub-jobs, the first returned
    [out] and a key that is not declared. *)
Lemma gather_keeps_nesting_witness :
  dict_get "out"
    (CWLGather_run shortname_impl (scatter_step (One "#main/step/x") None [])
       (VList [VDict [("out", VInt 1); ("extra", VInt 0)];
               VDict [("out", VSkipNull)]]))
  = Some (VList [VInt 1; VSkipNull]).
Proof.
  apply (gather_keeps_nesting shortname_impl
           (scatter_step (One "#main/step/x") None []) two_promises
           sub_job_outputs "out").
  by left.
Defined.

(** X16, witness: the second sub-job was skipped. *)
Lemma gather_of_skipped_witness :
  dict_get "out"
    (CWLGather_run shortname_impl (scatter_step (One "#main/step/x") None [])
       (VList (map (fulfilled (fun jo => VDict (sub_job_outputs jo)))
                   two_promises)))
  = Some (VList [VInt 1; VSkipNull]).
Proof.
  apply (gather_of_skipped shortname_impl
           (scatter_step (One "#main/step/x") None [])
           (MkConditional (Some "$(inputs.flag)")
                          [OutString "#main/step/out"] [])
           two_promises sub_job_outputs second_skipped "out").
  - reflexivity.
  - intros jo Hjo. unfold sub_job_outputs. by rewrite Hjo.
  - by left.
Defined.

(** X17, witness: no sub-job returned [log]. *)
Lemma extract_absent_key_witness :
  hollow (extract (VList [VDict [("out", VInt 1)]; VList [VDict []]]) "log")
  = true.
Proof.
  apply (extract_absent_key
           (VList [VDict [("out", VInt 1)]; VList [VDict []]]) "log").
  by vm_compute.
Defined.

(** X20, witness: the [@id] of the file in the
    list is still there. *)
Lemma remove_at_id_skips_lists_witness :
  exists d',
    remove_at_id (VDict provenance_doc) = VDict d' /\
    dict_get "files" d'
    = Some (VList [VDict [("@id", VStr "c"); ("class", VStr "File")]]).
Proof.
  apply (remove_at_id_skips_lists provenance_doc "files").
  - discriminate.
  - reflexivity.
Defined.

(** X22, witness: a new file gets a reference. *)
Lemma write_file_reference_witness :
  write_file no_scheme same_path keep_paths no_files "/data/a.txt"
  = (Ok "toilfs:/data/a.txt",
     MkFiles {[ "/data/a.txt" := "toilfs:/data/a.txt" ]}
             {[ "toilfs:/data/a.txt" := "/data/a.txt" ]}
             ["/data/a.txt"] []) /\
  startswith "toilfs:" "toilfs:/data/a.txt" = true.
Proof.
  assert (H : write_file no_scheme same_path keep_paths no_files "/data/a.txt"
              = (Ok "toilfs:/data/a.txt",
                 MkFiles {[ "/data/a.txt" := "toilfs:/data/a.txt" ]}
                         {[ "toilfs:/data/a.txt" := "/data/a.txt" ]}
                         ["/data/a.txt"] [])) by reflexivity.
  split; [exact H|].
  destruct (write_file_reference no_scheme same_path keep_paths no_files
              "/data/a.txt" "toilfs:/data/a.txt" _
              ltac:(split; intros ? ? Hin; simpl in Hin; by rewrite lookup_empty in Hin) H)
    as [_ [Href|[Heq _]]]; [exact Href|discriminate].
Defined.

(** X23, witness: the second call for the file
    writes nothing: the store holds the path once. *)
Lemma write_file_writes_once_witness :
  write_file no_scheme same_path keep_paths
    (MkFiles {[ "/data/a.txt" := "toilfs:/data/a.txt" ]}
             {[ "toilfs:/data/a.txt" := "/data/a.txt" ]}
             ["/data/a.txt"] []) "/data/a.txt"
  = (Ok "toilfs:/data/a.txt",
     MkFiles {[ "/data/a.txt" := "toilfs:/data/a.txt" ]}
             {[ "toilfs:/data/a.txt" := "/data/a.txt" ]}
             ["/data/a.txt"] []).
Proof.
  apply (write_file_writes_once no_scheme same_path keep_paths no_files
           "/data/a.txt").
  reflexivity.
Defined.

(** X24, witness: the file fetched as
    [toilfs:abc] is read to [/tmp/abc]; writing [/tmp/abc] answers
    [toilfs:abc] and the store stays empty. *)
Lemma toil_get_file_round_trip_witness :
  toil_get_file plain_file_uri read_to_tmp public_url no_files "toilfs:abc"
  = (Ok "file:///tmp/abc",
     MkFiles {[ "/tmp/abc" := "toilfs:abc" ]} {[ "toilfs:abc" := "/tmp/abc" ]}
             [] []) /\
  exists src_path,
    "file:///tmp/abc" = plain_file_uri src_path /\
    (uploaded src_path = false ->
     write_file no_scheme same_path keep_paths
       (MkFiles {[ "/tmp/abc" := "toilfs:abc" ]}
                {[ "toilfs:abc" := "/tmp/abc" ]} [] []) src_path
     = (Ok "toilfs:abc",
        MkFiles {[ "/tmp/abc" := "toilfs:abc" ]}
                {[ "toilfs:abc" := "/tmp/abc" ]} [] [])).
Proof.
  split; [reflexivity|].
  destruct (toil_get_file_round_trip no_scheme same_path plain_file_uri
              read_to_tmp public_url keep_paths no_files "toilfs:abc"
              "file:///tmp/abc"
              (MkFiles {[ "/tmp/abc" := "toilfs:abc" ]}
                       {[ "toilfs:abc" := "/tmp/abc" ]} [] []))
    as [_ (src_path & Huri & _ & _ & Hback)].
  - split; intros ? ? Hin; simpl in Hin; by rewrite lookup_empty in Hin.
  - reflexivity.
  - reflexivity.
  - exists src_path. by split.
Defined.

(** X25, witness: a file that is there is uploaded;
    a file that is missing is passed over when [skip_broken] is set. *)
Lemma uploadFile_reference_witness :
  uploadFile no_scheme same_path one_file plain_file_uri keep_paths no_files
    (MkFile (Some "") (Some "/data/a.txt")) false
  = (Ok tt, MkFile (Some "toilfs:file:///data/a.txt") (Some "/data/a.txt"),
     MkFiles {[ "file:///data/a.txt" := "toilfs:file:///data/a.txt" ]}
             {[ "toilfs:file:///data/a.txt" := "file:///data/a.txt" ]}
             ["file:///data/a.txt"] []) /\
  uploadFile no_scheme same_path one_file plain_file_uri keep_paths no_files
    (MkFile (Some "file:///data/b.txt") None) true
  = (Ok tt, MkFile (Some "file:///data/b.txt") None, no_files) /\
  exists location,
    Some "file:///data/b.txt" = Some location /\
    (uploaded location = true \/
     true = true /\ no_files = no_files /\
     startswith "file://" location = true /\
     one_file (slice_from 7 location) = false).
Proof.
  split; [reflexivity|]. split; [reflexivity|].
  destruct (uploadFile_reference no_scheme same_path one_file plain_file_uri
              keep_paths no_files (MkFile (Some "file:///data/b.txt") None)
              true (MkFile (Some "file:///data/b.txt") None) no_files)
    as (_ & _ & location & Hloc & Hcase & _).
  - split; intros ? ? Hin; simpl in Hin; by rewrite lookup_empty in Hin.
  - reflexivity.
  - exists location. by split.
Defined.


(** X5, witness: in the tables of the chain every
    promised follow-on has its job. *)
Lemma unroll_adds_steps_only_witness :
  producers_scheduled
    (match (unroll shortname_impl 2 chain_workflow chain_tables).2 with
     | Ok t' => t'
     | _ => empty_tables
     end).
Proof.
  destruct (unroll shortname_impl 2 chain_workflow chain_tables)
    as [log [t'| |]] eqn:H; try (vm_compute in H; discriminate).
  apply (proj2 (unroll_adds_steps_only shortname_impl 2 chain_workflow
                  chain_tables log t' H)).
  intros s id Hs. simpl in Hs.
  apply lookup_singleton_Some in Hs as [_ Hs]. discriminate.
Defined.

(** X7, witness: the output of the chain draws on
    the output of its second step. *)
Lemma CWLWorkflow_run_outputs_witness :
  CWLWorkflow_run shortname_impl param_eval 3 chain_workflow (PlainDict [])
                  no_condition
  = ([], Ok (IndirectDict
       [("result",
         IResolveSource
           (MkResolveSource "Workflow output 'result'"
              (Port "#main/result" None (Some (One "#main/second/out"))
                    None None None None)
              KOutputSource (OneTuple ("out", FollowOn "#main/second"))))])) /\
  "#main/second/out" ∈ step_output_ids chain_workflow.
Proof.
  assert (H : CWLWorkflow_run shortname_impl param_eval 3 chain_workflow
                (PlainDict []) no_condition
              = ([], Ok (IndirectDict
       [("result",
         IResolveSource
           (MkResolveSource "Workflow output 'result'"
              (Port "#main/result" None (Some (One "#main/second/out"))
                    None None None None)
              KOutputSource (OneTuple ("out", FollowOn "#main/second"))))])))
    by (vm_compute; reflexivity).
  split; [exact H|].
  destruct (CWLWorkflow_run_outputs shortname_impl param_eval 3
              chain_workflow (PlainDict []) no_condition [] _ H)
    as (Hsrc & _).
  destruct (Hsrc (Port "#main/result" None (Some (One "#main/second/out"))
                       None None None None) ltac:(by left))
    as (src & Hs & Hall).
  injection Hs as <-.
  destruct (Hall "#main/second/out" ltac:(by left)) as [Hin|Hout];
    [|exact Hout].
  simpl in Hin. apply list_elem_of_singleton in Hin. discriminate.
Defined.
